(** * AI Hover Assistant: routing, retry, usage metering, memory, formatting

    A shallow embedding of the query-routing and response-orchestration core
    of the browser extension:

    - [ModelDelegationService] (scoring-based combiner, hybrid execution),
    - [AIService] (rule cascade, hybrid query, response formatter, retry
      wrapper, conversation log),
    - [Background] (the service worker's provider handlers),
    - [UsageTracker] (the promise-chained usage counter),
    - [MemoryService] (the bounded conversation memory).

    JavaScript strings are sequences of UTF-16 code units; regular expression
    literals are embedded as abstract syntax and run by a backtracking
    matcher that follows the ECMAScript pattern semantics. *)

From Stdlib Require Import ZArith NArith QArith List String Ascii Bool Lia.
From stdpp Require Import base option list gmap strings.
Import ListNotations.

Local Open Scope N_scope.
Local Open Scope list_scope.

(* ===================================================================== *)
(** * JavaScript strings *)
(* ===================================================================== *)

Module Js.

(** A string value: its UTF-16 code units. *)
Definition jsstring : Type := list N.

(** An ASCII literal of the source as a string value. *)
Definition js (s : string) : jsstring :=
  map N_of_ascii (list_ascii_of_string s).

(** The double quote, kept out of literals, and the line feed. *)
Definition dq : jsstring := [34].
Definition nl : jsstring := [10].

(** The bullet U+2022 of the formatter's patterns. *)
Definition bullet : N := 8226.

Definition inRange (lo hi c : N) : bool := (lo <=? c) && (c <=? hi).

Definition isUpper (c : N) : bool := inRange 65 90 c.
Definition isLower (c : N) : bool := inRange 97 122 c.
Definition isDigit (c : N) : bool := inRange 48 57 c.

(** [\w] of a pattern without the unicode flag. *)
Definition isWordChar (c : N) : bool :=
  isUpper c || isLower c || isDigit c || (c =? 95).

(** ECMAScript LineTerminator: LF, CR, LS, PS. *)
Definition isLineTerminator (c : N) : bool :=
  (c =? 10) || (c =? 13) || (c =? 8232) || (c =? 8233).

(** ECMAScript WhiteSpace and LineTerminator: what [\s] matches and what
    [trim] removes. *)
Definition isSpace (c : N) : bool :=
  inRange 9 13 c || (c =? 32) || (c =? 160) || (c =? 5760)
  || inRange 8192 8202 c || (c =? 8232) || (c =? 8233) || (c =? 8239)
  || (c =? 8287) || (c =? 12288) || (c =? 65279).

(** [toLowerCase] and [toUpperCase] on one code unit.  The Latin letters are
    mapped; code units outside ASCII are left as they are (the keyword tables
    and patterns of the program are ASCII). *)
Definition lowerChar (c : N) : N := if isUpper c then c + 32 else c.
Definition upperChar (c : N) : N := if isLower c then c - 32 else c.

Definition toLowerCase (s : jsstring) : jsstring := map lowerChar s.

Fixpoint eqb (a b : jsstring) : bool :=
  match a, b with
  | [], [] => true
  | x :: a', y :: b' => (x =? y) && eqb a' b'
  | _, _ => false
  end.

(** [s.startsWith(p)] *)
Fixpoint startsWith (p s : jsstring) : bool :=
  match p, s with
  | [], _ => true
  | x :: p', y :: s' => (x =? y) && startsWith p' s'
  | _ :: _, [] => false
  end.

(** [s.includes(p)] *)
Fixpoint includes (p s : jsstring) : bool :=
  startsWith p s ||
  match s with
  | [] => false
  | _ :: s' => includes p s'
  end.

(** [list.includes(x)] on an array of strings (strict equality). *)
Definition arrayIncludes (x : jsstring) (l : list jsstring) : bool :=
  existsb (eqb x) l.

Fixpoint trimStart (s : jsstring) : jsstring :=
  match s with
  | c :: s' => if isSpace c then trimStart s' else s
  | [] => []
  end.

Definition trimEnd (s : jsstring) : jsstring := rev (trimStart (rev s)).

(** [s.trim()] *)
Definition trim (s : jsstring) : jsstring := trimEnd (trimStart s).

(** [s.slice(0, n)] for a non-negative [n]. *)
Definition slice0 (n : nat) (s : jsstring) : jsstring := take n s.

(** [s.split(sep)] for a one-character separator: the pieces between the
    occurrences, empty pieces included. *)
Fixpoint splitChar (sep : N) (s : jsstring) : list jsstring :=
  match s with
  | [] => [[]]
  | c :: s' =>
      if c =? sep then [] :: splitChar sep s'
      else match splitChar sep s' with
           | piece :: rest => (c :: piece) :: rest
           | [] => [[c]]
           end
  end.

(** [array.join(sep)] *)
Fixpoint join (sep : jsstring) (l : list jsstring) : jsstring :=
  match l with
  | [] => []
  | [x] => x
  | x :: rest => x ++ sep ++ join sep rest
  end.

(** Truthiness of a string: non-empty. *)
Definition truthy (s : jsstring) : bool :=
  match s with [] => false | _ => true end.

(** Decimal rendering of a non-negative integer, as [String(n)] and template
    literals produce it. *)
Fixpoint digitsFuel (fuel : nat) (n : N) (acc : jsstring) : jsstring :=
  match fuel with
  | O => acc
  | S fuel' =>
      let acc' := (48 + n mod 10) :: acc in
      if n <? 10 then acc' else digitsFuel fuel' (n / 10) acc'
  end.

Definition ofNumber (n : N) : jsstring := digitsFuel (S (N.to_nat (N.log2 n))) n [].

End Js.

Import Js.


(* ===================================================================== *)
(** * Regular expressions *)
(* ===================================================================== *)

Module Regex.

(** One member of a character class. *)
Inductive item : Type :=
| IChar (c : N)            (* a literal character *)
| IRange (lo hi : N)       (* [lo-hi] *)
| ISpace                   (* \s *)
| IDigit                   (* \d *)
| IWord.                   (* \w *)

(** Pattern syntax, as far as the program's literals use it. *)
Inductive re : Type :=
| Eps
| Class (neg : bool) (items : list item)   (* [...] and [^...]; one character is a class of one *)
| Dot                                      (* . : anything but a line terminator *)
| Seq (r1 r2 : re)
| Alt (r1 r2 : re)
| Star (greedy : bool) (r : re)            (* r* and r*? *)
| Group (n : nat) (r : re)                 (* the n-th capturing parentheses *)
| Lookahead (r : re)                       (* (?=r) *)
| WordB                                    (* \b *)
| Bol.                                     (* ^ *)

(** The flags of a literal ([g] belongs to the caller: [replaceAll]). *)
Record flags : Type := { ignoreCase : bool; multiline : bool }.

Definition noFlags : flags := {| ignoreCase := false; multiline := false |}.
Definition flagI : flags := {| ignoreCase := true; multiline := false |}.
Definition flagM : flags := {| ignoreCase := false; multiline := true |}.

(** Derived forms. *)
Definition chr (c : N) : re := Class false [IChar c].
Definition Plus (r : re) : re := Seq r (Star true r).
Definition Opt (r : re) : re := Alt r Eps.

Fixpoint lit (s : jsstring) : re :=
  match s with
  | [] => Eps
  | [c] => chr c
  | c :: s' => Seq (chr c) (lit s')
  end.

Fixpoint seqs (l : list re) : re :=
  match l with
  | [] => Eps
  | [r] => r
  | r :: l' => Seq r (seqs l')
  end.

Fixpoint alts (l : list re) : re :=
  match l with
  | [] => Eps
  | [r] => r
  | r :: l' => Alt r (alts l')
  end.

(** Does the character belong to the class member?  Under [i] two characters
    match when their canonical (upper-case) forms agree. *)
Definition itemMatches (ic : bool) (c : N) (it : item) : bool :=
  match it with
  | IChar x => (c =? x) || (ic && (upperChar c =? upperChar x))
  | IRange lo hi =>
      inRange lo hi c
      || (ic && (inRange lo hi (upperChar c) || inRange lo hi (lowerChar c)))
  | ISpace => isSpace c
  | IDigit => isDigit c
  | IWord => isWordChar c
  end.

Definition classMatches (ic neg : bool) (items : list item) (c : N) : bool :=
  xorb neg (existsb (itemMatches ic c) items).

(** The matcher's position: the character before it (for [\b] and [^]), its
    index, and the input from it on. *)
Record pos : Type := { prev : option N; idx : nat; rest : jsstring }.

Definition start (s : jsstring) : pos := {| prev := None; idx := O; rest := s |}.

(** The position one character further. *)
Definition advance (p : pos) : option pos :=
  match rest p with
  | [] => None
  | c :: s' => Some {| prev := Some c; idx := S (idx p); rest := s' |}
  end.

Definition isWordOpt (o : option N) : bool :=
  match o with Some c => isWordChar c | None => false end.

Definition atWordBoundary (p : pos) : bool :=
  xorb (isWordOpt (prev p)) (isWordOpt (head (rest p))).

Definition atLineStart (fl : flags) (p : pos) : bool :=
  match prev p with
  | None => true
  | Some c => multiline fl && isLineTerminator c
  end.

(** The captures so far: group number and captured text, latest first. *)
Definition captures : Type := list (nat * jsstring).

Definition capture (n : nat) (caps : captures) : jsstring :=
  match List.find (fun e => Nat.eqb (fst e) n) caps with
  | Some e => snd e
  | None => []
  end.

(** Backtracking matcher in continuation-passing style.  Alternatives are
    tried in the order ECMAScript gives them: the left branch of [|] first,
    one more round of a greedy star before leaving it, leaving a lazy star
    before one more round.  A round of a star that consumes nothing is
    rejected, so a star makes at most one round per remaining character. *)
Fixpoint run {R : Type} (fl : flags) (r : re) (p : pos) (caps : captures)
    (k : pos -> captures -> option R) {struct r} : option R :=
  match r with
  | Eps => k p caps
  | Class neg items =>
      match rest p with
      | c :: _ =>
          if classMatches (ignoreCase fl) neg items c
          then match advance p with Some p' => k p' caps | None => None end
          else None
      | [] => None
      end
  | Dot =>
      match rest p with
      | c :: _ =>
          if isLineTerminator c then None
          else match advance p with Some p' => k p' caps | None => None end
      | [] => None
      end
  | Seq r1 r2 => run fl r1 p caps (fun p' caps' => run fl r2 p' caps' k)
  | Alt r1 r2 =>
      match run fl r1 p caps k with
      | Some x => Some x
      | None => run fl r2 p caps k
      end
  | Star greedy r1 =>
      (fix rounds (fuel : nat) (p : pos) (caps : captures) {struct fuel} : option R :=
         match fuel with
         | O => k p caps
         | S fuel' =>
             let more :=
               run fl r1 p caps (fun p' caps' =>
                 if Nat.eqb (idx p') (idx p) then None else rounds fuel' p' caps') in
             if greedy
             then match more with Some x => Some x | None => k p caps end
             else match k p caps with Some x => Some x | None => more end
         end) (S (length (rest p))) p caps
  | Group n r1 =>
      run fl r1 p caps (fun p' caps' =>
        k p' ((n, take (idx p' - idx p) (rest p)) :: caps'))
  | Lookahead r1 =>
      match run fl r1 p caps (fun _ caps' => Some caps') with
      | Some caps' => k p caps'
      | None => None
      end
  | WordB => if atWordBoundary p then k p caps else None
  | Bol => if atLineStart fl p then k p caps else None
  end.

(** A match: where it starts, the text it covers, its captures, and the
    position after it. *)
Record result : Type :=
  { mstart : nat; mtext : jsstring; mcaps : captures; mend : pos }.

(** A match that starts exactly at [p] (a sticky match). *)
Definition matchAt (fl : flags) (r : re) (p : pos) : option result :=
  run fl r p [] (fun p' caps =>
    Some {| mstart := idx p; mtext := take (idx p' - idx p) (rest p);
            mcaps := caps; mend := p' |}).

(** The leftmost match at or after [p], with the text skipped before it. *)
Fixpoint search (fl : flags) (r : re) (p : pos) (todo : jsstring) (skipped : jsstring)
    {struct todo} : option (jsstring * result) :=
  match matchAt fl r p with
  | Some m => Some (rev skipped, m)
  | None =>
      match todo with
      | [] => None
      | c :: todo' =>
          search fl r {| prev := Some c; idx := S (idx p); rest := todo' |} todo' (c :: skipped)
      end
  end.

Definition searchFrom (fl : flags) (r : re) (p : pos) : option (jsstring * result) :=
  search fl r p (rest p) [].

(** [regex.test(s)] *)
Definition test (fl : flags) (r : re) (s : jsstring) : bool :=
  match searchFrom fl r (start s) with Some _ => true | None => false end.

(** [s.match(regex)] without [g]: the leftmost match, if any. *)
Definition exec (fl : flags) (r : re) (s : jsstring) : option result :=
  snd <$> searchFrom fl r (start s).

(** [s.replace(regex, f)] with the [g] flag: every match, left to right,
    replaced by [f] of it; after an empty match the search resumes one
    character further. *)
Fixpoint replaceFrom (fuel : nat) (fl : flags) (r : re) (f : result -> jsstring) (p : pos)
    : jsstring :=
  match fuel with
  | O => rest p
  | S fuel' =>
      match searchFrom fl r p with
      | None => rest p
      | Some (skipped, m) =>
          skipped ++ f m ++
          (if Nat.eqb (idx (mend m)) (mstart m)
           then match rest (mend m) with
                | [] => []
                | c :: _ =>
                    c :: match advance (mend m) with
                         | Some p' => replaceFrom fuel' fl r f p'
                         | None => []
                         end
                end
           else replaceFrom fuel' fl r f (mend m))
      end
  end.

Definition replaceAll (fl : flags) (r : re) (f : result -> jsstring) (s : jsstring) : jsstring :=
  replaceFrom (S (length s)) fl r f (start s).

(** [s.split(regex)] for a pattern without capturing groups, after
    ECMAScript's loop: [q] scans for a sticky match that ends beyond the last
    cut [p]; [piece] is the text between the cut and [q], reversed. *)
Fixpoint splitFrom (fuel : nat) (fl : flags) (r : re) (cut : nat) (piece : jsstring) (q : pos)
    : list jsstring :=
  match fuel with
  | O => [rev piece ++ rest q]
  | S fuel' =>
      match rest q with
      | [] => [rev piece]
      | c :: _ =>
          let next :=
            match advance q with
            | Some q' => splitFrom fuel' fl r cut (c :: piece) q'
            | None => [rev piece]
            end in
          match matchAt fl r q with
          | None => next
          | Some m =>
              let e := idx (mend m) in
              if Nat.eqb e cut then next
              else rev piece :: splitFrom fuel' fl r e [] (mend m)
          end
      end
  end.

Definition split (fl : flags) (r : re) (s : jsstring) : list jsstring :=
  match s with
  | [] => match matchAt fl r (start s) with Some _ => [] | None => [[]] end
  | _ => splitFrom (2 * length s + 1) fl r O [] (start s)
  end.

End Regex.

Import Regex.

(* ===================================================================== *)
(** * Shared vocabulary of the services *)
(* ===================================================================== *)

(** The backends a decision can name: ['claude'], ['perplexity'], ['hybrid']. *)
Inductive model : Type := Claude | Perplexity | Hybrid.

(** A page context object: property name to string value.  The empty map is
    the object literal [{}]. *)
Abbreviation context := (gmap string jsstring).

(** [context?.p], truthy: the property is present and not empty. *)
Definition truthyProp (ctx : context) (p : string) : bool :=
  match ctx !! p with Some v => truthy v | None => false end.

(** [context.p || ''] *)
Definition propOr (ctx : context) (p : string) (dflt : jsstring) : jsstring :=
  match ctx !! p with Some v => if truthy v then v else dflt | None => dflt end.

(** A quotient of two counts as JavaScript computes it: [None] is [NaN]
    (0/0).  The quotients of the program have numerators and denominators far
    below 2^53, where comparing the doubles and comparing the exact fractions
    agree. *)
Definition ratio (num den : nat) : option Q :=
  match den with
  | O => None
  | S _ => Some (Qmake (Z.of_nat num) (Pos.of_nat den))
  end.

(** [x > y] and [x < y] on numbers; any comparison with [NaN] is false. *)
Definition gtNum (x : option Q) (y : Q) : bool :=
  match x with Some q => negb (Qle_bool q y) | None => false end.

Definition ltNum (x : option Q) (y : Q) : bool :=
  match x with Some q => negb (Qle_bool y q) | None => false end.

(** Pattern fragments shared by the services. *)
Definition space1 : re := Class false [ISpace].
Definition lettersOrSpace : re := Plus (Class false [IRange 65 90; IRange 97 122; ISpace]).

(** [/\b(?:in|at|near|around)\s+([A-Za-z\s]+(?:,\s*[A-Za-z\s]+)?)\b/i] *)
Definition locationPattern : re :=
  seqs [ WordB;
         alts [lit (js "in"); lit (js "at"); lit (js "near"); lit (js "around")];
         Plus space1;
         Group 1 (Seq lettersOrSpace
                      (Opt (seqs [lit (js ","); Star true space1; lettersOrSpace])));
         WordB ].

(* ===================================================================== *)
(** * Effects: asynchronous code as state passing with exceptions *)
(* ===================================================================== *)

Module Effects.

(** How a call ends: it returns a value or throws an [Error] with a message
    (for a promise: it is fulfilled or rejected). *)
Inductive outcome (A : Type) : Type :=
| Return (a : A)
| Throw (message : jsstring).

Arguments Return {A} a.
Arguments Throw {A} message.

(** A computation over a world [W]: the trace of what it did to its
    environment, threaded through. *)
Definition M (W A : Type) : Type := W -> outcome A * W.

Definition ret {W A} (a : A) : M W A := fun w => (Return a, w).

Definition throw {W A} (message : jsstring) : M W A := fun w => (Throw message, w).

Definition bind {W A B} (c : M W A) (f : A -> M W B) : M W B :=
  fun w =>
    match c w with
    | (Return a, w') => f a w'
    | (Throw e, w') => (Throw e, w')
    end.

(** [try { c } catch (error) { h error.message }] *)
Definition tryCatch {W A} (c : M W A) (h : jsstring -> M W A) : M W A :=
  fun w =>
    match c w with
    | (Return a, w') => (Return a, w')
    | (Throw e, w') => h e w'
    end.

(** Append an event to a world that is a chronological trace. *)
Definition emit {E} (e : E) : M (list E) unit := fun w => (Return tt, w ++ [e]).

(** [2^i * 1000], capped: [Math.min(1000 * Math.pow(2, i), 8000)]. *)
Definition backoff (i : nat) : N := N.min (1000 * 2 ^ N.of_nat i) 8000.

End Effects.

Import Effects.

Notation "x <- c1 ;; c2" := (bind c1 (fun x => c2))
  (at level 100, c1 at next level, right associativity).
Notation "c1 ;;; c2" := (bind c1 (fun _ => c2))
  (at level 100, right associativity).

(** What travels back over the port: [{ success, error, data: { content:
    [{ text }] } }]; an absent field is [None]. *)
Record response : Type :=
  { success : bool;
    error : option jsstring;
    text : option jsstring }.

(** [x || dflt] on an optional string: absent and empty are falsy. *)
Definition orElse (x : option jsstring) (dflt : jsstring) : jsstring :=
  match x with Some v => if truthy v then v else dflt | None => dflt end.

Definition truthyOpt (x : option jsstring) : bool :=
  match x with Some v => truthy v | None => false end.

(* ===================================================================== *)
(** * Background: the service worker's provider handlers *)
(* ===================================================================== *)

Module Background.

(** The answer text found (or not) in a parsed response body. *)
Inductive parsed : Type :=
| Unparsable (message : jsstring)   (* reading the body or the path throws *)
| Answer (text : option jsstring).  (* the value at the documented path *)

(** What [fetch] does with one request. *)
Inductive fetchResult : Type :=
| Rejected (message : jsstring)                         (* network failure, abort *)
| Response (status : N) (raw : jsstring) (body : parsed).

(** [response.ok] *)
Definition ok (status : N) : bool := inRange 200 299 status.

Inductive event : Type :=
| Fetched (url : jsstring) (content : jsstring)
| Slept (ms : N).

(** The message the page posts, as far as the handlers read it. *)
Record request : Type :=
  { prompt : jsstring;
    contextString : option jsstring;
    url : option jsstring;
    title : option jsstring }.

Section Handlers.

(** The network: the result of the [n]-th fetch of a handler call. *)
Variable fetch : nat -> fetchResult.

Definition doFetch (n : nat) (url content : jsstring) : M (list event) fetchResult :=
  emit (Fetched url content) ;;; ret (fetch n).

Definition sleep (ms : N) : M (list event) unit := emit (Slept ms).

Definition perplexityPrompt (message : request) : jsstring :=
  if truthyOpt (contextString message) then
    js "Current Webpage Content:" ++ nl ++
    js "                " ++ orElse (contextString message) [] ++ nl ++
    nl ++
    js "                URL: " ++ orElse (url message) (js "Not provided") ++ nl ++
    js "                Title: " ++ orElse (title message) (js "Not provided") ++ nl ++
    nl ++
    js "                User Question: " ++ prompt message ++ nl ++
    nl ++
    js "                Instructions:" ++ nl ++
    js "                1. Base your response primarily on the webpage content above" ++ nl ++
    js "                2. Only include information that is explicitly present in the content" ++ nl ++
    js "                3. Format your response clearly and directly"
  else prompt message.

Definition perplexityApology : jsstring :=
  js "I apologize, but I couldn't process your request. Please try again later.".

(** One pass through the [try] block of [handlePerplexityRequest]. *)
Definition perplexityAttempt (message : request) (i : nat) : M (list event) response :=
  if negb (truthy (prompt message)) then throw (js "Invalid request: Missing prompt")
  else
    r <- doFetch i (js "https://api.perplexity.ai/chat/completions") (perplexityPrompt message) ;;
    match r with
    | Rejected e => throw e
    | Response status _ body =>
        if negb (ok status) then throw (js "API Error: " ++ ofNumber status)
        else match body with
             | Unparsable e => throw e
             | Answer responseText =>
                 if negb (truthyOpt responseText)
                 then throw (js "Invalid response format from API")
                 else ret {| success := true; error := None; text := responseText |}
             end
    end.

(** [for (let i = 0; i < retryCount; i++)], [todo] iterations left.  Falling
    off the loop returns [undefined]: [None]. *)
Fixpoint perplexityLoop (message : request) (retryCount todo i : nat)
    : M (list event) (option response) :=
  match todo with
  | O => ret None
  | S todo' =>
      tryCatch (r <- perplexityAttempt message i ;; ret (Some r))
        (fun _ =>
           if Nat.eqb i (retryCount - 1) then
             (* Return graceful fallback on final retry *)
             ret (Some {| success := true; error := None; text := Some perplexityApology |})
           else
             (* Exponential backoff before retry *)
             sleep (backoff i) ;;; perplexityLoop message retryCount todo' (S i))
  end.

(** [handlePerplexityRequest(message, retryCount = 2)] of the retrying
    service worker. *)
Definition handlePerplexityRequest (message : request) (retryCount : nat)
    : M (list event) (option response) :=
  perplexityLoop message retryCount retryCount 0.

Definition claudeContent (message : request) : jsstring :=
  if truthyOpt (contextString message) then
    js "Webpage Content:" ++ nl ++ orElse (contextString message) [] ++ nl ++ nl ++
    js "Question: " ++ prompt message
  else prompt message.

(** One pass through the [try] block of [handleClaudeRequest]; reading
    [data.content[0].text] off a body without that path throws. *)
Definition claudeAttempt (message : request) (i : nat) : M (list event) response :=
  r <- doFetch i (js "https://api.anthropic.com/v1/messages") (claudeContent message) ;;
  match r with
  | Rejected e => throw e
  | Response status errorText body =>
      if negb (ok status)
      then throw (js "Claude API Error (" ++ ofNumber status ++ js "): " ++ errorText)
      else match body with
           | Unparsable e => throw e
           | Answer responseText =>
               ret {| success := true; error := None; text := responseText |}
           end
  end.

Fixpoint claudeLoop (message : request) (retryCount todo i : nat)
    : M (list event) response :=
  match todo with
  | O => throw (js "All retry attempts failed")
  | S todo' =>
      tryCatch (claudeAttempt message i)
        (fun e =>
           if Nat.eqb i (retryCount - 1) then throw (js "Claude API Error: " ++ e)
           else sleep (backoff i) ;;; claudeLoop message retryCount todo' (S i))
  end.

(** [handleClaudeRequest(message, retryCount = 2)] of the retrying service
    worker: it throws when the last attempt fails. *)
Definition handleClaudeRequest (message : request) (retryCount : nat)
    : M (list event) response :=
  claudeLoop message retryCount retryCount 0.

(** [handleClaudeRequest(message)] of the single-shot service worker: one
    fetch, and a failure comes back as [success: false] with an apology that
    embeds the error message.  [apiKey] is [apiKeys.claude] after loading. *)
Definition handleClaudeRequestOnce (apiKey : jsstring) (message : request)
    : M (list event) response :=
  tryCatch
    (if negb (truthy apiKey) then throw (js "Claude API key is not set")
     else claudeAttempt message 0)
    (fun e =>
       ret {| success := false;
              error := Some (js "Claude API Error: " ++ e);
              text := Some (js "I apologize, but I couldn't process your request: " ++ e) |}).

End Handlers.

(** [withRetry(fn, maxRetries = 3)]: [fn] is tried up to [maxRetries] times;
    after every failure, the last one included, it waits [2^i * 1000] ms
    (no cap); then the last error is thrown.  [lastError] is [None] while
    nothing has failed ([undefined], for which the empty message stands). *)
Fixpoint withRetryLoop {A : Type} (fn : M (list event) A) (todo i : nat)
    (lastError : option jsstring) : M (list event) A :=
  match todo with
  | O => throw (default [] lastError)
  | S todo' =>
      tryCatch fn
        (fun e => emit (Slept (1000 * 2 ^ N.of_nat i)) ;;;
                  withRetryLoop fn todo' (S i) (Some e))
  end.

Definition withRetry {A : Type} (fn : M (list event) A) (maxRetries : nat)
    : M (list event) A :=
  withRetryLoop fn maxRetries 0 None.

(** [logApiError(errorData)], over the value of ['api_errors'] ([None]: the
    key is absent).  As in the page's logs, [get] answers with an object, so
    the default is never taken and [.push] on an absent list throws into the
    [catch] block. *)
Definition logApiError {A : Type} (errorData : A) (api_errors : option (list A))
    : option (list A) :=
  match api_errors with
  | None => None
  | Some l =>
      let l := l ++ [errorData] in
      (* Keep last 100 errors *)
      Some (if (100 <? length l)%nat then tail l else l)
  end.

End Background.

(** What [queryPerplexity] and [queryClaude] return: [{ text, model }]. *)
Record answer : Type := { atext : jsstring; amodel : model }.

(** [Promise.all([p, c])]: both calls are started, so both leave their
    effects; the result is the pair, or the first rejection. *)
Definition both {W A B} (p : M W A) (c : M W B) : M W (A * B) :=
  fun w =>
    match p w with
    | (o1, w1) =>
        match c w1 with
        | (o2, w2) =>
            match o1, o2 with
            | Return a, Return b => (Return (a, b), w2)
            | Throw e, _ => (Throw e, w2)
            | _, Throw e => (Throw e, w2)
            end
        end
    end.

(* ===================================================================== *)
(** * ModelDelegationService: the scoring-based combiner *)
(* ===================================================================== *)

Module ModelDelegationService.

Definition realTimeKeywords : list jsstring :=
  map js [ "now"; "today"; "current"; "latest"; "near"; "live"; "breaking"; "this weekend";
           "weather"; "traffic"; "price"; "available"; "open"; "schedule"; "events" ]%string.

Definition analyticalKeywords : list jsstring :=
  map js [ "explain"; "analyze"; "compare"; "historical"; "why"; "theory"; "break down";
           "how does"; "what causes"; "implications"; "evaluate"; "assess" ]%string.

Record decision : Type :=
  { dmodel : model;
    reasoning : jsstring;
    scores : option (option Q * option Q) (* { realTime, analytical } *) }.

(** [matches.length / Math.max(query.split(' ').length, 1)] *)
Definition calculateKeywordScore (query : jsstring) (keywords : list jsstring) : option Q :=
  let matches := List.filter (fun keyword => includes keyword query) keywords in
  ratio (length matches) (Nat.max (length (splitChar 32 query)) 1).

(** [/\b(?:when|time|schedule|hours|open|closes?|available)\b/i] *)
Definition timePattern : re :=
  seqs [ WordB;
         alts [ lit (js "when"); lit (js "time"); lit (js "schedule"); lit (js "hours");
                lit (js "open"); Seq (lit (js "close")) (Opt (lit (js "s")));
                lit (js "available") ];
         WordB ].

Definition analyzeQueryContext (query : jsstring) : option decision :=
  (* Location-based queries *)
  if test flagI locationPattern query then
    Some {| dmodel := Perplexity;
            reasoning := js "Location-based query requiring current data";
            scores := None |}
  (* Time-sensitive queries *)
  else if test flagI timePattern query then
    Some {| dmodel := Perplexity;
            reasoning := js "Time-sensitive query requiring current data";
            scores := None |}
  else None.

Definition HYBRID_THRESHOLD : Q := Qmake 3 10.
Definition SINGLE_MODEL_THRESHOLD : Q := Qmake 1 2.

Definition determineModelForQuery (query : jsstring) : decision :=
  let lowercaseQuery := toLowerCase query in
  let realTimeScore := calculateKeywordScore lowercaseQuery realTimeKeywords in
  let analyticalScore := calculateKeywordScore lowercaseQuery analyticalKeywords in
  if gtNum realTimeScore HYBRID_THRESHOLD && gtNum analyticalScore HYBRID_THRESHOLD then
    {| dmodel := Hybrid;
       reasoning := js "Query requires both real-time data and analysis";
       scores := Some (realTimeScore, analyticalScore) |}
  else if gtNum realTimeScore SINGLE_MODEL_THRESHOLD then
    {| dmodel := Perplexity;
       reasoning := js "Query requires real-time data";
       scores := Some (realTimeScore, analyticalScore) |}
  else if gtNum analyticalScore SINGLE_MODEL_THRESHOLD then
    {| dmodel := Claude;
       reasoning := js "Query requires analytical processing";
       scores := Some (realTimeScore, analyticalScore) |}
  else
    (* Enhanced contextual analysis for ambiguous queries *)
    match analyzeQueryContext query with
    | Some contextualDecision => contextualDecision
    | None =>
        (* Default to hybrid for complex queries *)
        {| dmodel := Hybrid;
           reasoning := js "Complex query requiring comprehensive response";
           scores := Some (realTimeScore, analyticalScore) |}
    end.

(** ** Executing a decision.  The service is constructed over an [aiService]
    and calls its two query methods. *)

Record queryResult : Type := { qtext : jsstring; qmodel : model }.

Section Execute.

Variable W : Type.
Variable queryPerplexity : jsstring -> context -> M W answer.
Variable queryClaude : jsstring -> context -> M W answer.

Definition enhancementPrompt (perplexityResponse claudeResponse : jsstring) : jsstring :=
  nl ++
  js "            I have two responses to merge and enhance:" ++ nl ++
  nl ++
  js "            Real-time Data:" ++ nl ++
  js "            " ++ perplexityResponse ++ nl ++
  nl ++
  js "            Analysis:" ++ nl ++
  js "            " ++ claudeResponse ++ nl ++
  nl ++
  js "            Please create a comprehensive response that:" ++ nl ++
  js "            1. Combines the most relevant information from both sources" ++ nl ++
  js "            2. Removes any redundancies" ++ nl ++
  js "            3. Presents a clear, logical flow of information" ++ nl ++
  js "            4. Adds any missing context" ++ nl ++
  js "            5. Ensures consistent formatting" ++ nl ++
  nl ++
  js "            Format the response to be highly readable with:" ++ nl ++
  js "            - Clear section headings" ++ nl ++
  js "            - Bullet points for key details" ++ nl ++
  js "            - Numbered lists for steps or sequences" ++ nl ++
  js "            - Bold text for important information" ++ nl ++
  js "            ".

Definition processHybridResponse (perplexityResponse claudeResponse : jsstring) : M W answer :=
  queryClaude (enhancementPrompt perplexityResponse claudeResponse) ∅.

Definition executeQuery (query : jsstring) (ctx : context) : M W queryResult :=
  let modelDecision := determineModelForQuery query in
  match dmodel modelDecision with
  | Hybrid =>
      (* Execute parallel queries for efficiency *)
      rs <- both (queryPerplexity query ctx) (queryClaude query ctx) ;;
      (* Merge and enhance responses *)
      enhancedResponse <- processHybridResponse (atext (fst rs)) (atext (snd rs)) ;;
      ret {| qtext := atext enhancedResponse; qmodel := Hybrid |}
  | Perplexity =>
      r <- queryPerplexity query ctx ;;
      ret {| qtext := atext r; qmodel := Perplexity |}
  | Claude =>
      r <- queryClaude query ctx ;;
      ret {| qtext := atext r; qmodel := Claude |}
  end.

End Execute.

End ModelDelegationService.

(* ===================================================================== *)
(** * AIService, part 1: the rule cascade *)
(* ===================================================================== *)

Module AIService.

Record decision : Type :=
  { dmodel : model;
    useWebpageContext : bool;
    reasoning : jsstring }.

(** [/\W+/] *)
Definition nonWords : re := Plus (Class true [IWord]).

(** [new Set(text.split(/\W+/).filter(w => w.length > 3))] *)
Definition significantWords (text : jsstring) : gset jsstring :=
  list_to_set (List.filter (fun w => (3 <? length w)%nat) (split noFlags nonWords text)).

Definition calculateContextRelevance (prompt contextText : jsstring) : option Q :=
  let promptWords := significantWords (toLowerCase prompt) in
  let contextWords := significantWords (slice0 1000 (toLowerCase contextText)) in
  let matches := List.filter (fun word => bool_decide (word ∈ contextWords)) (elements promptWords) in
  ratio (length matches) (size promptWords).

Definition isWebpageQuery (prompt : jsstring) : bool :=
  let lowercasePrompt := toLowerCase prompt in
  (* Explicit webpage references *)
  let explicitTerms :=
    map js [ "this page"; "this website"; "this site"; "this company";
             "the page"; "the website"; "the company"; "this webpage" ]%string in
  (* Contextual webpage references *)
  let contextualTerms :=
    map js [ "what does"; "tell me about"; "explain"; "describe" ]%string in
  existsb (fun term => includes term lowercasePrompt) explicitTerms
  || (existsb (fun term => includes term lowercasePrompt) contextualTerms
      && includes (js "this") lowercasePrompt).

(** [/when is .* this year/i], [/lookup .* event/i], [/schedule for .*/i],
    [/dates? for .*/i], [/time[s]? for .*/i] *)
Definition eventPatterns : list re :=
  [ seqs [lit (js "when is "); Star true Dot; lit (js " this year")];
    seqs [lit (js "lookup "); Star true Dot; lit (js " event")];
    seqs [lit (js "schedule for "); Star true Dot];
    seqs [lit (js "date"); Opt (lit (js "s")); lit (js " for "); Star true Dot];
    seqs [lit (js "time"); Opt (Class false [IChar 115]); lit (js " for "); Star true Dot] ].

Definition realTimeKeywords : list jsstring :=
  map js [ "recommend"; "pizza"; "restaurant"; "cafe"; "bar"; "food";
           "near"; "open"; "current"; "today"; "weather"; "price";
           "available"; "location"; "address"; "weekend"; "tonight";
           "event"; "happening"; "things to do"; "what's on";
           "activities"; "tomorrow"; "upcoming"; "this week";
           "next week"; "show"; "playing"; "screening"; "showing";
           "hours"; "time"; "schedule"; "booking" ]%string.

Definition eventKeywords : list jsstring :=
  map js [ "this weekend"; "tonight"; "today";
           "things to do"; "activities"; "events";
           "what's happening"; "going on" ]%string.

(** [/who (?:runs|owns|started|founded|leads|manages|operates)/i],
    [/founder|ceo|owner|president|director/i],
    [/when (?:was|did).*(?:found|start|begin|establish)/i],
    [/company leadership|management team/i] *)
Definition companyInfoPatterns : list re :=
  [ Seq (lit (js "who "))
        (alts (map (fun w => lit (js w))
                 [ "runs"; "owns"; "started"; "founded"; "leads"; "manages"; "operates" ]%string));
    alts (map (fun w => lit (js w))
            [ "founder"; "ceo"; "owner"; "president"; "director" ]%string);
    seqs [ lit (js "when "); Alt (lit (js "was")) (lit (js "did")); Star true Dot;
           alts (map (fun w => lit (js w)) [ "found"; "start"; "begin"; "establish" ]%string) ];
    Alt (lit (js "company leadership")) (lit (js "management team")) ].

Definition basicQueries : list jsstring :=
  map js [ "hello"; "hi"; "hey"; "good morning"; "good afternoon";
           "good evening"; "help"; "what can you do" ]%string.

(** The ten numbered steps of the source, in order; the first rule that
    fires returns. *)
Definition determineModelForQuery (prompt : jsstring) (ctx : context) : decision :=
  let lowercasePrompt := trim (toLowerCase prompt) in
  (* 1. Event lookup patterns *)
  if existsb (fun pattern => test flagI pattern prompt) eventPatterns then
    {| dmodel := Perplexity; useWebpageContext := false;
       reasoning := js "Event lookup query" |}
  else
  (* 2. Location detection *)
  let hasLocation := test flagI locationPattern prompt in
  (* 5. Location + event keywords *)
  if hasLocation && existsb (fun kw => includes kw lowercasePrompt) eventKeywords then
    {| dmodel := Perplexity; useWebpageContext := false;
       reasoning := js "Query requires current local event information" |}
  (* 6. Location + real-time keywords *)
  else if hasLocation
          && existsb (fun kw => includes (toLowerCase kw) lowercasePrompt) realTimeKeywords then
    {| dmodel := Perplexity; useWebpageContext := false;
       reasoning := js "Query requires current local information" |}
  else
  (* 7. Standalone real-time queries *)
  let hasRealTimeKeyword :=
    existsb (fun kw => includes (toLowerCase kw) lowercasePrompt) realTimeKeywords in
  if hasRealTimeKeyword
     && negb (startsWith (js "what is") lowercasePrompt)
     && negb (startsWith (js "how does") lowercasePrompt) then
    {| dmodel := Perplexity; useWebpageContext := false;
       reasoning := js "Real-time information query" |}
  else
  (* 8. Company info *)
  let isCompanyInfoQuery := existsb (fun pattern => test flagI pattern prompt) companyInfoPatterns in
  if isCompanyInfoQuery && truthyProp ctx "visibleText"
     && ltNum (calculateContextRelevance prompt (propOr ctx "visibleText" [])) (Qmake 3 10) then
    {| dmodel := Perplexity; useWebpageContext := false;
       reasoning := js "Company information query requiring external search" |}
  (* 9. Webpage-specific queries *)
  else if isWebpageQuery prompt then
    {| dmodel := Perplexity; useWebpageContext := true;
       reasoning := js "Query is about current webpage" |}
  (* 10. Basic greeting check - only exact matches *)
  else if arrayIncludes lowercasePrompt basicQueries then
    {| dmodel := Claude; useWebpageContext := false;
       reasoning := js "Basic greeting" |}
  (* Default to Claude *)
  else
    {| dmodel := Claude; useWebpageContext := false;
       reasoning := js "General knowledge query" |}.

(** The guards of the rules before the webpage rule, for stating which
    queries reach it. *)
Definition earlierRuleFires (prompt : jsstring) (ctx : context) : bool :=
  let lowercasePrompt := trim (toLowerCase prompt) in
  let hasLocation := test flagI locationPattern prompt in
  let hasRealTimeKeyword :=
    existsb (fun kw => includes (toLowerCase kw) lowercasePrompt) realTimeKeywords in
  existsb (fun pattern => test flagI pattern prompt) eventPatterns
  || (hasLocation && existsb (fun kw => includes kw lowercasePrompt) eventKeywords)
  || (hasLocation && hasRealTimeKeyword)
  || (hasRealTimeKeyword
      && negb (startsWith (js "what is") lowercasePrompt)
      && negb (startsWith (js "how does") lowercasePrompt))
  || (existsb (fun pattern => test flagI pattern prompt) companyInfoPatterns
      && truthyProp ctx "visibleText"
      && ltNum (calculateContextRelevance prompt (propOr ctx "visibleText" [])) (Qmake 3 10)).

(** ** The routing inside [queryByModel], the entry point the widget calls *)

(** [processContext(context, prompt)], its [useContext] field: the page
    text is there and the query is about the webpage. *)
Definition processContextUse (ctx : context) (prompt : jsstring) : bool :=
  if negb (truthyProp ctx "visibleText") || negb (truthy prompt) then false
  else
    let p := toLowerCase prompt in
    includes (js "webpage") p || includes (js "this page") p
    || includes (js "company") p || includes (js "website") p.

(** The company patterns of [queryByModel]: those of the cascade and
    [/about the company|company information/i]. *)
Definition companyInfoPatterns' : list re :=
  companyInfoPatterns
  ++ [Alt (lit (js "about the company")) (lit (js "company information"))].

Definition realTimeKeywords' : list jsstring :=
  map js [ "current"; "now"; "today"; "tonight"; "weather";
           "open"; "hours"; "price"; "near"; "location";
           "restaurant"; "store"; "shop"; "movie"; "showing" ]%string.

(** [modelToUse] when [queryByModel] sends its request; [None] on the fast
    path, where a greeting is answered without a request. *)
Definition modelToUse (prompt : jsstring) (ctx : context) : option model :=
  (* Check for basic queries first (fast path) *)
  if arrayIncludes (trim (toLowerCase prompt)) (map js ["hello"; "hi"; "hey"; "help"]%string)
  then None
  (* If it's a company info query, use Perplexity to get current data *)
  else if existsb (fun pattern => test flagI pattern prompt) companyInfoPatterns'
  then Some Perplexity
  (* Check for webpage content analysis *)
  else if processContextUse ctx prompt then Some Claude
  (* Real-time indicators check *)
  else if test flagI locationPattern prompt
          && existsb (fun keyword => includes keyword (toLowerCase prompt)) realTimeKeywords'
  then Some Perplexity
  else Some Claude.

(** ** The retry wrapper and the query methods *)

(** [message.modelDecision], as far as it is read. *)
Record modelDecisionOpt : Type :=
  { mdModel : option model; mdIsHybrid : bool; mdUseContext : option bool }.

(** The argument of [sendMessageWithRetry], as far as it is read ([system],
    [temperature] and [requestId] are not forwarded). *)
Record message : Type :=
  { prompt : jsstring;
    mmodel : option model;
    misHybrid : bool;
    mdecision : option modelDecisionOpt;
    mcontext : option context }.

(** What is posted to the port ([timestamp] and [requestId], which come from
    the clock and the random source, are left out). *)
Record formattedMessage : Type :=
  { fprompt : jsstring;
    fmodel : model;
    fisHybrid : bool;
    fuseContext : bool;
    fcontext : context;
    attempt : nat }.

Inductive event : Type :=
| Posted (m : formattedMessage)                          (* port.postMessage *)
| Slept (ms : N)                                         (* setTimeout *)
| KeyChecked (m : model)                                 (* validateAPIKey *)
| Stored (prompt response : jsstring) (m : model).       (* memoryService.storeConversation *)

Definition isPosted (e : event) : bool :=
  match e with Posted _ => true | _ => false end.

Definition posted (w : list event) : list formattedMessage :=
  omap (fun e => match e with Posted m => Some m | _ => None end) w.

Definition slept (w : list event) : list N :=
  omap (fun e => match e with Slept ms => Some ms | _ => None end) w.

Definition sanitizeContext (ctx : context) : context :=
  (* Remove potentially problematic fields *)
  let sanitized := delete "window" (delete "chrome" (delete "port" ctx)) in
  (* Ensure text fields are strings *)
  let sanitized := alter (slice0 5000) "visibleText" sanitized in
  alter (slice0 1000) "selectedText" sanitized.

Definition formatMessage (m : message) (currentAttempt : nat) : formattedMessage :=
  {| fprompt := prompt m;
     fmodel := match mmodel m with
               | Some x => x
               | None => match mdecision m ≫= mdModel with Some x => x | None => Claude end
               end;
     fisHybrid := misHybrid m || match mdecision m with Some d => mdIsHybrid d | None => false end;
     fuseContext := match mdecision m ≫= mdUseContext with Some b => b | None => true end;
     fcontext := sanitizeContext (default ∅ (mcontext m));
     attempt := S currentAttempt |}.

Definition exhaustedApology (errorMessage : jsstring) : jsstring :=
  js "Sorry, I encountered an error while trying to process your request: " ++ errorMessage
  ++ js ". Please check your API keys and try again.".

Section Env.

(** The other end of the port: what the service worker answers to the
    [n]-th request posted, or nothing before the timeout. *)
Variable port : nat -> formattedMessage -> option response.

(** The service worker's answer to [validateAPIKey]. *)
Variable keyValid : model -> bool.

Definition executeRequest (m : formattedMessage) : M (list event) response :=
  fun w =>
    let n := length (posted w) in
    match port n m with
    | None => (Throw (js "Request timeout"), w ++ [Posted m])
    | Some r =>
        if success r then (Return r, w ++ [Posted m])
        else (Throw (orElse (error r) (js "Request failed")), w ++ [Posted m])
    end.

Definition sleep (ms : N) : M (list event) unit := emit (Slept ms).

(** [while (currentAttempt < maxRetries)], with [todo] iterations left.
    Leaving the loop by its condition returns [undefined]: [None]. *)
Fixpoint retryLoop (m : message) (maxRetries todo currentAttempt : nat)
    : M (list event) (option response) :=
  match todo with
  | O => ret None
  | S todo' =>
      tryCatch
        ((* Pre-validate message *)
         if negb (truthy (prompt m)) then throw (js "Invalid message: prompt is required")
         else
           (* Execute request *)
           r <- executeRequest (formatMessage m currentAttempt) ;;
           ret (Some r))
        (fun errorMessage =>
           let currentAttempt := S currentAttempt in
           if Nat.eqb currentAttempt maxRetries then
             (* Return error message after all retries have failed *)
             ret (Some {| success := true; error := None;
                          text := Some (exhaustedApology errorMessage) |})
           else
             (* Exponential backoff *)
             sleep (backoff currentAttempt) ;;;
             retryLoop m maxRetries todo' currentAttempt)
  end.

(** [sendMessageWithRetry(message, maxRetries = 3, timeout = 30000)] *)
Definition sendMessageWithRetry (m : message) (maxRetries : nat)
    : M (list event) (option response) :=
  retryLoop m maxRetries maxRetries 0.

(** [Object.keys(context).length > 0] *)
Definition nonEmpty (ctx : context) : bool := negb (bool_decide (ctx = ∅)).

(** [this.memoryService.storeConversation(prompt, responseText, model)] *)
Definition memoryStore (prompt responseText : jsstring) (m : model) : M (list event) unit :=
  emit (Stored prompt responseText m).

(** The part of both query methods after the request: check the response,
    store the exchange when [store] is set, hand the text back. *)
Definition finish (prompt : jsstring) (m : model) (store : bool) (r : option response)
    : M (list event) answer :=
  match r with
  | Some r =>
      if negb (success r) then throw (orElse (error r) (js "API request failed"))
      else if negb (truthyOpt (text r)) then throw (js "Invalid API response format")
      else
        (if store then memoryStore prompt (orElse (text r) []) m else ret tt) ;;;
        ret {| atext := orElse (text r) []; amodel := m |}
  | None => throw (js "API request failed")
  end.

Definition queryPerplexity (prompt : jsstring) (ctx : context) : M (list event) answer :=
  tryCatch
    ((* Only process context if there is context and it's meant to be used *)
     let shouldUseContext := nonEmpty ctx in
     let fullPrompt :=
       if shouldUseContext
       then js "Question: " ++ prompt ++ nl ++ nl ++ js "Relevant webpage content: "
            ++ propOr ctx "visibleText" []
       else prompt in
     r <- sendMessageWithRetry
            {| prompt := fullPrompt; mmodel := Some Perplexity; misHybrid := false;
               mdecision := None;
               mcontext := Some (if shouldUseContext then ctx else ∅) |} 3 ;;
     finish prompt Perplexity true r)
    (fun e => throw (js "Perplexity API error: " ++ (if truthy e then e else js "Failed to fetch response"))).

Definition isApiKeyValid (m : model) : M (list event) bool :=
  emit (KeyChecked m) ;;; ret (keyValid m).

Definition queryClaude (prompt : jsstring) (ctx : context) (isRoutingQuery : bool)
    : M (list event) answer :=
  (* First validate that the API key exists and is properly formatted *)
  isKeyValid <- isApiKeyValid Claude ;;
  if negb isKeyValid then
    throw (js "Claude API key is invalid or not set. Please check your API key in the extension settings.")
  else
    (* For routing queries, never use context *)
    let shouldUseContext := negb isRoutingQuery && nonEmpty ctx in
    let fullPrompt :=
      if shouldUseContext
      then js "Webpage content: " ++ propOr ctx "visibleText" [] ++ nl ++ nl
           ++ js "Question: " ++ prompt
      else prompt in
    r <- sendMessageWithRetry
           {| prompt := fullPrompt; mmodel := Some Claude; misHybrid := false;
              mdecision := None;
              mcontext := Some (if shouldUseContext then ctx else ∅) |} 3 ;;
    (* Don't store routing queries in conversation history *)
    finish prompt Claude (negb isRoutingQuery) r.

(** ** The hybrid query *)

(** What [queryHybrid] returns: the text and the label in [model]. *)
Record hybridResult : Type := { htext : jsstring; hlabel : jsstring }.

Definition perplexityPrompt (prompt : jsstring) : jsstring :=
  prompt ++ nl ++
  js "Provide detailed, factual information. Include specific details like names, addresses, ratings, and any relevant current data.".

Definition formattingPrompt (prompt perplexityText : jsstring) : jsstring :=
  js "I have raw data about " ++ dq ++ prompt ++ dq ++ js " that needs to be formatted into a clear, well-organized response. " ++ nl ++
  js "    Here's the raw data:" ++ nl ++
  js "    " ++ perplexityText ++ nl ++
  js "    " ++ nl ++
  js "    Please format this information into a clear, helpful response that:" ++ nl ++
  js "    1. Organizes the information logically" ++ nl ++
  js "    2. Highlights the most relevant details" ++ nl ++
  js "    3. Makes it easy to understand and act on" ++ nl ++
  js "    4. Adds any relevant context or tips" ++ nl ++
  js "    " ++ nl ++
  js "    Format the response in a user-friendly way, but don't add any information that wasn't in the original data.".

Definition queryHybrid (prompt : jsstring) (ctx : context) : M (list event) hybridResult :=
  (* 1. First, get raw data from Perplexity *)
  perplexityResponse <- queryPerplexity (perplexityPrompt prompt) ctx ;;
  if negb (truthy (atext perplexityResponse)) then
    (* [await this.queryClaude(...).text]: the call is started, and [.text] is
       read off the promise, which has no such property *)
    fun w =>
      (Return {| htext := js "I couldn't retrieve real-time data, but here's my best answer based on what I know:"
                          ++ nl ++ nl ++ js "undefined";
                 hlabel := js "Claude (fallback)" |},
       snd (queryClaude prompt ctx false w))
  else
    (* 2. Then have Claude format and enhance the response *)
    claudeResponse <- queryClaude (formattingPrompt prompt (atext perplexityResponse)) ∅ false ;;
    ret {| htext := atext claudeResponse;
           hlabel := js "hybrid (Perplexity + Claude)" |}.

End Env.

(** ** The response formatter *)

(** [/<[^>]*>/g] *)
Definition tagPattern : re := seqs [lit (js "<"); Star true (Class true [IChar 62]); lit (js ">")].

(** [/\*\*(.*?)\*\*/g] *)
Definition boldPattern : re := seqs [lit (js "**"); Group 1 (Star false Dot); lit (js "**")].

(** [/\u2022/g], the bullet *)
Definition bulletPattern : re := chr bullet.

(** [/\n\n+/] *)
Definition sectionBreak : re := Seq (lit (nl ++ nl)) (Star true (chr 10)).

(** [/(?=\d+\.)/] *)
Definition itemStart : re := Lookahead (Seq (Plus (Class false [IDigit])) (lit (js "."))).

(** [/\d+\.\s*(.+)/] *)
Definition titlePattern : re :=
  seqs [Plus (Class false [IDigit]); lit (js "."); Star true space1; Group 1 (Plus Dot)].

(** [/^\s*(Location|Date|Time|Price|Cost|When):\s*(.+)/i] *)
Definition labelPattern : re :=
  seqs [ Bol; Star true space1;
         Group 1 (alts (map (fun w => lit (js w))
                          [ "Location"; "Date"; "Time"; "Price"; "Cost"; "When" ]%string));
         lit (js ":"); Star true space1; Group 2 (Plus Dot) ].

(** [/^[-\u2022]/m] and [/^[-\u2022]\s*/m] *)
Definition bulletLine : re := Seq Bol (Class false [IChar 45; IChar bullet]).
Definition bulletSplit : re := seqs [Bol; Class false [IChar 45; IChar bullet]; Star true space1].

(** [s.replace(/<[^>]*>/g, '')] *)
Definition stripTags (s : jsstring) : jsstring :=
  replaceAll noFlags tagPattern (fun _ => []) s.

(** [s.replace(/\*\*(.*?)\*\*/g, '<strong>$1</strong>')] *)
Definition convertBold (s : jsstring) : jsstring :=
  replaceAll noFlags boldPattern
    (fun m => js "<strong>" ++ capture 1 (mcaps m) ++ js "</strong>") s.

(** [s.replace(/\u2022/g, '\u2022')] *)
Definition normalizeBullets (s : jsstring) : jsstring :=
  replaceAll noFlags bulletPattern (fun _ => [bullet]) s.

Definition formatDetail (detail : jsstring) : jsstring :=
  match exec flagI labelPattern detail with
  | Some labelMatch =>
      js "<div class=" ++ dq ++ js "event-detail" ++ dq ++ js "><strong>"
      ++ capture 1 (mcaps labelMatch) ++ js ":</strong> "
      ++ capture 2 (mcaps labelMatch) ++ js "</div>"
  | None =>
      js "<div class=" ++ dq ++ js "event-description" ++ dq ++ js ">"
      ++ trim detail ++ js "</div>"
  end.

(** What one item of a numbered section pushes. *)
Definition formatItem (item : jsstring) : list jsstring :=
  if negb (truthy (trim item)) then []
  else
    match splitChar 10 item with
    | title :: details =>
        match exec noFlags titlePattern title with
        | None => []
        | Some titleMatch =>
            [ js "<div class=" ++ dq ++ js "event-item" ++ dq ++ js ">";
              js "<h3>" ++ capture 1 (mcaps titleMatch) ++ js "</h3>";
              join nl (map formatDetail details);
              js "</div>" ]
        end
    | [] => []
    end.

(** What one section pushes onto [formatted]. *)
Definition formatSection (section : jsstring) : list jsstring :=
  if startsWith (js "1.") (trim section) then
    (* Numbered list section *)
    let items := split noFlags itemStart section in
    [js "<div class=" ++ dq ++ js "event-list" ++ dq ++ js ">"]
    ++ concat (map formatItem items)
    ++ [js "</div>"]
  else if test flagM bulletLine section then
    (* Bullet list *)
    let items := List.filter (fun i => truthy (trim i)) (split flagM bulletSplit section) in
    [js "<ul>"]
    ++ map (fun item => js "<li>" ++ trim item ++ js "</li>") items
    ++ [js "</ul>"]
  else
    (* Regular paragraph *)
    [js "<p>" ++ trim section ++ js "</p>"].

Definition formatResponse (text : jsstring) : jsstring :=
  if negb (truthy text) then []
  else
    (* First clean HTML but preserve bold marks *)
    let text := normalizeBullets (convertBold (stripTags text)) in
    (* Split into sections *)
    let sections := split noFlags sectionBreak text in
    join nl (concat (map formatSection sections)).

(** ** The service's own conversation log *)

(** [{ timestamp, prompt, response, model }] *)
Record entry : Type :=
  { timestamp : N; eprompt : jsstring; eresponse : jsstring; emodel : model }.

(** [storeConversation(prompt, response, model)], over the conversation
    entries of [chrome.storage.local] by key.  [sessionId] is what
    [this.getSessionId()] yields (the helper is not part of the class as
    given), [now] is [Date.now()]. *)
Definition storeConversation (sessionId : jsstring) (now : N)
    (prompt response : jsstring) (m : model)
    (storage : gmap jsstring (list entry)) : gmap jsstring (list entry) :=
  let key := js "conversation_" ++ sessionId in
  let history := default [] (storage !! key) in
  let history :=
    history ++ [{| timestamp := now; eprompt := prompt; eresponse := response; emodel := m |}] in
  (* Keep only last 50 messages *)
  let history := if (50 <? length history)%nat then tail history else history in
  <[key := history]> storage.

(** ** Smaller helpers of the service *)

(** [validateModelDecision(modelDecision)] on a string. *)
Definition validateModelDecision (modelDecision : jsstring) : jsstring :=
  let decision := trim (toLowerCase modelDecision) in
  if arrayIncludes decision [js "claude"; js "perplexity"] then decision else js "claude".

(** [/&[^;]+;/g] *)
Definition entityPattern : re :=
  seqs [lit (js "&"); Plus (Class true [IChar 59]); lit (js ";")].

(** [cleanHtmlTags(text)] *)
Definition cleanHtmlTags (text : jsstring) : jsstring :=
  if negb (truthy text) then []
  else trim (replaceAll noFlags entityPattern (fun _ => []) (stripTags text)).

(** The body shared by [logModelDecision] and [logError], over the value
    stored under the log's key ([None]: the key is absent).
    [chrome.storage.local.get] answers with an object, which is truthy, so
    the [|| { ...: [] }] default is never taken; on an absent key [.push] is
    called on [undefined], throws, and the [catch] block swallows it before
    anything is written. *)
Definition appendToLog {A : Type} (cap : nat) (log : option (list A)) (e : A)
    : option (list A) :=
  match log with
  | None => None
  | Some l =>
      let l := l ++ [e] in
      Some (if (cap <? length l)%nat then tail l else l)
  end.

(** [logModelDecision(data)], over the value of ['model_decisions']. *)
Definition logModelDecision {A : Type} (data : A) (model_decisions : option (list A))
    : option (list A) :=
  appendToLog 1000 model_decisions data.

(** [{ type, message, stack, timestamp }] *)
Record errorEntry : Type :=
  { etype : jsstring; emessage : jsstring; estack : jsstring; etimestamp : jsstring }.

(** [logError(type, error)], over the value of ['error_log']; [isoNow] is
    [new Date().toISOString()]. *)
Definition logError (type message stack isoNow : jsstring)
    (error_log : option (list errorEntry)) : option (list errorEntry) :=
  appendToLog 100 error_log
    {| etype := type; emessage := message; estack := stack; etimestamp := isoNow |}.

End AIService.

(* ===================================================================== *)
(** * QueryHandler: the retrying front of the delegation service *)
(* ===================================================================== *)

Module QueryHandler.

(** [this.retryLimit] and [this.retryDelay] *)
Definition retryLimit : nat := 3.
Definition retryDelay : N := 1000.

(** What [processResponse] returns ([metadata.timestamp], the clock's, is
    left out). *)
Record handled : Type :=
  { htext : jsstring; hmodel : model; hreasoning : jsstring }.

Section Handle.

Variable W : Type.

(** [this.delegationService.executeQuery] and [setTimeout]. *)
Variable executeQuery : jsstring -> context -> M W ModelDelegationService.queryResult.
Variable sleep : N -> M W unit.

(** [optimizeQuery(query)] *)
Definition optimizeQuery (query : jsstring) : jsstring := query.

(** [processResponse(response, modelDecision)] *)
Definition processResponse (response : ModelDelegationService.queryResult)
    (modelDecision : ModelDelegationService.decision) : M W handled :=
  if negb (truthy (ModelDelegationService.qtext response))
  then throw (js "Invalid response format")
  else ret {| htext := ModelDelegationService.qtext response;
              hmodel := ModelDelegationService.dmodel modelDecision;
              hreasoning := ModelDelegationService.reasoning modelDecision |}.

(** One pass through the [try] block of [handleQuery]. *)
Definition attemptQuery (query : jsstring) (ctx : context) : M W handled :=
  let optimizedQuery := optimizeQuery query in
  let modelDecision := ModelDelegationService.determineModelForQuery optimizedQuery in
  response <- executeQuery optimizedQuery ctx ;;
  processResponse response modelDecision.

(** [while (attempts < this.retryLimit)], [todo] iterations left;
    [lastError] is [None] while it is [null]. *)
Fixpoint handleLoop (query : jsstring) (ctx : context) (todo attempts : nat)
    (lastError : option jsstring) : M W handled :=
  match todo with
  | O =>
      (* If all retries failed, throw the last error *)
      throw (default [] lastError)
  | S todo' =>
      tryCatch (attemptQuery query ctx)
        (fun e =>
           let attempts := S attempts in
           (if (attempts <? retryLimit)%nat
            then sleep (retryDelay * N.of_nat attempts)
            else ret tt) ;;;
           handleLoop query ctx todo' attempts (Some e))
  end.

(** [handleQuery(query, context = {})] *)
Definition handleQuery (query : jsstring) (ctx : context) : M W handled :=
  handleLoop query ctx retryLimit 0 None.

End Handle.

End QueryHandler.

(* ===================================================================== *)
(** * UsageTracker: the promise-chained usage counter *)
(* ===================================================================== *)

Module UsageTracker.

Definition USAGE_KEY : jsstring := js "ai_sidebar_usage".
Definition MAX_FREE_USES : Z := 25.

(** The entries of [chrome.storage.local] the tracker touches: ['userId']
    and the usage counters by key. *)
Record storage : Type :=
  { userId : option jsstring;
    counters : gmap jsstring Z }.

Record usageInfo : Type :=
  { currentUsage : Z; remaining : Z; exceeded : bool }.

Definition calculateUsageInfo (usage : Z) : usageInfo :=
  {| currentUsage := usage;
     remaining := Z.max 0 (MAX_FREE_USES - usage);
     exceeded := (MAX_FREE_USES <=? usage)%Z |}.

(** [`${this.USAGE_KEY}_${userId}`] *)
Definition usageKey (user : jsstring) : jsstring := USAGE_KEY ++ js "_" ++ user.

(** [getUserId()]: the stored id, or a fresh one made from the clock and
    stored. *)
Definition getUserId (now : N) (st : storage) : jsstring * storage :=
  let newUserId := js "user_" ++ ofNumber now in
  match userId st with
  | Some u =>
      if truthy u then (u, st)
      else (newUserId, {| userId := Some newUserId; counters := counters st |})
  | None => (newUserId, {| userId := Some newUserId; counters := counters st |})
  end.

(** [getUsageCount()]: [result[key] || 0] under the user's key. *)
Definition getUsageCount (now : N) (st : storage) : Z * storage :=
  let (user, st') := getUserId now st in
  (default 0%Z (counters st' !! usageKey user), st').

(** [resetUsage()] *)
Definition resetUsage (now : N) (st : storage) : usageInfo * storage :=
  let (user, st') := getUserId now st in
  ({| currentUsage := 0; remaining := MAX_FREE_USES; exceeded := false |},
   {| userId := userId st'; counters := <[usageKey user := 0%Z]> (counters st') |}).

(** How an awaited promise settles. *)
Inductive awaited : Type :=
| Completes
| Fails (message : jsstring).

(** [chrome.runtime.sendMessage] inside [broadcastToAllTargets]: both sends
    sit in [try]/[catch] (the second also behind [.catch]), so whatever the
    two sends do, the method completes. *)
Definition swallow (a : awaited) : awaited :=
  (* try { await a } catch (error) { console.debug(...) } *)
  match a with Completes => Completes | Fails _ => Completes end.

Definition andThen (a b : awaited) : awaited :=
  match a with Completes => b | Fails e => Fails e end.

Definition broadcastToAllTargets (popup tabs : awaited) : awaited :=
  andThen (swallow popup) (swallow tabs).

(** How the promise [incrementUsage()] hands to its caller settles. *)
Inductive settlement : Type :=
| Resolved (info : usageInfo)
| RejectedWith (message : jsstring).

(** Where the callback chained on [updateLock] is suspended: the four
    [await]s of its [try] block, with the locals alive at each. *)
Inductive frame : Type :=
| AtGetUserId                                  (* await this.getUserId() *)
| AtGetUsageCount (user : jsstring)            (* await this.getUsageCount() *)
| AtSet (user : jsstring) (currentUsage : Z)   (* await chrome.storage.local.set(...) *)
| AtBroadcast (info : usageInfo).              (* await this.broadcastToAllTargets(usageInfo) *)

(** The record the [catch] block resolves with. *)
Definition failureRecord : usageInfo :=
  {| currentUsage := 0; remaining := MAX_FREE_USES; exceeded := false |}.

(** One storage access of a callback, for the trace. *)
Inductive op : Type :=
| Read (call : nat) (value : Z)
| Write (call : nat) (value : Z).

(** The callback of call [i] resumes from [f] when the promise it awaits
    settles as [a]: the new storage, the accesses made, and the next frame or
    the settlement of the caller's promise.  A rejection anywhere in the
    [try] block lands in the [catch] block. *)
Definition resume (i : nat) (f : frame) (a : awaited) (now : N) (st : storage)
    : storage * list op * (frame + settlement) :=
  match a with
  | Fails _ => (st, [], inr (Resolved failureRecord))
  | Completes =>
      match f with
      | AtGetUserId =>
          let (user, st') := getUserId now st in
          (st', [], inl (AtGetUsageCount user))
      | AtGetUsageCount user =>
          let (currentUsage, st') := getUsageCount now st in
          (st', [Read i currentUsage], inl (AtSet user currentUsage))
      | AtSet user currentUsage =>
          let newUsage := (currentUsage + 1)%Z in
          (* Update storage first *)
          ({| userId := userId st; counters := <[usageKey user := newUsage]> (counters st) |},
           [Write i newUsage],
           (* Then calculate and broadcast *)
           inl (AtBroadcast {| currentUsage := newUsage;
                               remaining := Z.max 0 (MAX_FREE_USES - newUsage);
                               exceeded := (MAX_FREE_USES <=? newUsage)%Z |}))
      | AtBroadcast info => (st, [], inr (Resolved info))
      end
  end.

(** One tracker and the storage behind it. *)
Record tracker : Type :=
  { store : storage;
    calls : nat;                          (* incrementUsage() calls so far *)
    updateLock : list nat;                (* callbacks chained on the lock, not yet started *)
    running : option (nat * frame);       (* the callback in progress, at its await *)
    settled : list (nat * settlement);    (* the callers' promises, as they settle *)
    ops : list op }.                      (* the storage accesses, in order *)

Definition init (st : storage) : tracker :=
  {| store := st; calls := 0; updateLock := []; running := None; settled := []; ops := [] |}.

(** What can happen next, in any order the event loop allows. *)
Inductive event : Type :=
| Call                               (* a caller invokes incrementUsage() *)
| Start                              (* the lock is free: its next callback runs to its first await *)
| Resume (a : awaited) (now : N).    (* the promise the running callback awaits settles *)

Definition step (t : tracker) (e : event) : option tracker :=
  match e with
  | Call =>
      (* this.updateLock = this.updateLock.then(async () => { ... }) *)
      Some {| store := store t; calls := S (calls t);
              updateLock := updateLock t ++ [calls t];
              running := running t; settled := settled t; ops := ops t |}
  | Start =>
      match running t, updateLock t with
      | None, i :: waiting =>
          Some {| store := store t; calls := calls t; updateLock := waiting;
                  running := Some (i, AtGetUserId); settled := settled t; ops := ops t |}
      | _, _ => None
      end
  | Resume a now =>
      match running t with
      | Some (i, f) =>
          match resume i f a now (store t) with
          | (st', accesses, inl f') =>
              Some {| store := st'; calls := calls t; updateLock := updateLock t;
                      running := Some (i, f'); settled := settled t;
                      ops := ops t ++ accesses |}
          | (st', accesses, inr s) =>
              Some {| store := st'; calls := calls t; updateLock := updateLock t;
                      running := None; settled := settled t ++ [(i, s)];
                      ops := ops t ++ accesses |}
          end
      | None => None
      end
  end.

(** A schedule is run from left to right; an event that cannot happen in
    the state it meets makes the schedule impossible. *)
Fixpoint run (t : tracker) (schedule : list event) : option tracker :=
  match schedule with
  | [] => Some t
  | e :: schedule' =>
      match step t e with
      | Some t' => run t' schedule'
      | None => None
      end
  end.

(** Nothing in progress and nothing waiting. *)
Definition idle (t : tracker) : Prop := running t = None /\ updateLock t = [].

(** No awaited promise of the schedule rejects. *)
Definition unfailing (schedule : list event) : Prop :=
  forall a now, In (Resume a now) schedule -> a = Completes.

Definition countCalls (schedule : list event) : nat :=
  length (List.filter (fun e => match e with Call => true | _ => false end) schedule).

(** What [checkUsageLimit()] resolves with. *)
Record usageLimit : Type :=
  { hasRemainingUses : bool; limitRemaining : Z; limitUsage : Z; limitExceeded : bool }.

(** [checkUsageLimit()] *)
Definition checkUsageLimit (now : N) (st : storage) : usageLimit * storage :=
  let (currentUsage, st') := getUsageCount now st in
  ({| hasRemainingUses := (currentUsage <? MAX_FREE_USES)%Z;
      limitRemaining := Z.max 0 (MAX_FREE_USES - currentUsage);
      limitUsage := currentUsage;
      limitExceeded := (MAX_FREE_USES <=? currentUsage)%Z |}, st').

End UsageTracker.

(* ===================================================================== *)
(** * MemoryService: the bounded conversation memory *)
(* ===================================================================== *)

Module MemoryService.

Definition MEMORY_KEY : jsstring := js "ai_sidebar_memory".
Definition MAX_MESSAGES : nat := 50.

(** [{ timestamp, sessionId, message, response, model }] *)
Record conversation : Type :=
  { timestamp : N;
    sessionId : jsstring;
    message : jsstring;
    response : jsstring;
    cmodel : model }.

(** The entries of [chrome.storage.local] the service touches: ['userId']
    and the conversation lists by key. *)
Record storage : Type :=
  { userId : option jsstring;
    conversations : gmap jsstring (list conversation) }.

Definition getUserId (now : N) (st : storage) : jsstring * storage :=
  let newUserId := js "user_" ++ ofNumber now in
  match userId st with
  | Some u =>
      if truthy u then (u, st)
      else (newUserId, {| userId := Some newUserId; conversations := conversations st |})
  | None => (newUserId, {| userId := Some newUserId; conversations := conversations st |})
  end.

Definition conversationKey (user : jsstring) : jsstring := MEMORY_KEY ++ js "_" ++ user.

(** One call of [storeConversation]: its arguments, the clock, and whether
    the write ends with [chrome.runtime.lastError] set. *)
Record request : Type :=
  { now : N;
    rmessage : jsstring;
    rresponse : jsstring;
    rmodel : model;
    lastError : bool }.

(** [storeConversation(message, response, model)] of a service whose
    [SESSION_ID] is [session]: what it resolves with ([None] for [null]) and
    the storage after it. *)
Definition storeConversation (session : jsstring) (r : request) (st : storage)
    : option (list conversation) * storage :=
  if negb (truthy (rmessage r)) || negb (truthy (rresponse r)) then (None, st)
  else
    let (user, st) := getUserId (now r) st in
    let key := conversationKey user in
    let conversations0 := default [] (conversations st !! key) in
    let newConversation :=
      {| timestamp := now r; sessionId := session; message := rmessage r;
         response := rresponse r; cmodel := rmodel r |} in
    let conversations1 := conversations0 ++ [newConversation] in
    let conversations2 :=
      if (MAX_MESSAGES <? length conversations1)%nat then tail conversations1
      else conversations1 in
    if lastError r then (None, st)
    else (Some conversations2,
          {| userId := userId st; conversations := <[key := conversations2]> (conversations st) |}).

(** A sequence of store operations, one after the other. *)
Definition storeAll (session : jsstring) (rs : list request) (st : storage) : storage :=
  fold_left (fun st r => snd (storeConversation session r st)) rs st.

(** [getAllConversations()], read without creating a user id. *)
Definition stored (st : storage) : list conversation :=
  match userId st with
  | Some u => default [] (conversations st !! conversationKey u)
  | None => []
  end.

(** The entry a request appends, when it is accepted and written. *)
Definition accepted (session : jsstring) (r : request) : option conversation :=
  if truthy (rmessage r) && truthy (rresponse r) && negb (lastError r)
  then Some {| timestamp := now r; sessionId := session; message := rmessage r;
               response := rresponse r; cmodel := rmodel r |}
  else None.

Definition fresh : storage := {| userId := None; conversations := ∅ |}.

(** [getAllConversations()] *)
Definition getAllConversations (now : N) (st : storage) : list conversation * storage :=
  let (user, st) := getUserId now st in
  (default [] (conversations st !! conversationKey user), st).

(** [getConversationsBySession()] of a service whose [SESSION_ID] is
    [session]. *)
Definition getConversationsBySession (session : jsstring) (now : N) (st : storage)
    : list conversation * storage :=
  let (user, st) := getUserId now st in
  let conversations := default [] (conversations st !! conversationKey user) in
  (List.filter (fun conv => eqb (sessionId conv) session) conversations, st).

(** [clearConversations()]: [true] when the write went through, [false]
    when it ended with [chrome.runtime.lastError] set. *)
Definition clearConversations (now : N) (lastError : bool) (st : storage) : bool * storage :=
  let (user, st) := getUserId now st in
  if lastError then (false, st)
  else (true, {| userId := userId st;
                 conversations := <[conversationKey user := []]> (conversations st) |}).

End MemoryService.

(* ===================================================================== *)
(** * Properties of the routing decisions *)
(* ===================================================================== *)

Section Combiner.

Import ModelDelegationService.

(** The example query of the hybrid threshold. *)
Definition hybridExample : jsstring :=
  js "Analyze the current weather trends and explain the underlying atmospheric theory near Boston".

Lemma gtNum_false_inv (x : option Q) (y : Q) :
  gtNum x y = false -> match x with Some q => (q <= y)%Q | None => True end.
Proof.
  destruct x as [q|]; simpl; [|done].
  intros H. apply negb_false_iff in H. by apply Qle_bool_iff.
Qed.

(** The three score tests of the combiner all fail exactly when the decision
    is left to the contextual checks. *)
Lemma determineModelForQuery_ambiguous (query : jsstring) :
  let realTimeScore := calculateKeywordScore (toLowerCase query) realTimeKeywords in
  let analyticalScore := calculateKeywordScore (toLowerCase query) analyticalKeywords in
  gtNum realTimeScore HYBRID_THRESHOLD && gtNum analyticalScore HYBRID_THRESHOLD = false ->
  gtNum realTimeScore SINGLE_MODEL_THRESHOLD = false ->
  gtNum analyticalScore SINGLE_MODEL_THRESHOLD = false ->
  determineModelForQuery query =
    match analyzeQueryContext query with
    | Some contextualDecision => contextualDecision
    | None =>
        {| dmodel := Hybrid;
           reasoning := js "Complex query requiring comprehensive response";
           scores := Some (realTimeScore, analyticalScore) |}
    end.
Proof.
  intros rt an Hh Hr Ha. unfold determineModelForQuery.
  fold rt an. by rewrite Hh, Hr, Ha.
Qed.

(** C5, counterexample: for ["hello"] both scores are 0 (at or below 0.5, not
    both above 0.3) and neither contextual pattern matches, and the decision
    is hybrid, not the analytical model. *)
Lemma combiner_default_not_analytical :
  let query := js "hello" in
  let realTimeScore := calculateKeywordScore (toLowerCase query) realTimeKeywords in
  let analyticalScore := calculateKeywordScore (toLowerCase query) analyticalKeywords in
  gtNum realTimeScore SINGLE_MODEL_THRESHOLD = false /\
  gtNum analyticalScore SINGLE_MODEL_THRESHOLD = false /\
  gtNum realTimeScore HYBRID_THRESHOLD && gtNum analyticalScore HYBRID_THRESHOLD = false /\
  analyzeQueryContext query = None /\
  dmodel (determineModelForQuery query) = Hybrid /\
  dmodel (determineModelForQuery query) <> Claude.
Proof. vm_compute. repeat split; congruence. Qed.

(** C5, amended: when neither score exceeds the single-model threshold, the
    two are not both above the hybrid threshold, and the contextual patterns
    do not match, the combiner returns its default, which is hybrid. *)
Theorem combiner_default_is_hybrid (query : jsstring) :
  let realTimeScore := calculateKeywordScore (toLowerCase query) realTimeKeywords in
  let analyticalScore := calculateKeywordScore (toLowerCase query) analyticalKeywords in
  gtNum realTimeScore SINGLE_MODEL_THRESHOLD = false ->
  gtNum analyticalScore SINGLE_MODEL_THRESHOLD = false ->
  gtNum realTimeScore HYBRID_THRESHOLD && gtNum analyticalScore HYBRID_THRESHOLD = false ->
  analyzeQueryContext query = None ->
  determineModelForQuery query =
    {| dmodel := Hybrid;
       reasoning := js "Complex query requiring comprehensive response";
       scores := Some (realTimeScore, analyticalScore) |}.
Proof.
  intros rt an Hr Ha Hh Hc.
  rewrite determineModelForQuery_ambiguous by assumption.
  by rewrite Hc.
Qed.

Lemma combiner_default_is_hybrid_witness :
  dmodel (determineModelForQuery (js "hello")) = Hybrid.
Proof.
  rewrite (combiner_default_is_hybrid (js "hello")); reflexivity.
Defined.

(** C6, counterexample: the decision for the example query is not hybrid. *)
Lemma hybridExample_not_hybrid :
  dmodel (determineModelForQuery hybridExample) <> Hybrid.
Proof. vm_compute. congruence. Qed.

(** C6, amended: the example query has 13 words and matches three keywords of
    each set (current, near, weather; explain, analyze, theory), so both
    scores are 3/13, neither above 0.3; the location pattern matches ("near
    Boston") and the combiner decides for the real-time model. *)
Theorem hybridExample_decision :
  calculateKeywordScore (toLowerCase hybridExample) realTimeKeywords = ratio 3 13 /\
  calculateKeywordScore (toLowerCase hybridExample) analyticalKeywords = ratio 3 13 /\
  gtNum (ratio 3 13) HYBRID_THRESHOLD = false /\
  determineModelForQuery hybridExample =
    {| dmodel := Perplexity;
       reasoning := js "Location-based query requiring current data";
       scores := None |}.
Proof. vm_compute. repeat split. Qed.

End Combiner.

Section Cascade.

Import AIService.

Lemma existsb_includes_intro (term : jsstring) (terms : list jsstring) (s : jsstring) :
  In term terms -> includes term s = true ->
  existsb (fun t => includes t s) terms = true.
Proof. intros Hin Hinc. apply existsb_exists. eauto. Qed.

(** The two forms of reference the routing rule is described by are among
    those [isWebpageQuery] accepts. *)
Lemma isWebpageQuery_explicit (prompt what : jsstring) :
  In what (map js ["this page"; "this site"; "this company"; "this website"]%string) ->
  includes what (toLowerCase prompt) = true ->
  isWebpageQuery prompt = true.
Proof.
  intros Hin Hinc. unfold isWebpageQuery.
  apply orb_true_iff. left.
  apply existsb_includes_intro with (term := what); [|done].
  simpl in *. tauto.
Qed.

Lemma isWebpageQuery_explanation (prompt verb : jsstring) :
  In verb (map js ["explain"; "describe"; "tell me about"]%string) ->
  includes verb (toLowerCase prompt) = true ->
  includes (js "this") (toLowerCase prompt) = true ->
  isWebpageQuery prompt = true.
Proof.
  intros Hin Hinc Hthis. unfold isWebpageQuery.
  apply orb_true_iff. right. rewrite Hthis, andb_true_r.
  apply existsb_includes_intro with (term := verb); [|done].
  simpl in *. tauto.
Qed.

(** The webpage rule of the cascade: a query that [isWebpageQuery] accepts
    and that no earlier rule catches is routed to the real-time model with
    [useWebpageContext = true]. *)
Lemma webpage_query_decision (prompt : jsstring) (ctx : context) :
  isWebpageQuery prompt = true ->
  earlierRuleFires prompt ctx = false ->
  determineModelForQuery prompt ctx =
    {| dmodel := Perplexity; useWebpageContext := true;
       reasoning := js "Query is about current webpage" |}.
Proof.
  intros Hweb Hearlier. unfold earlierRuleFires in Hearlier.
  apply orb_false_iff in Hearlier as [Hearlier Hcompany].
  apply orb_false_iff in Hearlier as [Hearlier Hrealtime].
  apply orb_false_iff in Hearlier as [Hearlier Hlocal].
  apply orb_false_iff in Hearlier as [Hevent Hlocalevent].
  unfold determineModelForQuery.
  by rewrite Hevent, Hlocalevent, Hlocal, Hrealtime, Hcompany, Hweb.
Qed.

Lemma webpage_query_decision_witness :
  dmodel (determineModelForQuery (js "Explain this page") ∅) = Perplexity /\
  useWebpageContext (determineModelForQuery (js "Explain this page") ∅) = true.
Proof.
  rewrite (webpage_query_decision (js "Explain this page") ∅);
    [split; reflexivity | vm_compute; reflexivity | vm_compute; reflexivity].
Defined.

(** A page with some text on it. *)
Definition somePage : context :=
  {[ "visibleText"%string := js "Acme builds rockets in Boston." ]}.

(** C4, the code at the failing input: ["Explain this page"], asked on a
    page with text.  The query names the page and uses an explanation verb
    with "this"; no earlier rule of the cascade fires; the cascade sets
    [useWebpageContext] but names the real-time model, not Claude.  The
    routing inside [queryByModel] sends the same query, with the page
    content, to Claude. *)
Theorem webpage_query_not_analytical :
  let prompt := js "Explain this page" in
  includes (js "this page") (toLowerCase prompt) = true /\
  includes (js "explain") (toLowerCase prompt) = true /\
  earlierRuleFires prompt somePage = false /\
  determineModelForQuery prompt somePage =
    {| dmodel := Perplexity; useWebpageContext := true;
       reasoning := js "Query is about current webpage" |} /\
  dmodel (determineModelForQuery prompt somePage) <> Claude /\
  modelToUse prompt somePage = Some Claude.
Proof. vm_compute. repeat split; congruence. Qed.

End Cascade.

(* ===================================================================== *)
(** * Properties of the retry loops *)
(* ===================================================================== *)

Section Retry.

Import AIService.

(** [backoff] is 1000, 2000, 4000, and 8000 from then on. *)
Lemma backoff_values :
  backoff 0 = 1000 /\ backoff 1 = 2000 /\ backoff 2 = 4000 /\ backoff 3 = 8000 /\
  backoff 4 = 8000.
Proof. repeat split. Qed.

Lemma backoff_capped (i : nat) : backoff i <= 8000.
Proof. unfold backoff. lia. Qed.

Lemma posted_app (w1 w2 : list event) : posted (w1 ++ w2) = posted w1 ++ posted w2.
Proof. unfold posted. apply omap_app. Qed.

Lemma slept_app (w1 w2 : list event) : slept (w1 ++ w2) = slept w1 ++ slept w2.
Proof. unfold slept. apply omap_app. Qed.

(** A port behind which every request fails: no answer before the timeout, or
    an answer with [success: false]. *)
Definition failingPort (port : nat -> formattedMessage -> option response) : Prop :=
  forall n m, match port n m with Some r => success r = false | None => True end.

Lemma executeRequest_fails port m w :
  failingPort port ->
  exists e, executeRequest port m w = (Throw e, w ++ [Posted m]).
Proof.
  intros Hport. unfold executeRequest. specialize (Hport (length (posted w)) m).
  destruct (port _ m) as [r|]; [rewrite Hport|]; eauto.
Qed.

(** The loop of [sendMessageWithRetry] against a failing port, entered with
    [currentAttempt] failures behind it: it posts once per remaining attempt,
    sleeps [backoff] of the incremented counter between attempts, and returns
    a [success: true] response whose text is the apology. *)
Lemma retryLoop_exhausted port m maxRetries todo currentAttempt w :
  failingPort port ->
  truthy (prompt m) = true ->
  (currentAttempt + S todo = maxRetries)%nat ->
  exists e w',
    retryLoop port m maxRetries (S todo) currentAttempt w =
      (Return (Some {| success := true; error := None;
                       text := Some (exhaustedApology e) |}), w') /\
    length (posted w') = (length (posted w) + S todo)%nat /\
    slept w' = slept w ++ map backoff (seq (S currentAttempt) todo).
Proof.
  intros Hport Hprompt. revert currentAttempt w.
  induction todo as [|todo IH]; intros currentAttempt w Hsum.
  - destruct (executeRequest_fails port (formatMessage m currentAttempt) w Hport) as [e He].
    exists e, (w ++ [Posted (formatMessage m currentAttempt)]).
    cbn [retryLoop]. unfold tryCatch, bind. rewrite Hprompt. cbn [negb].
    rewrite He. replace (S currentAttempt =? maxRetries)%nat with true
      by (symmetry; apply Nat.eqb_eq; lia).
    unfold ret. rewrite posted_app, slept_app, length_app. simpl.
    done.
  - destruct (executeRequest_fails port (formatMessage m currentAttempt) w Hport) as [e He].
    destruct (IH (S currentAttempt)
                (w ++ [Posted (formatMessage m currentAttempt)] ++ [Slept (backoff (S currentAttempt))]))
      as (e' & w' & Hrun & Hposted & Hslept); [lia|].
    exists e', w'.
    remember (S todo) as todo1.
    cbn [retryLoop]. unfold tryCatch, bind at 1. rewrite Hprompt. cbn [negb].
    unfold bind at 1. rewrite He.
    replace (S currentAttempt =? maxRetries)%nat with false
      by (symmetry; apply Nat.eqb_neq; lia).
    unfold bind, sleep, emit. rewrite <- app_assoc. rewrite Hrun.
    split; [done|]. split.
    + rewrite Hposted, !posted_app, !length_app. simpl. lia.
    + rewrite Hslept, !slept_app. simpl.
      subst todo1. by rewrite <- app_assoc.
Qed.



(** With no attempts allowed the loop is never entered and the wrapper
    returns [undefined]. *)
Lemma sendMessageWithRetry_zero port m :
  sendMessageWithRetry port m 0 [] = (Return None, []).
Proof. reflexivity. Qed.

(** A port that never answers. *)
Definition silentPort : nat -> formattedMessage -> option response := fun _ _ => None.

Definition plainMessage (prompt : jsstring) (m : model) : message :=
  {| prompt := prompt; mmodel := Some m; misHybrid := false; mdecision := None;
     mcontext := None |}.

(** C2, the code at the failing input: three attempts against a port that
    never answers.  The wrapper makes exactly three attempts and returns the
    apology as a [success: true] response, but the waits between the attempts
    are 2000 and 4000 milliseconds (the counter is incremented before the
    delay is computed from it), not 1000 and 2000. *)
Theorem sendMessageWithRetry_delays_at_three :
  exists w,
    sendMessageWithRetry silentPort (plainMessage (js "hi") Perplexity) 3 [] =
      (Return (Some {| success := true; error := None;
                       text := Some (exhaustedApology (js "Request timeout")) |}), w) /\
    length (posted w) = 3%nat /\
    map attempt (posted w) = [1; 2; 3]%nat /\
    slept w = [2000; 4000] /\
    slept w <> [backoff 0; backoff 1].
Proof. eexists. vm_compute. repeat split. congruence. Qed.

End Retry.

Section BackgroundRetry.

Import Background.

Definition fetches (w : list event) : nat :=
  length (List.filter (fun e => match e with Fetched _ _ => true | _ => false end) w).

Definition sleeps (w : list event) : list N :=
  omap (fun e => match e with Slept ms => Some ms | _ => None end) w.

Lemma fetches_app (w1 w2 : list event) : fetches (w1 ++ w2) = (fetches w1 + fetches w2)%nat.
Proof. unfold fetches. by rewrite List.filter_app, length_app. Qed.

Lemma sleeps_app (w1 w2 : list event) : sleeps (w1 ++ w2) = sleeps w1 ++ sleeps w2.
Proof. unfold sleeps. apply omap_app. Qed.

(** A fetch result from which [handlePerplexityRequest] gets no answer. *)
Definition noAnswer (r : fetchResult) : bool :=
  match r with
  | Rejected _ => true
  | Response status _ body =>
      negb (ok status)
      || match body with Unparsable _ => true | Answer t => negb (truthyOpt t) end
  end.

Lemma perplexityAttempt_fails fetch message i w :
  noAnswer (fetch i) = true ->
  exists e w',
    perplexityAttempt fetch message i w = (Throw e, w') /\
    (fetches w' <= fetches w + 1)%nat /\ (fetches w <= fetches w')%nat /\
    (truthy (prompt message) = true -> fetches w' = (fetches w + 1)%nat) /\
    sleeps w' = sleeps w.
Proof.
  intros Hno. unfold perplexityAttempt.
  destruct (truthy (prompt message)); cbn [negb].
  2:{ exists (js "Invalid request: Missing prompt"), w. unfold throw.
      repeat split; [lia | lia | done]. }
  unfold bind, doFetch, emit, ret.
  assert (Hw : forall e, exists e0 w',
    (Throw (A:=response) e, w ++ [Fetched (js "https://api.perplexity.ai/chat/completions")
                       (perplexityPrompt message)]) = (Throw e0, w') /\
    (fetches w' <= fetches w + 1)%nat /\ (fetches w <= fetches w')%nat /\
    (true = true -> fetches w' = (fetches w + 1)%nat) /\ sleeps w' = sleeps w).
  { intros e. eexists _, _. split; [reflexivity|].
    rewrite fetches_app, sleeps_app. simpl. rewrite app_nil_r.
    repeat split; unfold fetches; simpl; lia. }
  destruct (fetch i) as [e|status raw body]; simpl in *; [apply Hw|].
  destruct (ok status); simpl in *; [|apply Hw].
  destruct body as [e|t]; [apply Hw|].
  rewrite Hno. apply Hw.
Qed.

(** [handlePerplexityRequest] when no fetch brings an answer: one fetch per
    attempt, a wait of [backoff i] after the failure of attempt [i] (1000,
    2000, 4000, ..., capped), and the graceful fallback as a [success: true]
    response. *)
Lemma perplexityLoop_exhausted fetch message retryCount todo i w :
  (forall n, noAnswer (fetch n) = true) ->
  truthy (prompt message) = true ->
  (i + S todo = retryCount)%nat ->
  exists w',
    perplexityLoop fetch message retryCount (S todo) i w =
      (Return (Some {| success := true; error := None; text := Some perplexityApology |}), w') /\
    fetches w' = (fetches w + S todo)%nat /\
    sleeps w' = sleeps w ++ map backoff (seq i todo).
Proof.
  intros Hfetch Hprompt. revert i w.
  induction todo as [|todo IH]; intros i w Hsum.
  - destruct (perplexityAttempt_fails fetch message i w (Hfetch i))
      as (e & w' & Hrun & _ & _ & Hcount & Hsleeps).
    exists w'. cbn [perplexityLoop]. unfold tryCatch, bind. rewrite Hrun.
    replace (i =? retryCount - 1)%nat with true by (symmetry; apply Nat.eqb_eq; lia).
    unfold ret. rewrite Hcount, Hsleeps by done. simpl. by rewrite app_nil_r.
  - destruct (perplexityAttempt_fails fetch message i w (Hfetch i))
      as (e & w1 & Hrun & _ & _ & Hcount & Hsleeps).
    destruct (IH (S i) (w1 ++ [Slept (backoff i)])) as (w' & Hloop & Hfetches & Hslept); [lia|].
    exists w'. remember (S todo) as todo1.
    cbn [perplexityLoop]. unfold tryCatch, bind at 1. unfold bind at 1. rewrite Hrun.
    replace (i =? retryCount - 1)%nat with false by (symmetry; apply Nat.eqb_neq; lia).
    unfold bind, sleep, emit. rewrite Hloop. split; [done|]. split.
    + rewrite Hfetches, fetches_app, Hcount by done. unfold fetches at 2. simpl. lia.
    + rewrite Hslept, sleeps_app, Hsleeps. subst todo1. simpl. by rewrite <- app_assoc.
Qed.

(** [handlePerplexityRequest] when no fetch brings an answer: with a
    prompt and at least one attempt allowed it fetches [retryCount] times,
    waits [backoff 0], ..., [backoff (retryCount - 2)] between the attempts,
    and resolves with the graceful fallback as a [success: true] response. *)
Lemma handlePerplexityRequest_exhausted fetch message retryCount :
  (forall n, noAnswer (fetch n) = true) ->
  truthy (prompt message) = true ->
  (0 < retryCount)%nat ->
  exists w,
    handlePerplexityRequest fetch message retryCount [] =
      (Return (Some {| success := true; error := None; text := Some perplexityApology |}), w) /\
    fetches w = retryCount /\
    sleeps w = map backoff (seq 0 (retryCount - 1)).
Proof.
  intros Hfetch Hprompt Hpos. unfold handlePerplexityRequest.
  destruct retryCount as [|todo]; [lia|].
  destruct (perplexityLoop_exhausted fetch message (S todo) todo 0 [] Hfetch Hprompt eq_refl)
    as (w & Hrun & Hfetches & Hsleeps).
  exists w. rewrite Hrun, Hfetches, Hsleeps. simpl. by rewrite Nat.sub_0_r.
Qed.

Lemma handlePerplexityRequest_exhausted_witness :
  exists w,
    handlePerplexityRequest (fun _ => Rejected (js "Failed to fetch"))
      {| prompt := js "hi"; contextString := None; url := None; title := None |} 3 [] =
      (Return (Some {| success := true; error := None; text := Some perplexityApology |}), w) /\
    fetches w = 3%nat /\
    sleeps w = map backoff (seq 0 (3 - 1)).
Proof.
  apply (handlePerplexityRequest_exhausted (fun _ => Rejected (js "Failed to fetch"))
           {| prompt := js "hi"; contextString := None; url := None; title := None |} 3);
    [intros n; reflexivity | reflexivity | lia].
Defined.

End BackgroundRetry.

(* ===================================================================== *)
(** * Properties of the error handling of the Claude handlers *)
(* ===================================================================== *)

Section ClaudeErrors.

Import Background.

(** The message of the error thrown for a response that is not [ok]. *)
Definition statusError (status : N) (raw : jsstring) : jsstring :=
  js "Claude API Error (" ++ ofNumber status ++ js "): " ++ raw.

Lemma claudeAttempt_status fetch message i w status raw body :
  fetch i = Response status raw body ->
  ok status = false ->
  claudeAttempt fetch message i w =
    (Throw (statusError status raw),
     w ++ [Fetched (js "https://api.anthropic.com/v1/messages") (claudeContent message)]).
Proof.
  intros Hfetch Hok. cbv [claudeAttempt bind doFetch emit ret throw].
  rewrite Hfetch. by rewrite Hok.
Qed.

(** The retrying handler against a server that answers every request with
    the same error status: it goes through all its attempts, waiting
    [backoff i] after attempt [i], whatever the status is. *)
Lemma claudeLoop_status status raw body message retryCount todo i w :
  ok status = false ->
  (i + S todo = retryCount)%nat ->
  exists w',
    claudeLoop (fun _ => Response status raw body) message retryCount (S todo) i w =
      (Throw (js "Claude API Error: " ++ statusError status raw), w') /\
    fetches w' = (fetches w + S todo)%nat /\
    sleeps w' = sleeps w ++ map backoff (seq i todo).
Proof.
  intros Hok. revert i w.
  induction todo as [|todo IH]; intros i w Hsum.
  - eexists. cbn [claudeLoop]. unfold tryCatch.
    rewrite (claudeAttempt_status _ message i w status raw body eq_refl Hok).
    replace (i =? retryCount - 1)%nat with true by (symmetry; apply Nat.eqb_eq; lia).
    unfold throw. split; [reflexivity|].
    rewrite fetches_app, sleeps_app. simpl. rewrite app_nil_r. split; [|done].
    unfold fetches at 2. simpl. lia.
  - destruct (IH (S i)
      ((w ++ [Fetched (js "https://api.anthropic.com/v1/messages") (claudeContent message)])
         ++ [Slept (backoff i)])) as (w' & Hloop & Hfetches & Hsleeps); [lia|].
    exists w'. remember (S todo) as todo1.
    cbn [claudeLoop]. unfold tryCatch.
    rewrite (claudeAttempt_status _ message i w status raw body eq_refl Hok).
    replace (i =? retryCount - 1)%nat with false by (symmetry; apply Nat.eqb_neq; lia).
    unfold bind, sleep, emit. rewrite Hloop. split; [done|]. split.
    + rewrite Hfetches, !fetches_app. unfold fetches at 2 3. simpl. lia.
    + rewrite Hsleeps, !sleeps_app. subst todo1. simpl.
      rewrite app_nil_r. by rewrite <- app_assoc.
Qed.

(** C7, counterexample: a server that answers 401 to every request.  The
    retrying handler does retry (two fetches, a wait of 1000 ms between
    them) and ends by throwing; the single-shot handler's answer comes back
    as [success: false], which the page's retry wrapper treats like every
    other failure: three requests, waits of 2000 and 4000 ms, and the same
    apology template as for any exhausted request. *)
Lemma auth_error_is_retried :
  let fetch := fun _ : nat => Response 401 (js "invalid x-api-key") (Unparsable []) in
  let message := {| prompt := js "hi"; contextString := None; url := None; title := None |} in
  let port := fun (_ : nat) (_ : AIService.formattedMessage) =>
    match handleClaudeRequestOnce fetch (js "sk-ant-key") message [] with
    | (Return r, _) => Some r
    | (Throw _, _) => None
    end in
  (exists w,
     handleClaudeRequest fetch message 2 [] =
       (Throw (js "Claude API Error: Claude API Error (401): invalid x-api-key"), w) /\
     fetches w = 2%nat /\ sleeps w = [1000]) /\
  (exists w,
     AIService.sendMessageWithRetry port (plainMessage (js "hi") Claude) 3 [] =
       (Return (Some {| success := true; error := None;
                        text := Some (AIService.exhaustedApology
                          (js "Claude API Error: Claude API Error (401): invalid x-api-key")) |}), w) /\
     length (AIService.posted w) = 3%nat /\ AIService.slept w = [2000; 4000]).
Proof. split; eexists; vm_compute; repeat split. Qed.

(** C7, amended: an error status, 401 and 403 included, is handled like any
    other failed attempt.  The retrying handler makes all [retryCount]
    attempts with the usual waits and then throws an error that only names
    the status and the body; the single-shot handler makes its one attempt
    and answers [success: false] with the generic apology around the same
    message. *)
Theorem error_status_is_not_special (status : N) (raw : jsstring) (body : parsed)
    (message : request) (retryCount : nat) (apiKey : jsstring) :
  ok status = false ->
  (0 < retryCount)%nat ->
  truthy apiKey = true ->
  let fetch := fun _ : nat => Response status raw body in
  (exists w,
     handleClaudeRequest fetch message retryCount [] =
       (Throw (js "Claude API Error: " ++ statusError status raw), w) /\
     fetches w = retryCount /\
     sleeps w = map backoff (seq 0 (retryCount - 1))) /\
  (exists w,
     handleClaudeRequestOnce fetch apiKey message [] =
       (Return {| success := false;
                  error := Some (js "Claude API Error: " ++ statusError status raw);
                  text := Some (js "I apologize, but I couldn't process your request: "
                                ++ statusError status raw) |}, w) /\
     fetches w = 1%nat /\ sleeps w = []).
Proof.
  intros Hok Hpos Hkey fetch. split.
  - unfold handleClaudeRequest. destruct retryCount as [|todo]; [lia|].
    destruct (claudeLoop_status status raw body message (S todo) todo 0 [] Hok eq_refl)
      as (w & Hrun & Hfetches & Hsleeps).
    exists w. subst fetch. rewrite Hrun, Hfetches, Hsleeps. simpl. by rewrite Nat.sub_0_r.
  - eexists. unfold handleClaudeRequestOnce, tryCatch. rewrite Hkey. cbn [negb].
    subst fetch.
    rewrite (claudeAttempt_status _ message 0 [] status raw body eq_refl Hok).
    unfold ret. split; [reflexivity|]. split; reflexivity.
Qed.

Lemma error_status_is_not_special_witness :
  exists w,
    handleClaudeRequest (fun _ => Response 403 (js "forbidden") (Unparsable []))
      {| prompt := js "hi"; contextString := None; url := None; title := None |} 2 [] =
      (Throw (js "Claude API Error: " ++ statusError 403 (js "forbidden")), w) /\
    fetches w = 2%nat /\
    sleeps w = map backoff (seq 0 (2 - 1)).
Proof.
  apply (error_status_is_not_special 403 (js "forbidden") (Unparsable [])
           {| prompt := js "hi"; contextString := None; url := None; title := None |}
           2 (js "sk-ant-key")); [reflexivity | lia | reflexivity].
Defined.

End ClaudeErrors.

(* ===================================================================== *)
(** * Properties of the hybrid paths *)
(* ===================================================================== *)

Section HybridPaths.

Import AIService.

(** A service worker whose Perplexity leg has failed: it answers a Perplexity
    request with what [handlePerplexityRequest] returns when none of its
    fetches succeeds (the graceful fallback), and a Claude request with
    [claudeText]. *)
Definition fallbackPort (claudeText : jsstring) (n : nat) (m : formattedMessage)
    : option response :=
  match fmodel m with
  | Perplexity =>
      match Background.handlePerplexityRequest
              (fun _ => Background.Rejected (js "Failed to fetch"))
              {| Background.prompt := fprompt m; Background.contextString := None;
                 Background.url := None; Background.title := None |} 2 [] with
      | (Return r, _) => r
      | (Throw _, _) => None
      end
  | _ => Some {| success := true; error := None; text := Some claudeText |}
  end.

(** What [finish] hands back is never empty: an empty text is thrown as an
    invalid response. *)
Lemma finish_text prompt m store r w a w' :
  finish prompt m store r w = (Return a, w') -> truthy (atext a) = true.
Proof.
  unfold finish. destruct r as [r|]; [|discriminate].
  destruct (success r); cbn [negb]; [|discriminate].
  destruct (text r) as [t|] eqn:Ht; cbn [truthyOpt negb]; [|discriminate].
  destruct (truthy t) eqn:Htruthy; cbn [negb]; [|discriminate].
  unfold bind, ret, memoryStore, emit, orElse. rewrite Htruthy.
  destruct store; intros [= <- _]; done.
Qed.

Lemma queryPerplexity_text port prompt ctx w a w' :
  queryPerplexity port prompt ctx w = (Return a, w') -> truthy (atext a) = true.
Proof.
  unfold queryPerplexity, tryCatch.
  match goal with |- context [bind ?c ?f w] => destruct (bind c f w) as [[a0|e] w0] eqn:Hrun end;
    [|discriminate].
  intros [= <- <-]. unfold bind in Hrun.
  match type of Hrun with context [sendMessageWithRetry ?p ?m ?k w] =>
    destruct (sendMessageWithRetry p m k w) as [[r|e] w1]; [|discriminate] end.
  by eapply finish_text.
Qed.

(** The fallback branch of [queryHybrid] is dead: the text of a real-time
    answer that comes back is never empty, so a result that comes back is
    always the merged one. *)
Lemma queryHybrid_always_merges port keyValid prompt ctx w r w' :
  queryHybrid port keyValid prompt ctx w = (Return r, w') ->
  hlabel r = js "hybrid (Perplexity + Claude)".
Proof.
  unfold queryHybrid, bind at 1.
  destruct (queryPerplexity port (perplexityPrompt prompt) ctx w) as [[a|e] w1] eqn:Hp;
    [|discriminate].
  rewrite (queryPerplexity_text _ _ _ _ _ _ Hp). cbn [negb].
  unfold bind, ret.
  destruct (queryClaude _ _ _ _ _ w1) as [[c|e] w2]; [|discriminate].
  by intros [= <- _].
Qed.

Lemma queryHybrid_always_merges_witness :
  hlabel {| htext := js "formatted"; hlabel := js "hybrid (Perplexity + Claude)" |}
    = js "hybrid (Perplexity + Claude)".
Proof.
  eapply (queryHybrid_always_merges (fallbackPort (js "formatted")) (fun _ => true)
            (js "pizza places") ∅ []).
  vm_compute. reflexivity.
Defined.

(** C3, the code at the failing input: the real-time leg comes back with
    the graceful-fallback apology.  [queryHybrid] does not skip the merge: its
    second request is the formatting prompt with the apology as the raw data,
    and the result is labelled as a hybrid answer, not as a fallback.
    [executeQuery] of the delegation service does the same with its merge
    prompt. *)
Theorem hybrid_merges_the_apology :
  let port := fallbackPort (js "formatted") in
  let keyValid := fun _ : model => true in
  (exists w,
     queryHybrid port keyValid (js "pizza places") ∅ [] =
       (Return {| htext := js "formatted"; hlabel := js "hybrid (Perplexity + Claude)" |}, w) /\
     map fprompt (posted w) =
       [ perplexityPrompt (js "pizza places");
         formattingPrompt (js "pizza places") Background.perplexityApology ]) /\
  (exists w,
     ModelDelegationService.dmodel (ModelDelegationService.determineModelForQuery (js "hello"))
       = Hybrid /\
     ModelDelegationService.executeQuery (list event)
       (queryPerplexity port)
       (fun prompt ctx => queryClaude port keyValid prompt ctx false)
       (js "hello") ∅ [] =
       (Return {| ModelDelegationService.qtext := js "formatted";
                  ModelDelegationService.qmodel := Hybrid |}, w) /\
     map fprompt (posted w) =
       [ js "hello"; js "hello";
         ModelDelegationService.enhancementPrompt Background.perplexityApology (js "formatted") ]).
Proof. split; eexists; vm_compute; repeat split. Qed.

End HybridPaths.

(* ===================================================================== *)
(** * Properties of the conversation memory *)
(* ===================================================================== *)

Section ConversationCap.

(** The last [cap] elements of a list. *)
Definition lastN {A} (cap : nat) (l : list A) : list A := drop (length l - cap) l.

(** [l.push(e); if (l.length > cap) l.shift()] *)
Definition pushCapped {A} (cap : nat) (l : list A) (e : A) : list A :=
  let l' := l ++ [e] in
  if (cap <? length l')%nat then tail l' else l'.

Lemma lastN_length {A} (cap : nat) (l : list A) : (length (lastN cap l) <= cap)%nat.
Proof. unfold lastN. rewrite length_drop. lia. Qed.

Lemma lastN_short {A} (cap : nat) (l : list A) : (length l <= cap)%nat -> lastN cap l = l.
Proof. intros H. unfold lastN. replace (length l - cap)%nat with 0%nat by lia. done. Qed.

Lemma pushCapped_lastN {A} (cap : nat) (l : list A) (e : A) :
  (length l <= cap)%nat -> pushCapped cap l e = lastN cap (l ++ [e]).
Proof.
  intros Hlen. unfold pushCapped, lastN. rewrite length_app. simpl.
  destruct (Nat.ltb_spec cap (length l + 1)) as [Hgt|Hle].
  - replace (length l + 1 - cap)%nat with 1%nat by lia.
    destruct l; simpl in *; [|done]. by destruct cap; [|lia].
  - by replace (length l + 1 - cap)%nat with 0%nat by lia.
Qed.

Lemma lastN_app {A} (cap : nat) (a b : list A) :
  lastN cap (lastN cap a ++ b) = lastN cap (a ++ b).
Proof.
  unfold lastN. rewrite !length_app, length_drop.
  rewrite <- (drop_app_le a b (length a - cap)) by lia.
  rewrite drop_drop. f_equal. lia.
Qed.

Lemma fold_pushCapped {A} (cap : nat) (es l : list A) :
  (length l <= cap)%nat ->
  fold_left (pushCapped cap) es l = lastN cap (l ++ es).
Proof.
  revert l. induction es as [|e es IH]; intros l Hlen; simpl.
  - rewrite app_nil_r. by rewrite lastN_short.
  - rewrite pushCapped_lastN by done.
    rewrite IH by apply lastN_length.
    rewrite lastN_app. by rewrite <- app_assoc.
Qed.

Import MemoryService.

(** The states the service itself produces: a stored user id is not empty,
    and before there is one nothing is stored. *)
Definition wellFormed (st : storage) : Prop :=
  match userId st with
  | Some u => truthy u = true
  | None => conversations st = ∅
  end.

Lemma getUserId_spec (now : N) (st : storage) :
  wellFormed st ->
  let (u, st') := getUserId now st in
  userId st' = Some u /\ truthy u = true /\ conversations st' = conversations st /\
  default [] (conversations st' !! conversationKey u) = stored st.
Proof.
  unfold wellFormed, getUserId, stored.
  destruct (userId st) as [u|] eqn:Hu.
  - intros Htruthy. by rewrite Htruthy.
  - intros Hempty. rewrite Hempty. simpl. by rewrite lookup_empty.
Qed.

(** One store operation appends the accepted entry, if any, and drops the
    oldest entry on overflow. *)
Lemma storeConversation_step (session : jsstring) (r : request) (st : storage) :
  wellFormed st ->
  let st' := snd (storeConversation session r st) in
  wellFormed st' /\
  stored st' = match accepted session r with
               | Some e => pushCapped MAX_MESSAGES (stored st) e
               | None => stored st
               end.
Proof.
  intros Hwf. unfold storeConversation, accepted.
  destruct (truthy (rmessage r)); cbn [negb orb andb]; [|done].
  destruct (truthy (rresponse r)); cbn [negb orb andb]; [|done].
  pose proof (getUserId_spec (now r) st Hwf) as Hid.
  destruct (getUserId (now r) st) as [u st1].
  destruct Hid as (Hu & Htruthy & Hconv & Hstored).
  destruct (lastError r); cbn [negb snd].
  - split; [unfold wellFormed; by rewrite Hu|].
    unfold stored. by rewrite Hu.
  - split; [unfold wellFormed; simpl; by rewrite Hu|].
    unfold stored at 1. simpl. rewrite Hu, lookup_insert_eq. simpl.
    by rewrite Hstored.
Qed.

Lemma storeAll_stored (session : jsstring) (rs : list request) (st : storage) :
  wellFormed st ->
  stored (storeAll session rs st) =
    fold_left (pushCapped MAX_MESSAGES) (omap (accepted session) rs) (stored st).
Proof.
  revert st. induction rs as [|r rs IH]; intros st Hwf; [done|].
  unfold storeAll in *. simpl.
  destruct (storeConversation_step session r st Hwf) as [Hwf' Hstep].
  rewrite IH by done. rewrite Hstep.
  by destruct (accepted session r).
Qed.






(** Sixty exchanges, numbered by their timestamps. *)
Definition sixty : list request :=
  map (fun i => {| now := N.of_nat i; rmessage := js "question"; rresponse := js "answer";
                   rmodel := Claude; lastError := false |}) (seq 0 60).


End ConversationCap.

(* ===================================================================== *)
(** * Properties of the usage meter *)
(* ===================================================================== *)

Section UsageMetering.

Import UsageTracker.

(** Whatever the two sends do, [broadcastToAllTargets] completes. *)
Lemma broadcastToAllTargets_completes (popup tabs : awaited) :
  broadcastToAllTargets popup tabs = Completes.
Proof. by destruct popup, tabs. Qed.

(** The record of the [catch] block is the record of usage zero. *)
Lemma failureRecord_is_zero_usage : failureRecord = calculateUsageInfo 0.
Proof. reflexivity. Qed.

Lemma resume_resolves i f a now st :
  exists st' accesses,
    (exists f', resume i f a now st = (st', accesses, inl f')) \/
    (exists info, resume i f a now st = (st', accesses, inr (Resolved info))).
Proof.
  destruct a as [|message]; [|simpl; eauto 6].
  destruct f as [|user|user current|info]; simpl.
  - destruct (getUserId now st); eauto 6.
  - destruct (getUsageCount now st); eauto 6.
  - eauto 6.
  - eauto 6.
Qed.

Definition allResolved (l : list (nat * settlement)) : Prop :=
  forall i s, In (i, s) l -> exists info, s = Resolved info.

Lemma step_allResolved t e t' :
  step t e = Some t' -> allResolved (settled t) -> allResolved (settled t').
Proof.
  destruct e as [| |a now]; simpl.
  - by intros [= <-].
  - destruct (running t); [done|]. destruct (updateLock t); [done|]. by intros [= <-].
  - destruct (running t) as [[i f]|]; [|done].
    destruct (resume_resolves i f a now (store t)) as (st' & accesses & [[f' H]|[info H]]);
      rewrite H; intros [= <-]; simpl; [done|].
    intros Hall j s Hin. apply in_app_or in Hin as [Hin|[[= <- <-]|[]]]; eauto.
Qed.

Lemma run_allResolved schedule t t' :
  run t schedule = Some t' -> allResolved (settled t) -> allResolved (settled t').
Proof.
  revert t. induction schedule as [|e schedule IH]; intros t; simpl.
  - by intros [= <-].
  - destruct (step t e) as [t1|] eqn:Hstep; [|done].
    intros Hrun Hall. eapply IH; [done|]. by eapply step_allResolved.
Qed.

(** C10: [incrementUsage()] never rejects.  In every run of a tracker every
    promise handed to a caller that settles is resolved; when the promise a
    callback awaits (the user-id lookup, the read, the write, the broadcast)
    rejects, the callback resolves its caller's promise at once with the
    fixed record [{currentUsage: 0, remaining: 25, exceeded: false}], leaving
    the storage as it is, whatever counter it holds; and that record is the
    one for usage zero, which [resetUsage()] returns too. *)
Theorem incrementUsage_never_rejects :
  (forall st schedule t,
     run (init st) schedule = Some t -> allResolved (settled t)) /\
  (forall i f message now st,
     resume i f (Fails message) now st = (st, [], inr (Resolved failureRecord))) /\
  (forall t i f message now,
     running t = Some (i, f) ->
     exists t',
       step t (Resume (Fails message) now) = Some t' /\
       settled t' = settled t ++ [(i, Resolved failureRecord)] /\
       store t' = store t /\ running t' = None) /\
  failureRecord = {| currentUsage := 0; remaining := 25; exceeded := false |} /\
  failureRecord = calculateUsageInfo 0 /\
  (forall now st, fst (resetUsage now st) = failureRecord).
Proof.
  split; [|split; [|split; [|split; [|split]]]].
  - intros st schedule t Hrun. eapply run_allResolved; [done|]. by intros i s [].
  - done.
  - intros t i f message now Hrunning. simpl. rewrite Hrunning. simpl.
    eexists. split; [reflexivity|]. simpl. done.
  - done.
  - done.
  - intros now st. unfold resetUsage. by destruct (getUserId now st).
Qed.

(** A tracker whose persisted counter is 7 and whose write fails. *)
Lemma incrementUsage_never_rejects_witness :
  let st := {| userId := Some (js "user_1"); counters := {[usageKey (js "user_1") := 7%Z]} |} in
  exists t,
    run (init st) [Call; Start; Resume Completes 0; Resume Completes 0;
                   Resume (Fails (js "QUOTA_BYTES quota exceeded")) 0] = Some t /\
    settled t = [(0%nat, Resolved {| currentUsage := 0; remaining := 25; exceeded := false |})] /\
    fst (getUsageCount 0 (store t)) = 7%Z.
Proof.
  destruct incrementUsage_never_rejects as (_ & _ & Hstep & _).
  destruct (Hstep {| store := {| userId := Some (js "user_1");
                                 counters := {[usageKey (js "user_1") := 7%Z]} |};
                     calls := 1; updateLock := [];
                     running := Some (0%nat, AtSet (js "user_1") 7);
                     settled := []; ops := [Read 0 7] |}
                  0%nat (AtSet (js "user_1") 7) (js "QUOTA_BYTES quota exceeded") 0 eq_refl)
    as (t & Ht & Hsettled & Hstore & _).
  exists t. split; [exact Ht|]. split; [exact Hsettled|]. by rewrite Hstore.
Defined.

(** What a read of the counter returns, whatever the clock. *)
Definition reads (st : storage) (v : Z) : Prop :=
  forall now, fst (getUsageCount now st) = v.

(** The storage accesses of [n] increments done one after the other. *)
Definition serialOps (n : nat) : list op :=
  flat_map (fun i => [Read i (Z.of_nat i); Write i (Z.of_nat i + 1)]) (seq 0 n).

(** The callers' promises of [n] successful increments. *)
Definition resolvedUpTo (n : nat) : list (nat * settlement) :=
  map (fun i => (i, Resolved (calculateUsageInfo (Z.of_nat i + 1)))) (seq 0 n).


Lemma serialOps_S (n : nat) :
  serialOps (S n) = serialOps n ++ [Read n (Z.of_nat n); Write n (Z.of_nat n + 1)].
Proof. unfold serialOps. by rewrite seq_S, flat_map_app. Qed.

Lemma resolvedUpTo_S (n : nat) :
  resolvedUpTo (S n) = resolvedUpTo n ++ [(n, Resolved (calculateUsageInfo (Z.of_nat n + 1)))].
Proof. unfold resolvedUpTo. by rewrite seq_S, map_app. Qed.


Lemma getUserId_reads now st v :
  reads st v ->
  let (u, st') := getUserId now st in
  userId st' = Some u /\ truthy u = true /\ reads st' v.
Proof.
  intros Hreads. pose proof (Hreads now) as Hnow.
  unfold getUsageCount in Hnow.
  destruct (getUserId now st) as [u st'] eqn:Hget. simpl in Hnow.
  assert (Hid : userId st' = Some u /\ truthy u = true).
  { unfold getUserId in Hget. destruct (userId st) as [u0|] eqn:Hu.
    - destruct (truthy u0) eqn:Ht; injection Hget as <- <-; simpl; [by rewrite Hu|done].
    - injection Hget as <- <-. done. }
  destruct Hid as [Hu Ht]. repeat split; [done..|].
  intros now'. unfold getUsageCount, getUserId. by rewrite Hu, Ht.
Qed.

Lemma getUsageCount_known now st u v :
  userId st = Some u -> truthy u = true -> reads st v ->
  getUsageCount now st = (v, st).
Proof.
  intros Hu Ht Hreads. specialize (Hreads now).
  unfold getUsageCount, getUserId in *. rewrite Hu, Ht in *. simpl in Hreads.
  by rewrite Hreads.
Qed.

Lemma reads_after_set st u v :
  userId st = Some u -> truthy u = true ->
  reads {| userId := userId st; counters := <[usageKey u := v]> (counters st) |} v.
Proof.
  intros Hu Ht now. unfold getUsageCount, getUserId. simpl. rewrite Hu, Ht. simpl.
  by rewrite lookup_insert_eq.
Qed.

(** What holds of a callback suspended at a frame, when no promise has
    rejected so far. *)
Definition frameInv (i : nat) (f : frame) (t : tracker) : Prop :=
  match f with
  | AtGetUserId =>
      reads (store t) (Z.of_nat i) /\ ops t = serialOps i
  | AtGetUsageCount u =>
      userId (store t) = Some u /\ truthy u = true /\
      reads (store t) (Z.of_nat i) /\ ops t = serialOps i
  | AtSet u current =>
      userId (store t) = Some u /\ truthy u = true /\
      current = Z.of_nat i /\ ops t = serialOps i ++ [Read i (Z.of_nat i)]
  | AtBroadcast info =>
      info = calculateUsageInfo (Z.of_nat i + 1) /\
      reads (store t) (Z.of_nat i + 1) /\ ops t = serialOps (S i)
  end.

(** The invariant of a tracker: the callbacks [0 .. started-1] have been
    started in order, all but possibly the last have finished, and the
    others wait on the lock in order. *)
Definition serial (t : tracker) : Prop :=
  exists started,
    (started <= calls t)%nat /\
    updateLock t = seq started (calls t - started) /\
    match running t with
    | Some (i, f) => started = S i /\ settled t = resolvedUpTo i /\ frameInv i f t
    | None =>
        settled t = resolvedUpTo started /\
        reads (store t) (Z.of_nat started) /\ ops t = serialOps started
    end.

Lemma serial_init st : reads st 0 -> serial (init st).
Proof. intros H. exists 0%nat. simpl. repeat split; [lia|done]. Qed.

Lemma serial_step t e t' :
  serial t ->
  (forall a now, e = Resume a now -> a = Completes) ->
  step t e = Some t' ->
  serial t'.
Proof.
  intros (started & Hle & Hlock & Hrun) Hok Hstep.
  destruct e as [| |a now]; simpl in Hstep.
  - (* Call *)
    injection Hstep as <-. exists started. simpl.
    split; [lia|]. split; [|done].
    rewrite Hlock. replace (S (calls t) - started)%nat with (S (calls t - started)) by lia.
    rewrite seq_S. do 2 f_equal. lia.
  - (* Start *)
    destruct (running t) as [[i f]|]; [done|].
    destruct (updateLock t) as [|i waiting] eqn:Hwaiting; [done|].
    injection Hstep as <-.
    destruct (calls t - started)%nat as [|k] eqn:Hk; [done|].
    simpl in Hlock. injection Hlock as -> ->.
    destruct Hrun as (Hsettled & Hreads & Hops).
    exists (S started). simpl. split; [lia|].
    split; [f_equal; lia|]. done.
  - (* Resume *)
    rewrite (Hok a now eq_refl) in Hstep.
    destruct (running t) as [[i f]|] eqn:Hrunning; [|done].
    destruct Hrun as (-> & Hsettled & Hframe).
    destruct f as [|u|u current|info]; simpl in Hstep, Hframe.
    + destruct Hframe as (Hreads & Hops).
      pose proof (getUserId_reads now (store t) _ Hreads) as Hget.
      destruct (getUserId now (store t)) as [u st'].
      destruct Hget as (Hu & Ht & Hreads').
      injection Hstep as <-. exists (S i). simpl.
      rewrite app_nil_r. done.
    + destruct Hframe as (Hu & Ht & Hreads & Hops).
      rewrite (getUsageCount_known now (store t) u _ Hu Ht Hreads) in Hstep.
      injection Hstep as <-. exists (S i). simpl.
      rewrite Hops. done.
    + destruct Hframe as (Hu & Ht & -> & Hops).
      injection Hstep as <-. exists (S i). simpl.
      split; [done|]. split; [done|]. split; [done|]. split; [done|].
      split; [done|]. split; [by apply reads_after_set|].
      rewrite Hops, serialOps_S, <- app_assoc. done.
    + destruct Hframe as (-> & Hreads & Hops).
      injection Hstep as <-. exists (S i). simpl.
      split; [done|]. split; [done|].
      rewrite app_nil_r, resolvedUpTo_S, Hsettled.
      split; [done|]. split; [|done].
      by replace (Z.of_nat (S i)) with (Z.of_nat i + 1)%Z by lia.
Qed.

Lemma serial_run schedule t t' :
  serial t -> unfailing schedule -> run t schedule = Some t' -> serial t'.
Proof.
  revert t. induction schedule as [|e schedule IH]; intros t Hserial Hok; simpl.
  - by intros [= <-].
  - destruct (step t e) as [t1|] eqn:Hstep; [|done].
    apply IH; [|intros a now Hin; apply (Hok a now); by right].
    eapply serial_step; [done| |done].
    intros a now ->. apply (Hok a now). by left.
Qed.

Lemma run_calls schedule t t' :
  run t schedule = Some t' -> calls t' = (calls t + countCalls schedule)%nat.
Proof.
  revert t. induction schedule as [|e schedule IH]; intros t; simpl.
  - intros [= <-]. unfold countCalls. simpl. lia.
  - destruct (step t e) as [t1|] eqn:Hstep; [|done].
    intros Hrun. rewrite (IH _ Hrun).
    unfold countCalls. destruct e as [| |a now]; simpl in *.
    + injection Hstep as <-. simpl. lia.
    + destruct (running t); [done|]. destruct (updateLock t); [done|].
      injection Hstep as <-. simpl. lia.
    + destruct (running t) as [[i f]|]; [|done].
      destruct (resume i f a now (store t)) as [[st' accesses] [f'|s]];
        injection Hstep as <-; simpl; lia.
Qed.



End UsageMetering.

(* ===================================================================== *)
(** * Properties of the matcher and of the response formatter *)
(* ===================================================================== *)

Section MatcherFacts.

Variable fl : flags.
Variable r : re.

Lemma test_false_search (s : jsstring) :
  test fl r s = false -> search fl r (start s) s [] = None.
Proof.
  unfold test, searchFrom. simpl.
  by destruct (search fl r (start s) s []).
Qed.

Lemma search_none_here p todo skipped :
  search fl r p todo skipped = None -> matchAt fl r p = None.
Proof. destruct todo; simpl; by destruct (matchAt fl r p). Qed.

Lemma search_none_next p c todo skipped :
  search fl r p (c :: todo) skipped = None ->
  search fl r {| prev := Some c; idx := S (idx p); rest := todo |} todo (c :: skipped) = None.
Proof. simpl. by destruct (matchAt fl r p). Qed.

(** Where the pattern matches nowhere, replacing its matches changes
    nothing. *)
Lemma replaceAll_no_match (f : result -> jsstring) (s : jsstring) :
  test fl r s = false -> replaceAll fl r f s = s.
Proof.
  intros H. unfold replaceAll, searchFrom. simpl. unfold searchFrom. simpl.
  by rewrite (test_false_search s H).
Qed.

Lemma splitFrom_no_match todo :
  forall fuel cut piece q skipped,
    rest q = todo ->
    search fl r q todo skipped = None ->
    (length todo < fuel)%nat ->
    splitFrom fuel fl r cut piece q = [rev piece ++ todo].
Proof.
  induction todo as [|c todo IH]; intros fuel cut piece q skipped Hrest Hsearch Hfuel;
    (destruct fuel as [|fuel]; [simpl in Hfuel; lia|]); simpl; rewrite Hrest.
  - by rewrite app_nil_r.
  - rewrite (search_none_here _ _ _ Hsearch).
    unfold advance. rewrite Hrest.
    rewrite (IH fuel cut (c :: piece) {| prev := Some c; idx := S (idx q); rest := todo |}
               (c :: skipped) eq_refl (search_none_next _ _ _ _ Hsearch))
      by (simpl in Hfuel; lia).
    simpl. by rewrite <- app_assoc.
Qed.

(** Where the pattern matches nowhere, splitting at its matches leaves the
    string in one piece. *)
Lemma split_no_match (s : jsstring) :
  test fl r s = false -> split fl r s = [s].
Proof.
  intros H. pose proof (test_false_search s H) as Hsearch. unfold split.
  destruct s as [|c s].
  - by rewrite (search_none_here _ _ _ Hsearch).
  - by rewrite (splitFrom_no_match (c :: s) _ O [] (start (c :: s)) [] eq_refl Hsearch)
      by (simpl; lia).
Qed.

End MatcherFacts.

Section SingleCharacter.

Variable c : N.

Lemma matchAt_chr p :
  matchAt noFlags (chr c) p =
    match rest p with
    | x :: s' =>
        if x =? c
        then Some {| mstart := idx p; mtext := take (S (idx p) - idx p) (rest p); mcaps := [];
                     mend := {| prev := Some x; idx := S (idx p); rest := s' |} |}
        else None
    | [] => None
    end.
Proof.
  unfold matchAt, chr. simpl. unfold advance.
  destruct (rest p) as [|x s']; [done|].
  unfold classMatches. simpl. by destruct (x =? c).
Qed.

Lemma search_chr todo :
  forall p skipped,
    rest p = todo ->
    match search noFlags (chr c) p todo skipped with
    | None => True
    | Some (sk, m) =>
        exists pre post,
          todo = pre ++ c :: post /\ sk = rev skipped ++ pre /\
          rest (mend m) = post /\ idx (mend m) = S (mstart m)
    end.
Proof.
  induction todo as [|x todo IH]; intros p skipped Hrest; simpl;
    rewrite matchAt_chr, Hrest; [done|].
  destruct (N.eqb_spec x c) as [->|Hne].
  - exists [], todo. simpl. by rewrite app_nil_r.
  - specialize (IH {| prev := Some x; idx := S (idx p); rest := todo |} (x :: skipped) eq_refl).
    destruct (search noFlags (chr c) _ todo (x :: skipped)) as [[sk m]|]; [|done].
    destruct IH as (pre & post & -> & -> & Hpost & Hidx).
    exists (x :: pre), post. simpl. by rewrite <- app_assoc.
Qed.

(** Replacing every occurrence of a character by itself changes nothing. *)
Lemma replaceFrom_chr_same fuel :
  forall p, (length (rest p) < fuel)%nat ->
    replaceFrom fuel noFlags (chr c) (fun _ => [c]) p = rest p.
Proof.
  induction fuel as [|fuel IH]; intros p Hfuel; [lia|].
  simpl. unfold searchFrom.
  pose proof (search_chr (rest p) p [] eq_refl) as Hsearch.
  destruct (search noFlags (chr c) p (rest p) []) as [[sk m]|]; [|done].
  destruct Hsearch as (pre & post & Hrest & -> & Hpost & Hidx).
  rewrite Hidx. replace (S (mstart m) =? mstart m)%nat with false
    by (symmetry; apply Nat.eqb_neq; lia).
  rewrite IH, Hpost, Hrest; [done|].
  rewrite Hpost. rewrite Hrest, length_app in Hfuel. simpl in Hfuel. lia.
Qed.

Lemma replaceAll_chr_same (s : jsstring) :
  replaceAll noFlags (chr c) (fun _ => [c]) s = s.
Proof. unfold replaceAll. by rewrite replaceFrom_chr_same by (simpl; lia). Qed.

End SingleCharacter.

Section Literals.

Lemma run_chr {R : Type} (c : N) p caps (k : pos -> captures -> option R) :
  run noFlags (chr c) p caps k =
    match rest p with
    | x :: s' =>
        if x =? c then k {| prev := Some x; idx := S (idx p); rest := s' |} caps else None
    | [] => None
    end.
Proof.
  simpl. unfold advance. destruct (rest p) as [|x s']; [done|].
  unfold classMatches. simpl. by destruct (x =? c).
Qed.

(** A literal does not match where the input does not start with it. *)
Lemma run_lit_fails {R : Type} (w : jsstring) :
  forall p caps (k : pos -> captures -> option R),
    w <> [] ->
    startsWith w (rest p) = false ->
    run noFlags (lit w) p caps k = None.
Proof.
  induction w as [|c w IH]; intros p caps k Hne Hstarts; [done|].
  destruct w as [|c2 w].
  - change (lit [c]) with (chr c). rewrite run_chr.
    destruct (rest p) as [|x s']; [done|].
    simpl in Hstarts. rewrite andb_true_r, N.eqb_sym in Hstarts. by rewrite Hstarts.
  - change (lit (c :: c2 :: w)) with (Seq (chr c) (lit (c2 :: w))).
    cbn [run]. rewrite run_chr.
    destruct (rest p) as [|x s']; [done|].
    destruct (N.eqb_spec x c) as [->|Hxc]; [|done].
    apply IH; [done|]. simpl in Hstarts. by rewrite N.eqb_refl in Hstarts.
Qed.

Variable fl : flags.
Variable r : re.
Variable w : jsstring.

(** For a pattern that can only match where the input starts with [w]: it
    matches nowhere in a string that does not contain [w]. *)
Hypothesis needs_prefix :
  forall p, startsWith w (rest p) = false -> matchAt fl r p = None.

Lemma search_none_without todo :
  forall p skipped,
    rest p = todo -> includes w todo = false -> search fl r p todo skipped = None.
Proof.
  induction todo as [|c todo IH]; intros p skipped Hrest Hinc; simpl in *;
    apply orb_false_iff in Hinc as [Hhere Hlater];
    rewrite needs_prefix by (by rewrite Hrest); [done|].
  by apply IH.
Qed.

Lemma test_false_without (s : jsstring) :
  includes w s = false -> test fl r s = false.
Proof.
  intros Hinc. unfold test, searchFrom. simpl.
  by rewrite (search_none_without s (start s) [] eq_refl Hinc).
Qed.

End Literals.

Section Formatter.

Import AIService.

Lemma normalizeBullets_same (s : jsstring) : normalizeBullets s = s.
Proof. apply replaceAll_chr_same. Qed.

(** The formatter's own tests on a tag-free text. *)
Definition hasBold (s : jsstring) : bool := test noFlags boldPattern s.
Definition hasSectionBreak (s : jsstring) : bool := test noFlags sectionBreak s.
Definition startsNumbered (s : jsstring) : bool := startsWith (js "1.") (trim s).
Definition hasBulletLine (s : jsstring) : bool := test flagM bulletLine s.

(** What [formatResponse] does after removing the tags. *)
Definition formatStripped (s : jsstring) : jsstring :=
  join nl (concat (map formatSection
    (split noFlags sectionBreak (normalizeBullets (convertBold s))))).

Lemma formatResponse_strips_first (text : jsstring) :
  truthy text = true -> formatResponse text = formatStripped (stripTags text).
Proof. intros H. unfold formatResponse. by rewrite H. Qed.

(** A text without two line feeds in a row has no section break, and a text
    without two asterisks in a row has no bold pair. *)
Lemma hasSectionBreak_false (s : jsstring) :
  includes (nl ++ nl) s = false -> hasSectionBreak s = false.
Proof.
  apply test_false_without. intros p Hstarts. unfold matchAt, sectionBreak.
  cbn [run]. by apply (run_lit_fails (nl ++ nl)).
Qed.

Lemma hasBold_false (s : jsstring) :
  includes (js "**") s = false -> hasBold s = false.
Proof.
  apply test_false_without. intros p Hstarts. unfold matchAt, boldPattern.
  cbn [seqs run]. by apply (run_lit_fails (js "**")).
Qed.

(** The paragraph case in terms of what the text contains. *)
Lemma formatResponse_no_markers (text : jsstring) :
  truthy text = true ->
  includes (nl ++ nl) (stripTags text) = false ->
  includes (js "**") (stripTags text) = false ->
  startsNumbered (stripTags text) = false ->
  hasBulletLine (stripTags text) = false ->
  formatResponse text = js "<p>" ++ trim (stripTags text) ++ js "</p>".
Proof.
  intros Htext Hbreak Hbold Hnumbered Hbullet.
  rewrite formatResponse_strips_first by done. unfold formatStripped.
  unfold convertBold. rewrite replaceAll_no_match by (by apply hasBold_false).
  rewrite normalizeBullets_same.
  rewrite split_no_match by (by apply hasSectionBreak_false).
  simpl. unfold formatSection.
  unfold startsNumbered in Hnumbered. unfold hasBulletLine in Hbullet.
  by rewrite Hnumbered, Hbullet.
Qed.

(** C9, counterexample: two lines with a [<br>] line between them.  The
    input has no blank line, no list marker and no bold marker, but removing
    the tag leaves a blank line, and the output is two paragraph blocks; and
    the empty input gives the empty output, not a paragraph block. *)
Lemma plain_input_not_one_paragraph :
  let text := js "a" ++ nl ++ js "<br>" ++ nl ++ js "b" in
  includes (nl ++ nl) text = false /\
  hasSectionBreak text = false /\
  hasBold text = false /\
  startsNumbered text = false /\
  hasBulletLine text = false /\
  formatResponse text = js "<p>a</p>" ++ nl ++ js "<p>b</p>" /\
  formatResponse text <> js "<p>" ++ trim text ++ js "</p>" /\
  formatResponse text <> js "<p>" ++ trim (stripTags text) ++ js "</p>" /\
  formatResponse [] = [] /\
  formatResponse [] <> js "<p>" ++ trim [] ++ js "</p>".
Proof. vm_compute. repeat split; congruence. Qed.

(** C9, amended: the formatter is a function of its input that removes the
    tags before anything else (two non-empty inputs that agree after tag
    removal are formatted alike); and a non-empty input whose text, once the
    tags are removed, has no blank-line break, does not start with "1.", has
    no line starting with a hyphen or bullet and no bold pair, comes out as
    exactly one paragraph block around that text, trimmed. *)
Theorem formatResponse_plain_text :
  (forall t1 t2,
     truthy t1 = true -> truthy t2 = true -> stripTags t1 = stripTags t2 ->
     formatResponse t1 = formatResponse t2) /\
  (forall text,
     truthy text = true ->
     hasSectionBreak (stripTags text) = false ->
     startsNumbered (stripTags text) = false ->
     hasBulletLine (stripTags text) = false ->
     hasBold (stripTags text) = false ->
     formatResponse text = js "<p>" ++ trim (stripTags text) ++ js "</p>").
Proof.
  split.
  - intros t1 t2 H1 H2 Heq. by rewrite !formatResponse_strips_first, Heq.
  - intros text Htext Hbreak Hnumbered Hbullet Hbold.
    rewrite formatResponse_strips_first by done. unfold formatStripped.
    unfold convertBold. rewrite replaceAll_no_match by exact Hbold.
    rewrite normalizeBullets_same.
    rewrite split_no_match by exact Hbreak.
    simpl. unfold formatSection.
    unfold startsNumbered in Hnumbered. unfold hasBulletLine in Hbullet.
    by rewrite Hnumbered, Hbullet.
Qed.

Lemma formatResponse_plain_text_witness :
  formatResponse (js "  Hello <em>world</em>, 2 + 2 = 4.  ")
    = js "<p>Hello world, 2 + 2 = 4.</p>".
Proof.
  destruct formatResponse_plain_text as [_ Hplain].
  rewrite (Hplain (js "  Hello <em>world</em>, 2 + 2 = 4.  "));
    [reflexivity | reflexivity | reflexivity | reflexivity | reflexivity | reflexivity].
Defined.

End Formatter.

(* ===================================================================== *)
(** * Further properties of the usage meter *)
(* ===================================================================== *)

Section UsageMeterMore.

Import UsageTracker.

(** Once [getUserId()] has answered, every later call answers the same id
    and leaves the storage alone: the installation id is assigned once. *)
Theorem installation_id_is_stable (now now' : N) (st : storage) :
  getUserId now' (snd (getUserId now st)) = getUserId now st /\
  truthy (fst (getUserId now st)) = true /\
  userId (snd (getUserId now st)) = Some (fst (getUserId now st)) /\
  counters (snd (getUserId now st)) = counters st.
Proof.
  unfold getUserId. destruct (userId st) as [u|] eqn:Hu.
  - destruct (truthy u) eqn:Ht; simpl.
    + by rewrite Hu, Ht.
    + done.
  - done.
Qed.

(** The usage record is coherent for every counter value: the quota is
    exceeded exactly when nothing remains, what remains is never negative,
    and within the quota used and remaining add up to 25.  What
    [checkUsageLimit()] reports is that record for the stored counter, with
    [hasRemainingUses] the negation of [exceeded]. *)
Theorem usage_record_is_coherent (usage : Z) (now : N) (st : storage) :
  let r := calculateUsageInfo usage in
  let l := fst (checkUsageLimit now st) in
  (exceeded r = true <-> remaining r = 0%Z) /\
  (0 <= remaining r)%Z /\
  ((0 <= usage <= 25)%Z -> (currentUsage r + remaining r = 25)%Z) /\
  limitUsage l = fst (getUsageCount now st) /\
  limitRemaining l = remaining (calculateUsageInfo (limitUsage l)) /\
  limitExceeded l = exceeded (calculateUsageInfo (limitUsage l)) /\
  hasRemainingUses l = negb (limitExceeded l).
Proof.
  unfold checkUsageLimit, calculateUsageInfo, MAX_FREE_USES.
  destruct (getUsageCount now st) as [c st']. simpl.
  split; [|split; [lia|split; [lia|split; [done|split; [done|split; [done|]]]]]].
  - split; intros H; [apply Z.leb_le in H|apply Z.leb_le]; lia.
  - destruct (Z.ltb_spec c 25), (Z.leb_spec 25 c); simpl; (done || lia).
Qed.

(** [resetUsage()] puts the counter of this installation back to zero (a
    read after it finds 0 and the limit is not exceeded), returns the record
    of usage zero, and touches no other counter. *)
Theorem resetUsage_reads_zero (now : N) (st : storage) :
  let st' := snd (resetUsage now st) in
  fst (resetUsage now st) = calculateUsageInfo 0 /\
  (forall now', fst (getUsageCount now' st') = 0%Z) /\
  (forall now', limitExceeded (fst (checkUsageLimit now' st')) = false) /\
  (forall key, key <> usageKey (fst (getUserId now st)) ->
               counters st' !! key = counters st !! key).
Proof.
  destruct (installation_id_is_stable now now st) as (_ & Ht & Hu & Hc).
  unfold resetUsage. destruct (getUserId now st) as [u st1]. simpl in *.
  assert (Hzero : forall now',
    fst (getUsageCount now'
           {| userId := userId st1; counters := <[usageKey u := 0%Z]> (counters st1) |}) = 0%Z).
  { intros now'. unfold getUsageCount, getUserId. simpl. rewrite Hu, Ht. simpl.
    by rewrite lookup_insert_eq. }
  repeat split; [done| |].
  - intros now'. unfold checkUsageLimit. specialize (Hzero now').
    destruct (getUsageCount now' _) as [c st2]. simpl in *. by rewrite Hzero.
  - intros key Hkey. rewrite lookup_insert_ne by done. by rewrite Hc.
Qed.

(** The values written to the counter, in order. *)
Definition writtenValues (l : list op) : list Z :=
  omap (fun o => match o with Write _ v => Some v | Read _ _ => None end) l.

(** The invariant of a tracker when awaited promises may reject. *)
Definition tolerant (t : tracker) : Prop :=
  let k := length (writtenValues (ops t)) in
  exists started,
    (started <= calls t)%nat /\
    updateLock t = seq started (calls t - started) /\
    reads (store t) (Z.of_nat k) /\
    writtenValues (ops t) = map Z.of_nat (seq 1 k) /\
    match running t with
    | Some (i, f) =>
        started = S i /\ length (settled t) = i /\
        match f with
        | AtGetUserId => (k <= i)%nat
        | AtGetUsageCount u =>
            (k <= i)%nat /\ userId (store t) = Some u /\ truthy u = true
        | AtSet u current =>
            (k <= i)%nat /\ userId (store t) = Some u /\ truthy u = true /\
            current = Z.of_nat k
        | AtBroadcast _ => (k <= S i)%nat
        end
    | None => length (settled t) = started /\ (k <= started)%nat
    end.

Lemma writtenValues_app (l1 l2 : list op) :
  writtenValues (l1 ++ l2) = writtenValues l1 ++ writtenValues l2.
Proof. unfold writtenValues. apply omap_app. Qed.

Lemma tolerant_step t e t' : tolerant t -> step t e = Some t' -> tolerant t'.
Proof.
  intros (started & Hle & Hlock & Hreads & Hwritten & Hrun) Hstep.
  destruct e as [| |a now]; simpl in Hstep.
  - injection Hstep as <-. exists started. simpl.
    split; [lia|]. split; [|done].
    rewrite Hlock. replace (S (calls t) - started)%nat with (S (calls t - started)) by lia.
    rewrite seq_S. do 2 f_equal. lia.
  - destruct (running t) as [[i f]|]; [done|].
    destruct (updateLock t) as [|i waiting] eqn:Hwaiting; [done|].
    injection Hstep as <-.
    destruct (calls t - started)%nat as [|k] eqn:Hk; [done|].
    simpl in Hlock. injection Hlock as -> ->.
    destruct Hrun as (Hsettled & Hbound).
    exists (S started). simpl. split; [lia|].
    split; [f_equal; lia|]. done.
  - destruct (running t) as [[i f]|] eqn:Hrunning; [|done].
    destruct Hrun as (-> & Hsettled & Hframe).
    destruct a as [|message].
    + destruct f as [|u|u current|info]; simpl in Hstep.
      * pose proof (getUserId_reads now (store t) _ Hreads) as Hget.
        destruct (getUserId now (store t)) as [u st'].
        destruct Hget as (Hu & Ht & Hreads').
        injection Hstep as <-. exists (S i). simpl. rewrite app_nil_r. done.
      * destruct Hframe as (Hbound & Hu & Ht).
        rewrite (getUsageCount_known now (store t) u _ Hu Ht Hreads) in Hstep.
        injection Hstep as <-. exists (S i). simpl.
        rewrite writtenValues_app. simpl. rewrite app_nil_r. done.
      * destruct Hframe as (Hbound & Hu & Ht & ->).
        injection Hstep as <-. exists (S i). simpl.
        rewrite writtenValues_app, length_app. simpl.
        replace (length (writtenValues (ops t)) + 1)%nat
          with (S (length (writtenValues (ops t)))) by lia.
        split; [done|]. split; [done|]. split.
        { replace (Z.of_nat (S (length (writtenValues (ops t)))))
            with (Z.of_nat (length (writtenValues (ops t))) + 1)%Z by lia.
          by apply reads_after_set. }
        split.
        { rewrite seq_S, map_app, <- Hwritten. simpl. do 2 f_equal. lia. }
        split; [done|]. split; [done|]. lia.
      * injection Hstep as <-. exists (S i). simpl. rewrite app_nil_r.
        rewrite length_app. simpl. repeat split; try done; lia.
    + simpl in Hstep. injection Hstep as <-. exists (S i). simpl. rewrite app_nil_r.
      rewrite length_app. simpl. repeat split; try done; try lia.
      destruct f; lia || (destruct Hframe; lia).
Qed.

Lemma tolerant_run schedule t t' : tolerant t -> run t schedule = Some t' -> tolerant t'.
Proof.
  revert t. induction schedule as [|e schedule IH]; intros t Ht; simpl.
  - by intros [= <-].
  - destruct (step t e) as [t1|] eqn:Hstep; [|done].
    apply IH. by eapply tolerant_step.
Qed.

(** Rejected promises lose no update and count none twice.  In every
    schedule that has run to the end, whatever awaits rejected, the values
    written to the counter are 1, 2, ..., k in this order, the counter reads
    k, k is at most the number of calls, and every call has been settled: a
    failed increment does not block the ones chained after it. *)
Theorem increments_survive_failures (st : storage) (schedule : list event) (t : tracker) :
  reads st 0 ->
  run (init st) schedule = Some t ->
  idle t ->
  let k := length (writtenValues (ops t)) in
  writtenValues (ops t) = map Z.of_nat (seq 1 k) /\
  reads (store t) (Z.of_nat k) /\
  (k <= countCalls schedule)%nat /\
  length (settled t) = countCalls schedule.
Proof.
  intros Hzero Hrun [Hidle Hlock] k.
  pose proof (run_calls _ _ _ Hrun) as Hcalls. simpl in Hcalls.
  assert (Hinit : tolerant (init st)).
  { exists 0%nat. simpl. repeat split; [lia|done|lia]. }
  destruct (tolerant_run schedule (init st) t Hinit Hrun)
    as (started & Hle & Hwaiting & Hreads & Hwritten & Hstate).
  rewrite Hidle in Hstate. rewrite Hlock in Hwaiting.
  assert (started = calls t) as ->.
  { destruct (calls t - started)%nat eqn:Hk; [lia|done]. }
  destruct Hstate as (Hsettled & Hbound).
  fold k in Hreads, Hwritten, Hbound. rewrite <- Hcalls. done.
Qed.

(** Three calls; the write of the second one is rejected. *)
Lemma increments_survive_failures_witness :
  let st := {| userId := Some (js "user_1"); counters := ∅ |} in
  exists t,
    run (init st)
      [ Call; Call; Call;
        Start; Resume Completes 0; Resume Completes 0; Resume Completes 0; Resume Completes 0;
        Start; Resume Completes 0; Resume Completes 0; Resume (Fails (js "quota")) 0;
        Start; Resume Completes 0; Resume Completes 0; Resume Completes 0; Resume Completes 0 ]
      = Some t /\
    writtenValues (ops t) = [1; 2]%Z /\
    reads (store t) 2 /\
    length (settled t) = 3%nat.
Proof.
  eexists. split; [vm_compute; reflexivity|].
  match goal with |- writtenValues (ops ?t) = _ /\ _ =>
    destruct (increments_survive_failures {| userId := Some (js "user_1"); counters := ∅ |}
      [ Call; Call; Call;
        Start; Resume Completes 0; Resume Completes 0; Resume Completes 0; Resume Completes 0;
        Start; Resume Completes 0; Resume Completes 0; Resume (Fails (js "quota")) 0;
        Start; Resume Completes 0; Resume Completes 0; Resume Completes 0; Resume Completes 0 ]
      t) as (Hwritten & Hreads & _ & Hsettled)
  end.
  - intros now. reflexivity.
  - vm_compute. reflexivity.
  - split; reflexivity.
  - split; [exact Hwritten|]. split; [exact Hreads | exact Hsettled].
Defined.

End UsageMeterMore.

(* ===================================================================== *)
(** * Further properties of the conversation memory *)
(* ===================================================================== *)

Section MemoryMore.

Import MemoryService.

Lemma Js_eqb_refl (s : jsstring) : eqb s s = true.
Proof. induction s as [|c s IH]; simpl; [done|]. by rewrite N.eqb_refl, IH. Qed.

Lemma Js_eqb_eq (a b : jsstring) : eqb a b = true -> a = b.
Proof.
  revert b. induction a as [|x a IH]; intros [|y b]; simpl; try done.
  intros H. apply andb_true_iff in H as [Hxy Hab].
  apply N.eqb_eq in Hxy as ->. by rewrite (IH b Hab).
Qed.

Lemma storeAll_wellFormed (session : jsstring) (rs : list request) (st : storage) :
  wellFormed st -> wellFormed (storeAll session rs st).
Proof.
  revert st. induction rs as [|r rs IH]; intros st Hwf; [done|].
  unfold storeAll in *. simpl. apply IH.
  by destruct (storeConversation_step session r st Hwf).
Qed.

(** Reading the memory returns what is stored, for all sessions or for one. *)
Lemma getAllConversations_stored (now : N) (st : storage) :
  wellFormed st -> fst (getAllConversations now st) = stored st.
Proof.
  intros Hwf. unfold getAllConversations.
  pose proof (getUserId_spec now st Hwf) as Hid.
  destruct (getUserId now st) as [u st1]. by destruct Hid as (_ & _ & _ & Hstored).
Qed.

Lemma getConversationsBySession_stored (session : jsstring) (now : N) (st : storage) :
  wellFormed st ->
  fst (getConversationsBySession session now st)
    = List.filter (fun conv => eqb (sessionId conv) session) (stored st).
Proof.
  intros Hwf. unfold getConversationsBySession.
  pose proof (getUserId_spec now st Hwf) as Hid.
  destruct (getUserId now st) as [u st1]. destruct Hid as (_ & _ & _ & Hstored).
  simpl. by rewrite Hstored.
Qed.

Lemma accepted_session (session : jsstring) (r : request) (e : conversation) :
  accepted session r = Some e -> sessionId e = session.
Proof.
  unfold accepted. destruct (_ && _); [|done]. by intros [= <-].
Qed.

Lemma filter_session_same (session : jsstring) (rs : list request) :
  List.filter (fun conv => eqb (sessionId conv) session) (omap (accepted session) rs)
    = omap (accepted session) rs.
Proof.
  induction rs as [|r rs IH]; [done|]. cbn [omap list_omap].
  destruct (accepted session r) as [e|] eqn:He; [|done]. cbn [List.filter].
  by rewrite (accepted_session _ _ _ He), Js_eqb_refl, IH.
Qed.

Lemma filter_session_other (other session : jsstring) (es : list conversation) :
  eqb other session = false ->
  Forall (fun e => sessionId e = other) es ->
  List.filter (fun conv => eqb (sessionId conv) session) es = [].
Proof.
  intros Hne. induction 1 as [|e es He _ IH]; [done|]. simpl. by rewrite He, Hne.
Qed.

Lemma accepted_all_session (session : jsstring) (rs : list request) :
  Forall (fun e => sessionId e = session) (omap (accepted session) rs).
Proof.
  induction rs as [|r rs IH]; simpl; [done|].
  destruct (accepted session r) as [e|] eqn:He; [|done].
  constructor; [by eapply accepted_session|done].
Qed.

(** Sessions share one list, but a session sees its own entries.  When a
    service with session id [sB] stores at most 50 entries on top of what an
    earlier session [sA] has left, [getConversationsBySession()] of [sB]
    returns exactly the entries [sB] stored, in order: the overflow falls on
    the older session's entries. *)
Theorem session_sees_its_own_entries (sA sB : jsstring) (rsA rsB : list request) (now : N) :
  eqb sA sB = false ->
  (length (omap (accepted sB) rsB) <= 50)%nat ->
  fst (getConversationsBySession sB now (storeAll sB rsB (storeAll sA rsA fresh)))
    = omap (accepted sB) rsB.
Proof.
  intros Hne Hlen.
  assert (HwfA : wellFormed (storeAll sA rsA fresh)) by by apply storeAll_wellFormed.
  rewrite getConversationsBySession_stored by by apply storeAll_wellFormed.
  rewrite storeAll_stored by done. rewrite storeAll_stored by done.
  rewrite <- fold_left_app.
  rewrite fold_pushCapped by (simpl; lia).
  change (stored fresh) with (@nil conversation). rewrite app_nil_l.
  unfold lastN, MAX_MESSAGES. rewrite length_app.
  rewrite drop_app_le by lia.
  rewrite List.filter_app, filter_session_same.
  rewrite (filter_session_other sA sB); [done|done|].
  apply Forall_drop, accepted_all_session.
Qed.

Lemma session_sees_its_own_entries_witness :
  map timestamp
    (fst (getConversationsBySession (js "B") 0
            (storeAll (js "B")
               [ {| now := 100; rmessage := js "q"; rresponse := js "a"; rmodel := Claude;
                    lastError := false |} ]
               (storeAll (js "A") sixty fresh))))
    = [100].
Proof.
  rewrite (session_sees_its_own_entries (js "A") (js "B") sixty
             [ {| now := 100; rmessage := js "q"; rresponse := js "a"; rmodel := Claude;
                  lastError := false |} ] 0);
    [reflexivity | reflexivity | simpl; lia].
Defined.

Lemma clearConversations_wellFormed (now : N) (lastError : bool) (st : storage) :
  wellFormed st -> wellFormed (snd (clearConversations now lastError st)).
Proof.
  intros Hwf. unfold clearConversations.
  pose proof (getUserId_spec now st Hwf) as Hid.
  destruct (getUserId now st) as [u st1]. destruct Hid as (Hu & Ht & _).
  destruct lastError; unfold wellFormed; simpl; by rewrite Hu.
Qed.

(** Clearing and storing compose.  A clear that goes through answers
    [true] and leaves an empty memory, in which the next accepted entry is
    the only one; a clear whose write fails answers [false] and leaves the
    memory as it was. *)
Theorem clear_then_store (session : jsstring) (now now' : N) (st : storage)
    (r : request) (e : conversation) :
  wellFormed st ->
  accepted session r = Some e ->
  let cleared := clearConversations now false st in
  fst cleared = true /\
  fst (getAllConversations now' (snd cleared)) = [] /\
  fst (storeConversation session r (snd cleared)) = Some [e] /\
  stored (snd (storeConversation session r (snd cleared))) = [e] /\
  fst (clearConversations now true st) = false /\
  stored (snd (clearConversations now true st)) = stored st.
Proof.
  intros Hwf Hacc cleared.
  assert (Hwf' : wellFormed (snd cleared)) by by apply clearConversations_wellFormed.
  assert (Hempty : stored (snd cleared) = []).
  { unfold cleared, clearConversations.
    pose proof (getUserId_spec now st Hwf) as Hid.
    destruct (getUserId now st) as [u st1]. destruct Hid as (Hu & _).
    unfold stored. simpl. by rewrite Hu, lookup_insert_eq. }
  split; [unfold cleared, clearConversations; by destruct (getUserId now st)|].
  split; [by rewrite getAllConversations_stored|].
  destruct (storeConversation_step session r (snd cleared) Hwf') as [_ Hstep].
  rewrite Hacc, Hempty in Hstep. split; [|split; [exact Hstep|]].
  - unfold accepted in Hacc. unfold storeConversation.
    destruct (truthy (rmessage r)); [|done].
    destruct (truthy (rresponse r)); [|done].
    destruct (lastError r) eqn:Herr; [done|]. simpl in Hacc. injection Hacc as <-.
    cbn [negb orb].
    pose proof (getUserId_spec (MemoryService.now r) (snd cleared) Hwf') as Hid.
    destruct (getUserId (MemoryService.now r) (snd cleared)) as [u st1].
    destruct Hid as (_ & _ & _ & Hstored). by rewrite Hstored, Hempty.
  - unfold clearConversations.
    pose proof (getUserId_spec now st Hwf) as Hid.
    destruct (getUserId now st) as [u st1]. destruct Hid as (Hu & _ & _ & Hstored).
    split; [done|]. unfold stored at 1. simpl. by rewrite Hu.
Qed.

Lemma clear_then_store_witness :
  stored (snd (storeConversation (js "S")
                 {| now := 7; rmessage := js "q"; rresponse := js "a"; rmodel := Claude;
                    lastError := false |}
                 (snd (clearConversations 0 false (storeAll (js "S") sixty fresh)))))
    = [ {| timestamp := 7; sessionId := js "S"; message := js "q"; response := js "a";
           cmodel := Claude |} ].
Proof.
  apply (clear_then_store (js "S") 0 0 (storeAll (js "S") sixty fresh)
           {| now := 7; rmessage := js "q"; rresponse := js "a"; rmodel := Claude;
              lastError := false |});
    [by apply storeAll_wellFormed | reflexivity].
Defined.

End MemoryMore.

(* ===================================================================== *)
(** * Further properties of the retry wrapper of the sidebar *)
(* ===================================================================== *)

Section RetryMore.

Import AIService.

(** What [sanitizeContext] promises about its result. *)
Definition sanitized (ctx : context) : Prop :=
  ctx !! "port" = None /\ ctx !! "chrome" = None /\ ctx !! "window" = None /\
  (forall v, ctx !! "visibleText" = Some v -> (length v <= 5000)%nat) /\
  (forall v, ctx !! "selectedText" = Some v -> (length v <= 1000)%nat).

Lemma sanitizeContext_sanitized (ctx : context) : sanitized (sanitizeContext ctx).
Proof.
  unfold sanitized, sanitizeContext.
  repeat split.
  - rewrite !lookup_alter_ne by done.
    rewrite !lookup_delete_ne by done. apply lookup_delete_eq.
  - rewrite !lookup_alter_ne by done.
    rewrite lookup_delete_ne by done. apply lookup_delete_eq.
  - rewrite !lookup_alter_ne by done. apply lookup_delete_eq.
  - intros v. rewrite lookup_alter_ne by done. rewrite lookup_alter_eq.
    destruct (_ !! "visibleText") as [x|]; cbn [fmap option_fmap option_map]; [|done].
    intros Hv. apply (inj Some) in Hv. subst v. unfold slice0. rewrite length_take. lia.
  - intros v. rewrite lookup_alter_eq.
    destruct (_ !! "selectedText") as [x|]; cbn [fmap option_fmap option_map]; [|done].
    intros Hv. apply (inj Some) in Hv. subst v. unfold slice0. rewrite length_take. lia.
Qed.

(** [sanitizeContext] removes the three handles, cuts the two text fields to
    a prefix of 5000 and 1000 code units, leaves every other field as it is,
    and changes nothing when applied a second time. *)
Theorem sanitizeContext_cuts_and_keeps (ctx : context) :
  sanitized (sanitizeContext ctx) /\
  sanitizeContext ctx !! "visibleText" = slice0 5000 <$> ctx !! "visibleText" /\
  sanitizeContext ctx !! "selectedText" = slice0 1000 <$> ctx !! "selectedText" /\
  (forall k : string,
     k <> "port"%string -> k <> "chrome"%string -> k <> "window"%string ->
     k <> "visibleText"%string -> k <> "selectedText"%string ->
     sanitizeContext ctx !! k = ctx !! k) /\
  sanitizeContext (sanitizeContext ctx) = sanitizeContext ctx.
Proof.
  split; [apply sanitizeContext_sanitized|].
  assert (Hvisible : sanitizeContext ctx !! "visibleText" = slice0 5000 <$> ctx !! "visibleText").
  { unfold sanitizeContext. rewrite lookup_alter_ne by done. rewrite lookup_alter_eq.
    by rewrite !lookup_delete_ne by done. }
  assert (Hselected : sanitizeContext ctx !! "selectedText" = slice0 1000 <$> ctx !! "selectedText").
  { unfold sanitizeContext. rewrite lookup_alter_eq. rewrite lookup_alter_ne by done.
    by rewrite !lookup_delete_ne by done. }
  assert (Hother : forall k : string,
     k <> "port"%string -> k <> "chrome"%string -> k <> "window"%string ->
     k <> "visibleText"%string -> k <> "selectedText"%string ->
     sanitizeContext ctx !! k = ctx !! k).
  { intros k ? ? ? ? ?. unfold sanitizeContext.
    rewrite !lookup_alter_ne by done. by rewrite !lookup_delete_ne by done. }
  split; [done|]. split; [done|]. split; [done|].
  apply map_eq. intros k.
  destruct (sanitizeContext_sanitized ctx) as (Hport & Hchrome & Hwindow & _).
  destruct (decide (k = "port"%string)) as [->|?];
    [rewrite Hport; apply sanitizeContext_sanitized|].
  destruct (decide (k = "chrome"%string)) as [->|?];
    [rewrite Hchrome; apply sanitizeContext_sanitized|].
  destruct (decide (k = "window"%string)) as [->|?];
    [rewrite Hwindow; apply sanitizeContext_sanitized|].
  destruct (decide (k = "visibleText"%string)) as [->|?].
  { unfold sanitizeContext at 1. rewrite lookup_alter_ne by done. rewrite lookup_alter_eq.
    rewrite !lookup_delete_ne by done. rewrite Hvisible.
    destruct (ctx !! "visibleText") as [v|]; cbn [fmap option_fmap option_map]; [|done].
    unfold slice0. by rewrite take_take, Nat.min_id. }
  destruct (decide (k = "selectedText"%string)) as [->|?].
  { unfold sanitizeContext at 1. rewrite lookup_alter_eq. rewrite lookup_alter_ne by done.
    rewrite !lookup_delete_ne by done. rewrite Hselected.
    destruct (ctx !! "selectedText") as [v|]; cbn [fmap option_fmap option_map]; [|done].
    unfold slice0. by rewrite take_take, Nat.min_id. }
  unfold sanitizeContext at 1.
  rewrite !lookup_alter_ne by done. by rewrite !lookup_delete_ne by done.
Qed.

(** What the catch block of [sendMessageWithRetry] does with an error, after
    [currentAttempt] earlier failures and with [todo] iterations left. *)
Definition afterFailure (port : nat -> formattedMessage -> option response) (m : message)
    (maxRetries todo currentAttempt : nat) (errorMessage : jsstring)
    : M (list event) (option response) :=
  if Nat.eqb (S currentAttempt) maxRetries then
    ret (Some {| success := true; error := None; text := Some (exhaustedApology errorMessage) |})
  else
    sleep (backoff (S currentAttempt)) ;;;
    retryLoop port m maxRetries todo (S currentAttempt).

Lemma retryLoop_S port m maxRetries todo currentAttempt w :
  retryLoop port m maxRetries (S todo) currentAttempt w =
    if negb (truthy (prompt m)) then
      afterFailure port m maxRetries todo currentAttempt
        (js "Invalid message: prompt is required") w
    else
      let fm := formatMessage m currentAttempt in
      match port (length (posted w)) fm with
      | Some r =>
          if success r then (Return (Some r), w ++ [Posted fm])
          else afterFailure port m maxRetries todo currentAttempt
                 (orElse (error r) (js "Request failed")) (w ++ [Posted fm])
      | None =>
          afterFailure port m maxRetries todo currentAttempt (js "Request timeout")
            (w ++ [Posted fm])
      end.
Proof.
  cbn [retryLoop]. unfold tryCatch, afterFailure.
  destruct (truthy (prompt m)); cbn [negb]; [|done].
  unfold bind at 1, executeRequest.
  destruct (port _ _) as [r|]; [|done]. by destruct (success r).
Qed.

(** The events one run of the wrapper for [m] can add. *)
Definition retryEvent (m : message) (e : event) : Prop :=
  match e with
  | Posted fm => exists i, fm = formatMessage m i
  | Slept _ => True
  | _ => False
  end.

(** Any run of the loop, against any port. *)
Lemma retryLoop_any port m maxRetries todo currentAttempt w :
  (currentAttempt + todo = maxRetries)%nat ->
  exists r w2,
    retryLoop port m maxRetries todo currentAttempt w = (Return r, w ++ w2) /\
    match r with
    | Some resp => success resp = true /\ (0 < todo)%nat
    | None => todo = 0%nat
    end /\
    Forall (retryEvent m) w2 /\
    (length (posted w2) <= todo)%nat /\
    map attempt (posted w2) = seq (S currentAttempt) (length (posted w2)) /\
    (truthy (prompt m) = false -> posted w2 = []).
Proof.
  revert currentAttempt w. induction todo as [|todo IH]; intros currentAttempt w Hsum.
  { exists None, []. rewrite app_nil_r. by repeat split. }
  assert (Hcatch : forall e (w1 : list event),
    (w1 = [] /\ truthy (prompt m) = false) \/
    (w1 = [Posted (formatMessage m currentAttempt)] /\ truthy (prompt m) = true) ->
    exists r w2,
      afterFailure port m maxRetries todo currentAttempt e (w ++ w1) = (Return r, w ++ w2) /\
      match r with
      | Some resp => success resp = true /\ (0 < S todo)%nat
      | None => S todo = 0%nat
      end /\
      Forall (retryEvent m) w2 /\
      (length (posted w2) <= S todo)%nat /\
      map attempt (posted w2) = seq (S currentAttempt) (length (posted w2)) /\
      (truthy (prompt m) = false -> posted w2 = [])).
  { intros e w1 Hw1.
    assert (Hevents1 : Forall (retryEvent m) w1).
    { destruct Hw1 as [[-> _]|[-> _]]; [done|].
      constructor; [by exists currentAttempt|done]. }
    unfold afterFailure.
    destruct (Nat.eqb_spec (S currentAttempt) maxRetries) as [Heq|Hne].
    - exists (Some {| success := true; error := None; text := Some (exhaustedApology e) |}), w1.
      split; [done|]. split; [split; [done|lia]|]. split; [done|].
      destruct Hw1 as [[-> Hprompt]|[-> Hprompt]]; simpl.
      + split; [lia|]. done.
      + split; [lia|]. split; [done|]. congruence.
    - destruct (IH (S currentAttempt) ((w ++ w1) ++ [Slept (backoff (S currentAttempt))]))
        as (r & w2 & Hrun & Hr & Hevents & Hlen & Hattempts & Hnone); [lia|].
      exists r, (w1 ++ [Slept (backoff (S currentAttempt))] ++ w2).
      unfold bind, sleep, emit. rewrite Hrun.
      split; [by rewrite <- !app_assoc|].
      split.
      { destruct r as [resp|]; [split; [apply Hr|lia]|lia]. }
      split.
      { apply Forall_app. split; [done|]. apply Forall_app. split; [|done].
        by constructor. }
      destruct Hw1 as [[-> Hprompt]|[-> Hprompt]].
      + rewrite (app_nil_l _). rewrite posted_app. simpl.
        rewrite (Hnone Hprompt). simpl. split; [lia|done].
      + rewrite !posted_app. simpl.
        split; [lia|]. split; [by rewrite Hattempts|congruence]. }
  rewrite retryLoop_S.
  destruct (truthy (prompt m)) eqn:Hprompt; cbn [negb].
  - cbv zeta.
    destruct (port _ _) as [resp|].
    + destruct (success resp) eqn:Hsuccess.
      * exists (Some resp), [Posted (formatMessage m currentAttempt)].
        split; [done|]. split; [split; [done|lia]|].
        split; [constructor; [by exists currentAttempt|done]|].
        simpl. split; [lia|done].
      * apply Hcatch. by right.
    + apply Hcatch. by right.
  - specialize (Hcatch (js "Invalid message: prompt is required") [] (or_introl (conj eq_refl eq_refl))).
    by rewrite app_nil_r in Hcatch.
Qed.



(** Whatever the wrapper posts carries a sanitized context: no [port],
    [chrome] or [window] field, at most 5000 code units of visible text and
    1000 of selected text; the prompt is posted as given. *)
Theorem posted_context_is_sanitized port (m : message) (maxRetries : nat)
    (w : list event) (fm : formattedMessage) :
  fm ∈ posted (snd (sendMessageWithRetry port m maxRetries w)) ->
  fm ∈ posted w \/ (sanitized (fcontext fm) /\ fprompt fm = prompt m).
Proof.
  unfold sendMessageWithRetry.
  destruct (retryLoop_any port m maxRetries maxRetries 0 w eq_refl)
    as (r & w2 & Hrun & _ & Hevents & _).
  rewrite Hrun. simpl. rewrite posted_app. intros Hin.
  apply elem_of_app in Hin as [Hin|Hin]; [by left|right].
  unfold posted in Hin. apply list_elem_of_omap in Hin as (e & He & Hfm).
  rewrite Forall_forall in Hevents. specialize (Hevents e He).
  destruct e as [fm'| | |]; simplify_eq.
  destruct Hevents as [i ->]. split; [apply sanitizeContext_sanitized|done].
Qed.

Lemma posted_context_is_sanitized_witness :
  let m := {| prompt := js "hi"; mmodel := None; misHybrid := false; mdecision := None;
              mcontext := Some {[ "port" := js "p"; "url" := js "u" ]} |} in
  let fm := formatMessage m 0 in
  fm ∈ posted [] \/ (sanitized (fcontext fm) /\ fprompt fm = prompt m).
Proof.
  intros m fm.
  apply (posted_context_is_sanitized silentPort m 1 [] fm).
  vm_compute. apply list_elem_of_here.
Defined.

(** The wrapper returns the first successful answer.  When the port lets
    [k] requests fail and answers the next one, and [k] is below the number of
    attempts allowed, the wrapper resolves with that very answer after [k + 1]
    requests and [k] waits of [backoff 1], ..., [backoff k]. *)
Theorem sendMessageWithRetry_first_success port (m : message) (maxRetries k : nat)
    (resp : response) (w : list event) :
  truthy (prompt m) = true ->
  (k < maxRetries)%nat ->
  (forall i, (i < k)%nat ->
     match port (length (posted w) + i)%nat (formatMessage m i) with
     | Some r => success r = false
     | None => True
     end) ->
  port (length (posted w) + k)%nat (formatMessage m k) = Some resp ->
  success resp = true ->
  exists w',
    sendMessageWithRetry port m maxRetries w = (Return (Some resp), w') /\
    posted w' = posted w ++ map (formatMessage m) (seq 0 (S k)) /\
    slept w' = slept w ++ map backoff (seq 1 k).
Proof.
  intros Hprompt Hk Hfail Hanswer Hsuccess. unfold sendMessageWithRetry.
  assert (Hloop : forall j todo currentAttempt w0,
    (currentAttempt + j = k)%nat ->
    (j < todo)%nat ->
    (currentAttempt + todo = maxRetries)%nat ->
    length (posted w0) = (length (posted w) + currentAttempt)%nat ->
    exists w',
      retryLoop port m maxRetries todo currentAttempt w0 = (Return (Some resp), w') /\
      posted w' = posted w0 ++ map (formatMessage m) (seq currentAttempt (S j)) /\
      slept w' = slept w0 ++ map backoff (seq (S currentAttempt) j)).
  { induction j as [|j IH]; intros todo currentAttempt w0 Hj Htodo Hsum Hlen;
      (destruct todo as [|todo]; [lia|]); rewrite retryLoop_S, Hprompt; cbn [negb]; cbv zeta;
      rewrite Hlen.
    - replace currentAttempt with k by lia. rewrite Hanswer, Hsuccess.
      eexists. split; [done|]. rewrite posted_app, slept_app. simpl.
      by rewrite app_nil_r.
    - specialize (Hfail currentAttempt ltac:(lia)).
      destruct (IH todo (S currentAttempt)
                  ((w0 ++ [Posted (formatMessage m currentAttempt)])
                     ++ [Slept (backoff (S currentAttempt))]))
        as (w' & Hrun & Hposted & Hslept); [lia|lia|lia| |].
      { rewrite !posted_app, !length_app. simpl. lia. }
      exists w'.
      assert (Hcatch : forall e,
        afterFailure port m maxRetries todo currentAttempt e
          (w0 ++ [Posted (formatMessage m currentAttempt)]) = (Return (Some resp), w')).
      { intros e. unfold afterFailure.
        destruct (Nat.eqb_spec (S currentAttempt) maxRetries) as [Heq|Hne]; [lia|].
        unfold bind, sleep, emit. exact Hrun. }
      split.
      { destruct (port _ _) as [r|]; [|apply Hcatch]. rewrite Hfail. apply Hcatch. }
      rewrite Hposted, Hslept, !posted_app, !slept_app. simpl.
      by rewrite <- !app_assoc. }
  destruct (Hloop k maxRetries 0%nat w) as (w' & Hrun & Hposted & Hslept); [lia|lia|lia|lia|].
  exists w'. by rewrite Hrun, Hposted, Hslept.
Qed.

Lemma sendMessageWithRetry_first_success_witness :
  exists w',
    sendMessageWithRetry
      (fun n _ => if (n <? 2)%nat then None
                  else Some {| success := true; error := None; text := Some (js "ok") |})
      (plainMessage (js "hi") Claude) 3 [] =
      (Return (Some {| success := true; error := None; text := Some (js "ok") |}), w') /\
    posted w' = posted [] ++ map (formatMessage (plainMessage (js "hi") Claude)) (seq 0 3) /\
    slept w' = slept [] ++ map backoff (seq 1 2).
Proof.
  apply (sendMessageWithRetry_first_success
           (fun n _ => if (n <? 2)%nat then None
                       else Some {| success := true; error := None; text := Some (js "ok") |})
           (plainMessage (js "hi") Claude) 3 2
           {| success := true; error := None; text := Some (js "ok") |} []);
    [reflexivity | lia | | reflexivity | reflexivity].
  intros i Hi. simpl. destruct i as [|[|i]]; [exact I | exact I | lia].
Defined.

(** A message without a prompt is never posted, but it is retried all the
    same: the wrapper waits [backoff 1], ..., [backoff (maxRetries - 1)] and
    then resolves with the apology for the validation error. *)
Theorem sendMessageWithRetry_without_prompt port (m : message) (maxRetries : nat)
    (w : list event) :
  truthy (prompt m) = false ->
  (0 < maxRetries)%nat ->
  sendMessageWithRetry port m maxRetries w =
    (Return (Some {| success := true; error := None;
                     text := Some (exhaustedApology (js "Invalid message: prompt is required")) |}),
     w ++ map Slept (map backoff (seq 1 (maxRetries - 1)))).
Proof.
  intros Hprompt Hpos. unfold sendMessageWithRetry.
  assert (Hloop : forall todo currentAttempt w0,
    (currentAttempt + S todo = maxRetries)%nat ->
    retryLoop port m maxRetries (S todo) currentAttempt w0 =
      (Return (Some {| success := true; error := None;
                       text := Some (exhaustedApology (js "Invalid message: prompt is required")) |}),
       w0 ++ map Slept (map backoff (seq (S currentAttempt) todo)))).
  { induction todo as [|todo IH]; intros currentAttempt w0 Hsum;
      rewrite retryLoop_S, Hprompt; cbn [negb]; unfold afterFailure.
    - replace (S currentAttempt =? maxRetries)%nat with true
        by (symmetry; apply Nat.eqb_eq; lia).
      unfold ret. simpl. by rewrite app_nil_r.
    - replace (S currentAttempt =? maxRetries)%nat with false
        by (symmetry; apply Nat.eqb_neq; lia).
      unfold bind, sleep, emit. rewrite IH by lia.
      simpl. by rewrite <- app_assoc. }
  destruct maxRetries as [|todo]; [lia|].
  replace (S todo - 1)%nat with todo by lia. by rewrite Hloop by lia.
Qed.

Lemma sendMessageWithRetry_without_prompt_witness :
  slept (snd (sendMessageWithRetry silentPort (plainMessage [] Claude) 3 [])) = [2000; 4000].
Proof.
  rewrite (sendMessageWithRetry_without_prompt silentPort (plainMessage [] Claude) 3 []);
    [reflexivity | reflexivity | lia].
Defined.

End RetryMore.

(* ===================================================================== *)
(** * Further properties of the query methods of the sidebar *)
(* ===================================================================== *)

Section QueryMore.

Import AIService.

Lemma finish_success prompt m store resp w :
  success resp = true ->
  finish prompt m store (Some resp) w =
    if truthyOpt (text resp)
    then (Return {| atext := orElse (text resp) []; amodel := m |},
          if store then w ++ [Stored prompt (orElse (text resp) []) m] else w)
    else (Throw (js "Invalid API response format"), w).
Proof.
  intros Hsuccess. unfold finish. rewrite Hsuccess. cbn [negb].
  destruct (truthyOpt (text resp)); cbn [negb]; [|done].
  by destruct store.
Qed.

Lemma sendMessageWithRetry_any port m w :
  exists resp w2,
    sendMessageWithRetry port m 3 w = (Return (Some resp), w ++ w2) /\
    success resp = true /\ Forall (retryEvent m) w2.
Proof.
  unfold sendMessageWithRetry.
  destruct (retryLoop_any port m 3 3 0 w eq_refl) as (r & w2 & Hrun & Hr & Hevents & _).
  destruct r as [resp|]; [|lia]. exists resp, w2. by destruct Hr.
Qed.

(** [queryPerplexity] has two ways to end, whatever the port does.  Because
    the retry wrapper turns every failure into a [success: true] response, the
    only error it throws is the one for a response without text; and when it
    returns, the text is not empty, the model is Perplexity and the exchange,
    under the prompt as given, is the last thing stored in the memory. *)
Theorem queryPerplexity_outcomes port (prompt : jsstring) (ctx : context) (w : list event) :
  match queryPerplexity port prompt ctx w with
  | (Return a, w') =>
      amodel a = Perplexity /\ truthy (atext a) = true /\
      exists w2, Forall (fun e => isPosted e = true \/ exists ms, e = Slept ms) w2 /\
                 w' = w ++ w2 ++ [Stored prompt (atext a) Perplexity]
  | (Throw e, w') => e = js "Perplexity API error: Invalid API response format"
  end.
Proof.
  unfold queryPerplexity, tryCatch, bind.
  match goal with |- context [sendMessageWithRetry port ?m 3 w] =>
    destruct (sendMessageWithRetry_any port m w) as (resp & w2 & -> & Hsuccess & Hevents) end.
  rewrite finish_success by done.
  destruct (text resp) as [t|]; cbn [truthyOpt]; [|done].
  destruct (truthy t) eqn:Htruthy; [|done].
  cbn [orElse]. rewrite Htruthy. cbn [atext amodel].
  split; [done|]. split; [done|].
  exists w2. split; [|by rewrite <- app_assoc].
  eapply Forall_impl; [exact Hevents|].
  intros [fm|ms| |]; simpl; eauto; done.
Qed.

(** Against a port behind which every request fails, [queryPerplexity] does
    not fail: after three requests and waits of 2000 and 4000 milliseconds it
    returns the apology of the retry wrapper as Perplexity's answer, and stores
    it in the conversation memory. *)
Theorem queryPerplexity_records_the_apology port (prompt : jsstring) (ctx : context) :
  failingPort port ->
  truthy prompt = true ->
  exists e w,
    queryPerplexity port prompt ctx [] =
      (Return {| atext := exhaustedApology e; amodel := Perplexity |},
       w ++ [Stored prompt (exhaustedApology e) Perplexity]) /\
    length (posted w) = 3%nat /\
    slept w = [2000; 4000].
Proof.
  intros Hport Hprompt. unfold queryPerplexity, tryCatch, bind, sendMessageWithRetry.
  match goal with |- context [retryLoop port ?m 3 3 0 []] =>
    destruct (retryLoop_exhausted port m 3 2 0 [] Hport) as (e & w & Hrun & Hposted & Hslept) end.
  { cbn [AIService.prompt]. destruct (nonEmpty ctx); [done|exact Hprompt]. }
  { done. }
  rewrite Hrun. exists e, w. rewrite finish_success by done.
  cbn [text truthyOpt orElse]. by rewrite Hposted, Hslept.
Qed.

Lemma queryPerplexity_records_the_apology_witness :
  exists e w,
    queryPerplexity silentPort (js "weather") ∅ [] =
      (Return {| atext := exhaustedApology e; amodel := Perplexity |},
       w ++ [Stored (js "weather") (exhaustedApology e) Perplexity]) /\
    length (posted w) = 3%nat /\
    slept w = [2000; 4000].
Proof.
  apply (queryPerplexity_records_the_apology silentPort (js "weather") ∅);
    [intros n m; exact I | reflexivity].
Defined.

Lemma sanitizeContext_empty : sanitizeContext ∅ = ∅.
Proof.
  unfold sanitizeContext. apply map_eq. intros k.
  destruct (decide (k = "selectedText"%string)) as [->|?].
  { rewrite lookup_alter_eq, lookup_alter_ne by done.
    by rewrite !lookup_delete_ne, lookup_empty by done. }
  rewrite lookup_alter_ne by done.
  destruct (decide (k = "visibleText"%string)) as [->|?].
  { rewrite lookup_alter_eq. by rewrite !lookup_delete_ne, lookup_empty by done. }
  rewrite lookup_alter_ne by done.
  rewrite !lookup_delete_None, lookup_empty. tauto.
Qed.

(** A routing query to Claude stays private.  Whatever the page context
    and whatever the port does, [queryClaude] with [isRoutingQuery] set posts
    the prompt as given with an empty context, and stores nothing in the
    conversation memory; without a valid key it posts nothing at all. *)
Theorem queryClaude_routing_is_private port keyValid (prompt : jsstring) (ctx : context)
    (w : list event) :
  exists w2,
    snd (queryClaude port keyValid prompt ctx true w) = w ++ [KeyChecked Claude] ++ w2 /\
    Forall (fun e =>
              match e with
              | Posted fm => fprompt fm = prompt /\ fcontext fm = ∅ /\ fmodel fm = Claude
              | Slept _ => True
              | _ => False
              end) w2 /\
    (keyValid Claude = false -> w2 = []).
Proof.
  unfold queryClaude, isApiKeyValid, bind at 1, bind at 1, emit, ret.
  destruct (keyValid Claude); cbn [negb andb].
  - unfold bind.
    match goal with |- context [sendMessageWithRetry port ?m 3 ?w0] =>
      destruct (sendMessageWithRetry_any port m w0) as (resp & w2 & -> & Hsuccess & Hevents) end.
    rewrite finish_success by done. exists w2.
    split; [destruct (truthyOpt (text resp)); simpl; by rewrite <- app_assoc|].
    split; [|done].
    eapply Forall_impl; [exact Hevents|].
    intros [fm|ms| |]; simpl; try done.
    intros [i ->].
    cbn [formatMessage fprompt fcontext fmodel AIService.prompt mcontext mmodel
         negb andb from_option id].
    by rewrite sanitizeContext_empty.
  - exists []. by rewrite app_nil_r.
Qed.

(** The prompt [queryClaude] posts outside routing: the visible text in
    front of the question when there is a page context. *)
Definition claudePrompt (prompt : jsstring) (ctx : context) : jsstring :=
  if nonEmpty ctx
  then js "Webpage content: " ++ propOr ctx "visibleText" [] ++ nl ++ nl
       ++ js "Question: " ++ prompt
  else prompt.

Definition claudeRequest (prompt : jsstring) (ctx : context) (e : event) : Prop :=
  match e with
  | Posted fm =>
      fprompt fm = claudePrompt prompt ctx /\ fcontext fm = sanitizeContext ctx /\
      fmodel fm = Claude
  | Slept _ => True
  | _ => False
  end.

(** A question to Claude about the page carries the page, and is stored
    without it.  When [queryClaude] returns outside routing, the key was
    checked first, every request posted had the visible text in front of the
    question and the sanitized context beside it, the text returned is not
    empty, and the exchange stored last is under the question alone. *)
Theorem queryClaude_stores_the_question port keyValid (prompt : jsstring) (ctx : context)
    (w : list event) (a : answer) (w' : list event) :
  queryClaude port keyValid prompt ctx false w = (Return a, w') ->
  amodel a = Claude /\ truthy (atext a) = true /\
  exists w2, w' = w ++ [KeyChecked Claude] ++ w2 ++ [Stored prompt (atext a) Claude] /\
             Forall (claudeRequest prompt ctx) w2.
Proof.
  unfold queryClaude, isApiKeyValid, bind at 1, bind at 1, emit, ret.
  destruct (keyValid Claude); cbn [negb andb]; [|discriminate].
  unfold bind.
  match goal with |- context [sendMessageWithRetry port ?m 3 ?w0] =>
    destruct (sendMessageWithRetry_any port m w0) as (resp & w2 & -> & Hsuccess & Hevents) end.
  rewrite finish_success by done.
  destruct (text resp) as [t|]; cbn [truthyOpt]; [|discriminate].
  destruct (truthy t) eqn:Htruthy; [|discriminate].
  cbn [orElse]. rewrite Htruthy. intros [= <- <-]. cbn [atext amodel].
  split; [done|]. split; [done|].
  exists w2. split; [by rewrite <- !app_assoc|].
  eapply Forall_impl; [exact Hevents|].
  intros [fm|ms| |]; simpl; try done.
  intros [i ->].
  cbn [formatMessage fprompt fcontext fmodel AIService.prompt mcontext mmodel from_option id].
  unfold claudePrompt, nonEmpty.
  destruct (bool_decide (ctx = ∅)) eqn:Hctx; cbn [negb]; [|done].
  apply bool_decide_eq_true in Hctx. by subst ctx.
Qed.

Lemma queryClaude_stores_the_question_witness :
  exists w2,
    [KeyChecked Claude;
     Posted (formatMessage
               {| prompt := js "Webpage content: page" ++ nl ++ nl ++ js "Question: why";
                  mmodel := Some Claude; misHybrid := false; mdecision := None;
                  mcontext := Some {[ "visibleText" := js "page" ]} |} 0);
     Stored (js "why") (js "ok") Claude]
      = [] ++ [KeyChecked Claude] ++ w2 ++ [Stored (js "why") (js "ok") Claude] /\
    Forall (claudeRequest (js "why") {[ "visibleText" := js "page" ]}) w2.
Proof.
  apply (queryClaude_stores_the_question
           (fun _ _ => Some {| success := true; error := None; text := Some (js "ok") |})
           (fun _ => true) (js "why") {[ "visibleText" := js "page" ]} []
           {| atext := js "ok"; amodel := Claude |}).
  vm_compute. reflexivity.
Defined.

End QueryMore.

(* ===================================================================== *)
(** * Further properties of the rule cascade and the small helpers *)
(* ===================================================================== *)

Section CascadeMore.

Import AIService.

Lemma ratio_fraction (num den : nat) :
  (num <= den)%nat ->
  match ratio num den with
  | Some q => (0 <= q)%Q /\ (q <= 1)%Q /\ (0 < den)%nat
  | None => den = 0%nat
  end.
Proof.
  intros Hle. destruct den as [|den]; [done|]. cbn [ratio].
  assert (Hden : Z.pos (Pos.of_nat (S den)) = Z.of_nat (S den)).
  { rewrite <- positive_nat_Z, Nat2Pos.id; lia. }
  unfold Qle. cbn [Qnum Qden]. rewrite Hden. split; [lia|]. split; lia.
Qed.

(** The relevance score is a fraction of the prompt's significant words:
    a number from 0 to 1 when the prompt has a word longer than three
    characters, and [NaN] (0 divided by 0) exactly when it has none. *)
Theorem relevance_is_a_fraction (prompt contextText : jsstring) :
  match calculateContextRelevance prompt contextText with
  | Some q => (0 <= q)%Q /\ (q <= 1)%Q /\ significantWords (toLowerCase prompt) <> ∅
  | None => significantWords (toLowerCase prompt) = ∅
  end.
Proof.
  unfold calculateContextRelevance.
  set (promptWords := significantWords (toLowerCase prompt)).
  set (contextWords := significantWords _).
  pose proof (ratio_fraction
                (length (List.filter (fun word => bool_decide (word ∈ contextWords))
                           (elements promptWords)))
                (size promptWords)) as Hratio.
  destruct (ratio _ _) as [q|].
  - destruct Hratio as (H0 & H1 & Hpos); [apply List.filter_length_le|].
    split; [done|]. split; [done|]. intros Hempty. rewrite Hempty in Hpos.
    rewrite size_empty in Hpos. lia.
  - apply leibniz_equiv, size_empty_iff, Hratio, List.filter_length_le.
Qed.

Lemma relevance_nan (prompt contextText : jsstring) :
  significantWords (toLowerCase prompt) = ∅ ->
  calculateContextRelevance prompt contextText = None.
Proof.
  intros Hempty. unfold calculateContextRelevance. rewrite Hempty.
  by rewrite size_empty.
Qed.

(** A company-information query without a significant word is not sent to
    the external search: its relevance is [NaN], which is not below 0.3, so
    the company rule of the cascade cannot fire, whatever the page says. *)
Theorem company_rule_needs_a_significant_word (prompt : jsstring) (ctx : context) :
  significantWords (toLowerCase prompt) = ∅ ->
  reasoning (determineModelForQuery prompt ctx)
    <> js "Company information query requiring external search".
Proof.
  intros Hempty. unfold determineModelForQuery.
  rewrite (relevance_nan _ _ Hempty). cbn [ltNum]. rewrite andb_false_r.
  repeat match goal with
         | |- context [if ?b then _ else _] => destruct b
         end; cbn [reasoning]; intros H; vm_compute in H; discriminate H.
Qed.

Lemma company_rule_needs_a_significant_word_witness :
  reasoning (determineModelForQuery (js "ceo?") {[ "visibleText" := js "About us" ]})
    <> js "Company information query requiring external search".
Proof.
  apply (company_rule_needs_a_significant_word (js "ceo?") {[ "visibleText" := js "About us" ]}).
  reflexivity.
Defined.

(** [validateModelDecision] answers with one of the two model names it
    knows, ['perplexity'] exactly when the decision says so up to case and
    surrounding white space, ['claude'] for anything else (a ['hybrid']
    decision included); validating twice changes nothing. *)
Theorem validateModelDecision_known (modelDecision : jsstring) :
  (validateModelDecision modelDecision = js "claude" \/
   validateModelDecision modelDecision = js "perplexity") /\
  (validateModelDecision modelDecision = js "perplexity" <->
   trim (toLowerCase modelDecision) = js "perplexity") /\
  validateModelDecision (js "hybrid") = js "claude" /\
  validateModelDecision (validateModelDecision modelDecision)
    = validateModelDecision modelDecision.
Proof.
  assert (Hcases : validateModelDecision modelDecision = js "claude" /\
                   trim (toLowerCase modelDecision) <> js "perplexity" \/
                   validateModelDecision modelDecision = js "perplexity" /\
                   trim (toLowerCase modelDecision) = js "perplexity").
  { unfold validateModelDecision, arrayIncludes. cbn [existsb].
    destruct (eqb _ (js "claude")) eqn:Hclaude.
    - apply Js_eqb_eq in Hclaude. rewrite Hclaude. left. split; [done|]. by vm_compute.
    - destruct (eqb _ (js "perplexity")) eqn:Hperplexity; cbn [orb].
      + apply Js_eqb_eq in Hperplexity. right. by rewrite Hperplexity.
      + left. split; [done|]. intros Heq. rewrite Heq in Hperplexity. by vm_compute in Hperplexity. }
  split; [tauto|]. split.
  { split.
    - intros Hp. destruct Hcases as [[Hc _]|[_ Ht]]; [|done].
      rewrite Hc in Hp. by vm_compute in Hp.
    - intros Ht. destruct Hcases as [[_ Hn]|[Hp _]]; done. }
  split; [reflexivity|].
  destruct Hcases as [[-> _]|[-> _]]; reflexivity.
Qed.

(** The two logs of the service, fed a list of entries one call after the
    other. *)
Definition logModelDecisions {A : Type} (ds : list A) (model_decisions : option (list A))
    : option (list A) :=
  fold_left (fun log d => logModelDecision d log) ds model_decisions.

Definition logErrors (es : list errorEntry) (error_log : option (list errorEntry))
    : option (list errorEntry) :=
  fold_left (fun log e => logError (etype e) (emessage e) (estack e) (etimestamp e) log)
            es error_log.

Lemma appendToLog_fold {A : Type} (cap : nat) (es : list A) (log : option (list A)) :
  fold_left (appendToLog cap) es log =
    match log with
    | None => None
    | Some l => Some (fold_left (pushCapped cap) es l)
    end.
Proof.
  revert log. induction es as [|e es IH]; intros log; [by destruct log|].
  cbn [fold_left]. rewrite IH. by destruct log.
Qed.

(** The logs are never begun.  [logModelDecision] and [logError] append to
    the list they find in the storage and keep its last 1000 and 100 entries;
    while the key is absent they write nothing, however many entries are
    logged. *)
Theorem logs_need_an_existing_list {A : Type} (ds : list A) (es : list errorEntry) :
  logModelDecisions ds None = None /\
  logErrors es None = None /\
  (forall l, (length l <= 1000)%nat ->
             logModelDecisions ds (Some l) = Some (lastN 1000 (l ++ ds))) /\
  (forall l, (length l <= 100)%nat ->
             logErrors es (Some l) = Some (lastN 100 (l ++ es))).
Proof.
  assert (Herrors : forall log,
    logErrors es log = fold_left (appendToLog 100) es log).
  { unfold logErrors, logError. induction es as [|[t m s i] es IH]; intros log; [done|].
    cbn [fold_left]. by rewrite IH. }
  unfold logModelDecisions, logModelDecision.
  change (fun (log : option (list A)) d => appendToLog 1000 log d) with (@appendToLog A 1000).
  rewrite !Herrors, !appendToLog_fold.
  split; [done|]. split; [done|]. split; intros l Hlen.
  - by rewrite appendToLog_fold, fold_pushCapped.
  - by rewrite Herrors, appendToLog_fold, fold_pushCapped.
Qed.

End CascadeMore.

(* ===================================================================== *)
(** * Further properties of the service worker's handlers *)
(* ===================================================================== *)

Section BackgroundMore.

Import Background.

Definition perplexityFetch (message : request) : event :=
  Fetched (js "https://api.perplexity.ai/chat/completions") (perplexityPrompt message).

Definition claudeFetch (message : request) : event :=
  Fetched (js "https://api.anthropic.com/v1/messages") (claudeContent message).

Lemma fetches_one (w : list event) (url content : jsstring) :
  fetches (w ++ [Fetched url content]) = S (fetches w).
Proof. rewrite fetches_app. unfold fetches at 2. simpl. lia. Qed.

Lemma fetches_slept (w : list event) (ms : N) : fetches (w ++ [Slept ms]) = fetches w.
Proof. rewrite fetches_app. unfold fetches at 2. simpl. lia. Qed.

(** One attempt of the Perplexity handler: an answer is a [success: true]
    response with a text that is not empty, after one fetch; a failure leaves
    at most one fetch behind. *)
Lemma perplexityAttempt_outcomes fetch message i w :
  match perplexityAttempt fetch message i w with
  | (Return r, w1) =>
      success r = true /\ truthyOpt (text r) = true /\ noAnswer (fetch i) = false /\
      (exists status raw, fetch i = Response status raw (Answer (text r)) /\ error r = None) /\
      truthy (prompt message) = true /\
      w1 = w ++ [perplexityFetch message]
  | (Throw e, w1) =>
      (truthy (prompt message) = false /\ w1 = w) \/
      (noAnswer (fetch i) = true /\ w1 = w ++ [perplexityFetch message])
  end.
Proof.
  unfold perplexityAttempt.
  destruct (truthy (prompt message)); cbn [negb]; [|by left].
  cbv [bind doFetch emit ret throw].
  destruct (fetch i) as [e|status raw body]; cbn [noAnswer]; [by right|].
  destruct (ok status); cbn [negb orb]; [|by right].
  destruct body as [e|t]; [by right|].
  destruct (truthyOpt t) eqn:Ht; cbn [negb]; [|by right].
  cbn [success text].
  split; [done|]. split; [done|]. split; [done|]. split; [by eauto|done].
Qed.

Lemma perplexityLoop_any fetch message retryCount todo i w :
  (i + todo = retryCount)%nat ->
  exists r w',
    perplexityLoop fetch message retryCount todo i w = (Return r, w') /\
    match r with
    | Some resp => success resp = true /\ truthyOpt (text resp) = true /\ (0 < todo)%nat
    | None => todo = 0%nat
    end /\
    (fetches w <= fetches w')%nat /\ (fetches w' <= fetches w + todo)%nat.
Proof.
  revert i w. induction todo as [|todo IH]; intros i w Hsum.
  { exists None, w. repeat split; lia. }
  cbn [perplexityLoop]. unfold tryCatch, bind at 1.
  pose proof (perplexityAttempt_outcomes fetch message i w) as Hattempt.
  destruct (perplexityAttempt fetch message i w) as [[resp|e] w1].
  - destruct Hattempt as (Hsuccess & Htext & _ & _ & _ & ->).
    exists (Some resp), (w ++ [perplexityFetch message]). unfold ret.
    split; [done|]. split; [split; [done|split; [done|lia]]|].
    unfold perplexityFetch. rewrite fetches_one. lia.
  - assert (Hw1 : (fetches w <= fetches w1)%nat /\ (fetches w1 <= fetches w + 1)%nat).
    { destruct Hattempt as [[_ ->]|[_ ->]]; [lia|].
      unfold perplexityFetch. rewrite fetches_one. lia. }
    destruct (Nat.eqb_spec i (retryCount - 1)) as [Hlast|Hmore].
    + eexists _, w1. unfold ret. split; [reflexivity|].
      cbn [success text truthyOpt]. split; [split; [done|split; [reflexivity|lia]]|lia].
    + destruct (IH (S i) (w1 ++ [Slept (backoff i)])) as (r & w' & Hrun & Hr & Hge & Hle); [lia|].
      exists r, w'. unfold bind, sleep, emit. rewrite Hrun. split; [done|].
      rewrite fetches_slept in Hge, Hle.
      split; [|lia]. destruct r as [resp|]; [|lia].
      destruct Hr as (? & ? & ?). repeat split; (done || lia).
Qed.

(** [handlePerplexityRequest] never rejects and never reports a failure:
    with at least one attempt allowed, whatever the network does, it resolves
    with a [success: true] response whose text is not empty, after at least
    zero and at most [retryCount] fetches. *)
Theorem handlePerplexityRequest_never_rejects fetch (message : request) (retryCount : nat)
    (w : list event) :
  (0 < retryCount)%nat ->
  exists resp w',
    handlePerplexityRequest fetch message retryCount w = (Return (Some resp), w') /\
    success resp = true /\ truthyOpt (text resp) = true /\
    (fetches w' <= fetches w + retryCount)%nat.
Proof.
  intros Hpos. unfold handlePerplexityRequest.
  destruct (perplexityLoop_any fetch message retryCount retryCount 0 w eq_refl)
    as (r & w' & Hrun & Hr & _ & Hle).
  destruct r as [resp|]; [|lia]. exists resp, w'. by destruct Hr as (? & ? & _).
Qed.

Lemma handlePerplexityRequest_never_rejects_witness :
  exists resp w',
    handlePerplexityRequest (fun _ => Response 500 (js "oops") (Unparsable (js "bad json")))
      {| prompt := []; contextString := None; url := None; title := None |} 2 [] =
      (Return (Some resp), w') /\
    success resp = true /\ truthyOpt (text resp) = true /\
    (fetches w' <= fetches [] + 2)%nat.
Proof.
  apply (handlePerplexityRequest_never_rejects
           (fun _ => Response 500 (js "oops") (Unparsable (js "bad json")))
           {| prompt := []; contextString := None; url := None; title := None |} 2 []).
  lia.
Defined.

(** [handlePerplexityRequest] returns the first answer.  When the first
    [k] fetches bring no answer and the next one does, with [k] below the
    number of attempts allowed, the handler resolves with that text after
    [k + 1] fetches and [k] waits of [backoff 0], ..., [backoff (k - 1)]:
    1000, 2000, 4000 milliseconds and so on. *)
Theorem handlePerplexityRequest_first_answer fetch (message : request) (retryCount k : nat)
    (status : N) (raw answerText : jsstring) :
  truthy (prompt message) = true ->
  (k < retryCount)%nat ->
  (forall i, (i < k)%nat -> noAnswer (fetch i) = true) ->
  fetch k = Response status raw (Answer (Some answerText)) ->
  ok status = true ->
  truthy answerText = true ->
  handlePerplexityRequest fetch message retryCount [] =
    (Return (Some {| success := true; error := None; text := Some answerText |}),
     concat (map (fun i => [perplexityFetch message; Slept (backoff i)]) (seq 0 k))
       ++ [perplexityFetch message]).
Proof.
  intros Hprompt Hk Hfail Hanswer Hok Htext. unfold handlePerplexityRequest.
  assert (Hloop : forall j todo i w,
    (i + j = k)%nat -> (j < todo)%nat -> (i + todo = retryCount)%nat ->
    perplexityLoop fetch message retryCount todo i w =
      (Return (Some {| success := true; error := None; text := Some answerText |}),
       w ++ concat (map (fun i => [perplexityFetch message; Slept (backoff i)]) (seq i j))
         ++ [perplexityFetch message])).
  { induction j as [|j IH]; intros todo i w Hj Htodo Hsum;
      (destruct todo as [|todo]; [lia|]); cbn [perplexityLoop]; unfold tryCatch, bind at 1.
    - pose proof (perplexityAttempt_outcomes fetch message i w) as Hattempt.
      replace i with k in * by lia.
      destruct (perplexityAttempt fetch message k w) as [[resp|e] w1].
      + destruct Hattempt as (Hsuccess & _ & _ & (status' & raw' & Hfetch & Herror) & _ & ->).
        rewrite Hanswer in Hfetch. injection Hfetch as _ _ Hresp.
        unfold ret. destruct resp as [s er t]. cbn in Hsuccess, Herror, Hresp. subst.
        cbn [seq map concat]. by rewrite app_nil_l.
      + destruct Hattempt as [[Hfalse _]|[Hno _]]; [congruence|].
        rewrite Hanswer in Hno. cbn in Hno. rewrite Hok, Htext in Hno. discriminate.
    - pose proof (perplexityAttempt_outcomes fetch message i w) as Hattempt.
      destruct (perplexityAttempt fetch message i w) as [[resp|e] w1].
      + destruct Hattempt as (_ & _ & Hno & _). rewrite Hfail in Hno by lia. discriminate.
      + destruct Hattempt as [[Hfalse _]|[_ ->]]; [congruence|].
        replace (i =? retryCount - 1)%nat with false by (symmetry; apply Nat.eqb_neq; lia).
        unfold bind, sleep, emit. rewrite IH by lia.
        cbn [seq map concat]. by rewrite <- !app_assoc. }
  by rewrite (Hloop k retryCount 0%nat []) by lia.
Qed.

Lemma handlePerplexityRequest_first_answer_witness :
  sleeps (snd (handlePerplexityRequest
                 (fun n => if (n <? 2)%nat then Rejected (js "Failed to fetch")
                           else Response 200 [] (Answer (Some (js "sunny"))))
                 {| prompt := js "weather"; contextString := None; url := None; title := None |}
                 3 []))
    = [1000; 2000].
Proof.
  rewrite (handlePerplexityRequest_first_answer
             (fun n => if (n <? 2)%nat then Rejected (js "Failed to fetch")
                       else Response 200 [] (Answer (Some (js "sunny"))))
             {| prompt := js "weather"; contextString := None; url := None; title := None |}
             3 2 200 [] (js "sunny"));
    [reflexivity | reflexivity | lia | | reflexivity | reflexivity | reflexivity].
  intros i Hi. destruct i as [|[|i]]; [reflexivity | reflexivity | lia].
Defined.

Lemma claudeAttempt_outcomes fetch message i w :
  match claudeAttempt fetch message i w with
  | (Return r, w1) => success r = true /\ w1 = w ++ [claudeFetch message]
  | (Throw e, w1) => w1 = w ++ [claudeFetch message]
  end.
Proof.
  cbv [claudeAttempt bind doFetch emit ret throw].
  destruct (fetch i) as [e|status raw body]; [done|].
  destruct (ok status); cbn [negb]; [|done].
  by destruct body.
Qed.




(** [withRetry] when [fn] fails every time, each time after one fetch:
    [fn] is called [maxRetries] times, and a wait follows every failure, the
    last one included; the waits are 1000, 2000, 4000, ... and keep doubling
    (there is no cap); then the error of the last call is thrown.  With no
    attempt allowed [undefined] is thrown at once. *)
Theorem withRetry_exhausted {A : Type} (fn : M (list event) A) (err : nat -> jsstring)
    (request : event) (maxRetries : nat) (w : list event) :
  (forall w0, fn w0 = (Throw (err (length w0)), w0 ++ [request])) ->
  withRetry fn maxRetries w =
    (Throw (match maxRetries with
            | O => []
            | S n => err (length w + 2 * n)%nat
            end),
     w ++ concat (map (fun i => [request; Slept (1000 * 2 ^ N.of_nat i)]) (seq 0 maxRetries))).
Proof.
  intros Hfn. unfold withRetry.
  assert (Hloop : forall todo i lastError w0,
    withRetryLoop fn todo i lastError w0 =
      (Throw (match todo with
              | O => default [] lastError
              | S n => err (length w0 + 2 * n)%nat
              end),
       w0 ++ concat (map (fun i => [request; Slept (1000 * 2 ^ N.of_nat i)]) (seq i todo)))).
  { induction todo as [|todo IH]; intros i lastError w0.
    - cbn. by rewrite app_nil_r.
    - cbn [withRetryLoop]. unfold tryCatch. rewrite Hfn.
      unfold bind, emit. rewrite IH. cbn [seq map concat].
      rewrite <- !app_assoc. f_equal. destruct todo as [|n]; cbn [default from_option id].
      + by replace (length w0 + 2 * 0)%nat with (length w0) by lia.
      + rewrite !length_app. cbn [length].
        by replace (length w0 + (1 + 1) + 2 * n)%nat with (length w0 + 2 * S n)%nat by lia. }
  by rewrite Hloop.
Qed.

Lemma withRetry_exhausted_witness :
  sleeps (snd (withRetry (A:=unit)
                 (fun w0 => (Throw (js "boom"), w0 ++ [Fetched (js "u") (js "c")])) 5 []))
    = [1000; 2000; 4000; 8000; 16000].
Proof.
  rewrite (withRetry_exhausted (A:=unit)
             (fun w0 => (Throw (js "boom"), w0 ++ [Fetched (js "u") (js "c")]))
             (fun _ => js "boom") (Fetched (js "u") (js "c")) 5 []);
    [reflexivity | intros w0; reflexivity].
Defined.

End BackgroundMore.

(* ===================================================================== *)
(** * Properties of the query handler *)
(* ===================================================================== *)

Section QueryHandlerFacts.

Import QueryHandler.

(** What the handler does to its environment. *)
Inductive handlerEvent : Type :=
| Executed (query : jsstring) (ctx : context)     (* delegationService.executeQuery *)
| Waited (ms : N).                                (* setTimeout *)

Definition wait (ms : N) : M (list handlerEvent) unit := emit (Waited ms).

(** The error one pass through the [try] block ends with, if any: the one
    [executeQuery] throws, or the one [processResponse] throws for a response
    without text. *)
Definition attemptError (o : outcome ModelDelegationService.queryResult) : option jsstring :=
  match o with
  | Throw e => Some e
  | Return r =>
      if truthy (ModelDelegationService.qtext r) then None
      else Some (js "Invalid response format")
  end.

Lemma tryCatch_throw {W A : Type} (c : M W A) (h : jsstring -> M W A) (w : W)
    (e : jsstring) (w1 : W) :
  c w = (Throw e, w1) -> tryCatch c h w = h e w1.
Proof. intros Hrun. unfold tryCatch. by rewrite Hrun. Qed.

Lemma bind_emit {E B : Type} (e : E) (k : M (list E) B) (w : list E) :
  (emit e ;;; k) w = k (w ++ [e]).
Proof. reflexivity. Qed.

Lemma bind_ret {W A B : Type} (a : A) (f : A -> M W B) (w : W) :
  bind (ret a) f w = f a w.
Proof. reflexivity. Qed.

Lemma attemptQuery_fails executeQuery query ctx w o w1 e :
  executeQuery query ctx w = (o, w1) ->
  attemptError o = Some e ->
  attemptQuery (list handlerEvent) executeQuery query ctx w = (Throw e, w1).
Proof.
  intros Hrun Herr. unfold attemptQuery, optimizeQuery, bind. rewrite Hrun.
  destruct o as [r|e']; cbn [attemptError] in Herr.
  - unfold processResponse. destruct (truthy _); [done|]. cbn [negb]. by injection Herr as <-.
  - by injection Herr as <-.
Qed.

(** [handleQuery] when every pass fails, by an error of [executeQuery] or
    by a response without text: the query is executed three times, with waits
    of 1000 and 2000 milliseconds between the passes and none after the last,
    and the error of the last pass is thrown. *)
Theorem handleQuery_exhausted executeQuery (err : nat -> jsstring) (query : jsstring)
    (ctx : context) (w : list handlerEvent) :
  (forall w0, exists o,
     executeQuery query ctx w0 = (o, w0 ++ [Executed query ctx]) /\
     attemptError o = Some (err (length w0))) ->
  handleQuery (list handlerEvent) executeQuery wait query ctx w =
    (Throw (err (length w + 4)%nat),
     w ++ [Executed query ctx; Waited 1000; Executed query ctx; Waited 2000;
           Executed query ctx]).
Proof.
  intros Hfails. unfold handleQuery, retryLimit.
  assert (Hpass : forall w0,
    attemptQuery (list handlerEvent) executeQuery query ctx w0 =
      (Throw (err (length w0)), w0 ++ [Executed query ctx])).
  { intros w0. destruct (Hfails w0) as (o & Hrun & Herr).
    by apply (attemptQuery_fails _ _ _ _ o). }
  cbn [handleLoop]. unfold retryLimit, retryDelay, wait. cbn [Nat.ltb Nat.leb].
  rewrite (tryCatch_throw _ _ _ _ _ (Hpass _)), bind_emit.
  rewrite (tryCatch_throw _ _ _ _ _ (Hpass _)), bind_emit.
  rewrite (tryCatch_throw _ _ _ _ _ (Hpass _)), bind_ret.
  unfold throw. cbn [default from_option id].
  rewrite !length_app. cbn [length]. rewrite <- !app_assoc. cbn [app].
  by replace (length w + 1 + 1 + 1 + 1)%nat with (length w + 4)%nat by lia.
Qed.

Lemma handleQuery_exhausted_witness :
  handleQuery (list handlerEvent)
    (fun query ctx w0 =>
       (Return {| ModelDelegationService.qtext := []; ModelDelegationService.qmodel := Claude |},
        w0 ++ [Executed query ctx]))
    wait (js "hello") ∅ [] =
    (Throw (js "Invalid response format"),
     [] ++ [Executed (js "hello") ∅; Waited 1000; Executed (js "hello") ∅; Waited 2000;
            Executed (js "hello") ∅]).
Proof.
  apply (handleQuery_exhausted
           (fun query ctx w0 =>
              (Return {| ModelDelegationService.qtext := [];
                         ModelDelegationService.qmodel := Claude |},
               w0 ++ [Executed query ctx]))
           (fun _ => js "Invalid response format") (js "hello") ∅ []).
  intros w0. eexists. split; reflexivity.
Defined.

(** What [handleQuery] returns is the text of the pass that succeeded, not
    empty, under the model and the reasoning of the combiner's decision for
    the query, whichever pass it was. *)
Theorem handleQuery_reports_the_decision {W : Type} executeQuery sleep (query : jsstring)
    (ctx : context) (w : W) (h : handled) (w' : W) :
  handleQuery W executeQuery sleep query ctx w = (Return h, w') ->
  truthy (htext h) = true /\
  hmodel h = ModelDelegationService.dmodel (ModelDelegationService.determineModelForQuery query) /\
  hreasoning h
    = ModelDelegationService.reasoning (ModelDelegationService.determineModelForQuery query).
Proof.
  unfold handleQuery.
  assert (Hpass : forall w0 h0 w1,
    attemptQuery W executeQuery query ctx w0 = (Return h0, w1) ->
    truthy (htext h0) = true /\
    hmodel h0 = ModelDelegationService.dmodel (ModelDelegationService.determineModelForQuery query) /\
    hreasoning h0
      = ModelDelegationService.reasoning (ModelDelegationService.determineModelForQuery query)).
  { intros w0 h0 w1. unfold attemptQuery, optimizeQuery, bind.
    destruct (executeQuery query ctx w0) as [[r|e] w2]; [|discriminate].
    unfold processResponse. destruct (truthy (ModelDelegationService.qtext r)) eqn:Ht;
      cbn [negb]; [|discriminate].
    by intros [= <- _]. }
  generalize (@None jsstring) 0%nat. generalize retryLimit. intros todo.
  revert w. induction todo as [|todo IH]; intros w lastError attempts; [discriminate|].
  cbn [handleLoop]. unfold tryCatch.
  destruct (attemptQuery W executeQuery query ctx w) as [[h0|e] w1] eqn:Hrun.
  - intros [= <- _]. by eapply Hpass.
  - unfold bind.
    destruct ((if (S attempts <? retryLimit)%nat
               then sleep (retryDelay * N.of_nat (S attempts)) else ret tt) w1)
      as [[[]|e'] w2]; [apply IH|discriminate].
Qed.

Lemma handleQuery_reports_the_decision_witness :
  hmodel {| htext := js "fine"; hmodel := Hybrid;
            hreasoning := js "Complex query requiring comprehensive response" |}
    = ModelDelegationService.dmodel (ModelDelegationService.determineModelForQuery (js "hello")).
Proof.
  apply (handleQuery_reports_the_decision
           (fun query ctx w0 =>
              (Return {| ModelDelegationService.qtext := js "fine";
                         ModelDelegationService.qmodel := Claude |},
               w0 ++ [Executed query ctx]))
           wait (js "hello") ∅ []
           {| htext := js "fine"; hmodel := Hybrid;
              hreasoning := js "Complex query requiring comprehensive response" |}
           [Executed (js "hello") ∅]).
  vm_compute. reflexivity.
Defined.

End QueryHandlerFacts.

(* ===================================================================== *)
(** * Tag removal *)
(* ===================================================================== *)

(** The rounds of a star, as [run] makes them. *)
Section Rounds.

Context {R : Type}.
Variable fl : flags.
Variable r1 : re.
Variable greedy : bool.
Variable k : pos -> captures -> option R.

Fixpoint rounds (fuel : nat) (p : pos) (caps : captures) {struct fuel} : option R :=
  match fuel with
  | O => k p caps
  | S fuel' =>
      let more :=
        run fl r1 p caps (fun p' caps' =>
          if Nat.eqb (idx p') (idx p) then None else rounds fuel' p' caps') in
      if greedy
      then match more with Some x => Some x | None => k p caps end
      else match k p caps with Some x => Some x | None => more end
  end.

Lemma run_Star (p : pos) (caps : captures) :
  run fl (Star greedy r1) p caps k = rounds (S (length (rest p))) p caps.
Proof. reflexivity. Qed.

End Rounds.

Section TagStripping.

Import AIService.

(** The text up to the next [>] and the text after it. *)
Fixpoint untilGt (s : jsstring) : option (jsstring * jsstring) :=
  match s with
  | [] => None
  | x :: s' =>
      if x =? 62 then Some ([], s')
      else match untilGt s' with
           | Some (body, after) => Some (x :: body, after)
           | None => None
           end
  end.

(** The text before the first complete tag and the text after it. *)
Fixpoint findTag (s : jsstring) : option (jsstring * jsstring) :=
  match s with
  | [] => None
  | x :: s' =>
      match (if x =? 60 then untilGt s' else None) with
      | Some (_, after) => Some ([], after)
      | None =>
          match findTag s' with
          | Some (before, after) => Some (x :: before, after)
          | None => None
          end
      end
  end.

Lemma untilGt_length s body after :
  untilGt s = Some (body, after) -> length s = S (length body + length after).
Proof.
  revert body after. induction s as [|x s IH]; intros body after; [done|]. cbn [untilGt].
  destruct (x =? 62); [by intros [= <- <-]|].
  destruct (untilGt s) as [[b a]|]; [|done].
  intros [= <- <-]. cbn [length]. by rewrite (IH b a eq_refl).
Qed.

Lemma findTag_shorter s before after :
  findTag s = Some (before, after) -> (length after < length s)%nat.
Proof.
  revert before after. induction s as [|x s IH]; intros before after; [done|]. cbn [findTag].
  destruct (if x =? 60 then untilGt s else None) as [[b a]|] eqn:Hhere.
  - intros [= <- <-]. destruct (x =? 60); [|done].
    apply untilGt_length in Hhere. cbn [length]. lia.
  - destruct (findTag s) as [[b a]|]; [|done]. intros [= <- <-].
    specialize (IH b a eq_refl). cbn [length]. lia.
Qed.

Lemma untilGt_none_findTag s : untilGt s = None -> findTag s = None.
Proof.
  induction s as [|x s IH]; [done|]. cbn [untilGt findTag].
  destruct (x =? 62); [done|].
  destruct (untilGt s) as [[b a]|]; [done|]. intros _.
  rewrite IH by done. by destruct (x =? 60).
Qed.

(** The text in front of the first complete tag has no [<]. *)
Lemma findTag_before s before after :
  findTag s = Some (before, after) -> Forall (fun x => x <> 60) before.
Proof.
  revert before after. induction s as [|x s IH]; intros before after; [done|]. cbn [findTag].
  destruct (if x =? 60 then untilGt s else None) as [[b a]|] eqn:Hhere.
  - by intros [= <- <-].
  - destruct (findTag s) as [[b a]|] eqn:Hlater; [|done]. intros [= <- <-].
    constructor; [|by eapply IH].
    intros ->. cbn in Hhere. by rewrite (untilGt_none_findTag s Hhere) in Hlater.
Qed.

(** A text without [<] in front of another adds no tag. *)
Lemma findTag_app before u :
  Forall (fun x => x <> 60) before ->
  findTag (before ++ u) =
    match findTag u with
    | Some (before', after') => Some (before ++ before', after')
    | None => None
    end.
Proof.
  induction 1 as [|x before Hx _ IH]; cbn [app findTag].
  - by destruct (findTag u) as [[b a]|].
  - apply N.eqb_neq in Hx. rewrite Hx, IH. by destruct (findTag u) as [[b a]|].
Qed.

(** Removing the tags one after the other, as [replace] with the [g] flag
    does. *)
Fixpoint strip (fuel : nat) (s : jsstring) : jsstring :=
  match fuel with
  | O => s
  | S fuel' =>
      match findTag s with
      | None => s
      | Some (before, after) => before ++ strip fuel' after
      end
  end.

Lemma strip_no_tag fuel : forall s, (length s < fuel)%nat -> findTag (strip fuel s) = None.
Proof.
  induction fuel as [|fuel IH]; intros s Hfuel; [lia|]. cbn [strip].
  destruct (findTag s) as [[before after]|] eqn:Hfind; [|done].
  rewrite (findTag_app _ _ (findTag_before _ _ _ Hfind)).
  rewrite IH; [done|]. apply findTag_shorter in Hfind. lia.
Qed.

Lemma strip_length fuel : forall s, (length (strip fuel s) <= length s)%nat.
Proof.
  induction fuel as [|fuel IH]; intros s; [done|]. cbn [strip].
  destruct (findTag s) as [[before after]|] eqn:Hfind; [|done].
  rewrite length_app. specialize (IH after).
  clear -Hfind IH. revert before after Hfind IH.
  induction s as [|x s IHs]; intros before after; [done|]. cbn [findTag].
  destruct (if x =? 60 then untilGt s else None) as [[b a]|] eqn:Hhere.
  - intros [= <- <-] Hle. destruct (x =? 60); [|done].
    apply untilGt_length in Hhere. cbn [length]. lia.
  - destruct (findTag s) as [[b a]|]; [|done]. intros [= <- <-] Hle.
    specialize (IHs b a eq_refl Hle). cbn [length]. lia.
Qed.

(** ** The matcher on the tag pattern *)

Definition notGt : re := Class true [IChar 62].

Lemma run_Seq {R : Type} fl r1 r2 p caps (k : pos -> captures -> option R) :
  run fl (Seq r1 r2) p caps k = run fl r1 p caps (fun p' caps' => run fl r2 p' caps' k).
Proof. reflexivity. Qed.

Lemma run_notGt {R : Type} p caps (k : pos -> captures -> option R) :
  run noFlags notGt p caps k =
    match rest p with
    | x :: s' =>
        if x =? 62 then None else k {| prev := Some x; idx := S (idx p); rest := s' |} caps
    | [] => None
    end.
Proof.
  cbn [run notGt]. unfold advance. destruct (rest p) as [|x s']; [done|].
  unfold classMatches. cbn. by destruct (x =? 62).
Qed.

(** The greedy star over [[^>]] in front of [>]: it runs up to the next
    [>], and fails when there is none. *)
Lemma rounds_notGt {R : Type} (k : pos -> captures -> option R) todo :
  forall fuel p caps,
    rest p = todo ->
    (length todo < fuel)%nat ->
    rounds noFlags notGt true (fun p' caps' => run noFlags (chr 62) p' caps' k) fuel p caps =
      match untilGt todo with
      | Some (body, after) =>
          k {| prev := Some 62; idx := S (idx p + length body); rest := after |} caps
      | None => None
      end.
Proof.
  induction todo as [|x todo IH]; intros fuel p caps Hrest Hfuel;
    (destruct fuel as [|fuel]; [cbn in Hfuel; lia|]);
    cbn [rounds untilGt]; rewrite run_notGt, run_chr, Hrest; [done|].
  destruct (N.eqb_spec x 62) as [->|Hx].
  - cbn [length]. by rewrite Nat.add_0_r.
  - cbn [idx]. replace (S (idx p) =? idx p)%nat with false
      by (symmetry; apply Nat.eqb_neq; lia).
    rewrite (IH fuel {| prev := Some x; idx := S (idx p); rest := todo |} caps eq_refl)
      by (cbn in Hfuel; lia).
    cbn [idx]. destruct (untilGt todo) as [[body after]|]; [|done].
    cbn [length]. replace (S (S (idx p) + length body)) with (S (idx p + S (length body))) by lia.
    by destruct (k _ caps).
Qed.

Lemma matchAt_tagPattern p :
  match matchAt noFlags tagPattern p with
  | Some m =>
      exists x s' body after,
        rest p = x :: s' /\ x = 60 /\ untilGt s' = Some (body, after) /\
        mstart m = idx p /\ rest (mend m) = after /\ idx (mend m) <> mstart m
  | None =>
      match rest p with
      | x :: s' => (if x =? 60 then untilGt s' else None) = None
      | [] => True
      end
  end.
Proof.
  unfold matchAt.
  change tagPattern with (Seq (chr 60) (Seq (Star true notGt) (chr 62))).
  rewrite run_Seq, run_chr.
  destruct (rest p) as [|x s'] eqn:Hrest; [done|].
  destruct (N.eqb_spec x 60) as [->|Hx]; [|done].
  rewrite run_Seq, run_Star.
  rewrite (rounds_notGt _ s') by (cbn; lia || done).
  destruct (untilGt s') as [[body after]|] eqn:Huntil; [|done].
  exists 60, s', body, after. cbn. repeat split; try done. lia.
Qed.

Lemma search_tagPattern todo :
  forall p skipped,
    rest p = todo ->
    match search noFlags tagPattern p todo skipped with
    | Some (sk, m) =>
        exists before after,
          findTag todo = Some (before, after) /\ sk = rev skipped ++ before /\
          rest (mend m) = after /\ idx (mend m) <> mstart m
    | None => findTag todo = None
    end.
Proof.
  induction todo as [|x todo IH]; intros p skipped Hrest; cbn [search findTag];
    pose proof (matchAt_tagPattern p) as Hhere;
    destruct (matchAt noFlags tagPattern p) as [m|]; rewrite Hrest in Hhere.
  - by destruct Hhere as (? & ? & ? & ? & ? & _).
  - done.
  - destruct Hhere as (x' & s' & body & after & [= <- <-] & -> & Huntil & _ & Hafter & Hidx).
    exists [], after. cbn. rewrite Huntil. by rewrite app_nil_r.
  - rewrite Hhere.
    specialize (IH {| prev := Some x; idx := S (idx p); rest := todo |} (x :: skipped) eq_refl).
    destruct (search noFlags tagPattern _ todo (x :: skipped)) as [[sk m]|].
    + destruct IH as (before & after & -> & -> & Hafter & Hidx).
      exists (x :: before), after. cbn [rev]. by rewrite <- app_assoc.
    + by rewrite IH.
Qed.

Lemma test_tagPattern (s : jsstring) :
  test noFlags tagPattern s = match findTag s with Some _ => true | None => false end.
Proof.
  unfold test, searchFrom. pose proof (search_tagPattern s (start s) [] eq_refl) as Hsearch.
  cbn [rest start] in *.
  destruct (search noFlags tagPattern (start s) s []) as [[sk m]|].
  - by destruct Hsearch as (before & after & -> & _).
  - by rewrite Hsearch.
Qed.

Lemma replaceFrom_tagPattern fuel :
  forall p, replaceFrom fuel noFlags tagPattern (fun _ => []) p = strip fuel (rest p).
Proof.
  induction fuel as [|fuel IH]; intros p; [done|]. cbn [replaceFrom strip]. unfold searchFrom.
  pose proof (search_tagPattern (rest p) p [] eq_refl) as Hsearch.
  destruct (search noFlags tagPattern p (rest p) []) as [[sk m]|].
  - destruct Hsearch as (before & after & -> & -> & Hafter & Hidx).
    replace (idx (mend m) =? mstart m)%nat with false by (symmetry; by apply Nat.eqb_neq).
    by rewrite IH, Hafter.
  - by rewrite Hsearch.
Qed.

Lemma stripTags_strip (s : jsstring) : stripTags s = strip (S (length s)) s.
Proof. unfold stripTags, replaceAll. by rewrite replaceFrom_tagPattern. Qed.

Lemma no_gt_untilGt (s : jsstring) : includes (js ">") s = false -> untilGt s = None.
Proof.
  induction s as [|x s IH]; [done|]. cbn [includes untilGt].
  intros H. apply orb_false_iff in H as [Hhere Hlater].
  change (js ">") with [62] in Hhere. cbn [startsWith] in Hhere.
  rewrite andb_true_r, N.eqb_sym in Hhere. by rewrite Hhere, IH.
Qed.

(** [stripTags] leaves no complete tag: the pattern [<[^>]*>] matches
    nowhere in its result, so stripping twice changes nothing more, and
    formatting a stripped text gives what formatting the text gives.  It
    never makes the text longer, and a text without [>] comes back as it is
    (a tag that is never closed is not removed). *)
Theorem stripTags_leaves_no_tag (s : jsstring) :
  test noFlags tagPattern (stripTags s) = false /\
  stripTags (stripTags s) = stripTags s /\
  (length (stripTags s) <= length s)%nat /\
  (includes (js ">") s = false -> stripTags s = s) /\
  (truthy s = true -> truthy (stripTags s) = true ->
   formatResponse (stripTags s) = formatResponse s).
Proof.
  assert (Hclean : test noFlags tagPattern (stripTags s) = false).
  { rewrite test_tagPattern, stripTags_strip. by rewrite strip_no_tag by lia. }
  assert (Htwice : stripTags (stripTags s) = stripTags s).
  { unfold stripTags at 1. by apply replaceAll_no_match. }
  split; [done|]. split; [done|]. split; [rewrite stripTags_strip; apply strip_length|].
  split.
  - intros Hgt. unfold stripTags. apply replaceAll_no_match.
    rewrite test_tagPattern. by rewrite (untilGt_none_findTag s (no_gt_untilGt s Hgt)).
  - intros Hs Hstripped. by rewrite !formatResponse_strips_first, Htwice.
Qed.

End TagStripping.

(* ===================================================================== *)
(** * The usage meter under the hover box *)
(* ===================================================================== *)

Section HoverBoxUsage.

Import UsageTracker.

(** [await this.usageTracker.incrementUsage()] when nothing it awaits
    rejects: the call, its callback started, and its four awaits resumed. *)
Definition awaitIncrement (now : N) : list event :=
  [Call; Start; Resume Completes now; Resume Completes now; Resume Completes now;
   Resume Completes now].

(** The usage calls of [_processSendMessage] for a message that is
    answered: one increment after the response is validated, and one more
    after the response is added to the chat. *)
Definition answeredMessage (now : N) : list event :=
  awaitIncrement now ++ awaitIncrement now.

Lemma run_app (a b : list event) (t : tracker) :
  run t (a ++ b) = match run t a with Some t' => run t' b | None => None end.
Proof.
  revert t. induction a as [|e a IH]; intros t; [done|]. cbn [app run].
  destruct (step t e); [apply IH|done].
Qed.

Lemma awaitIncrement_runs (now : N) (t : tracker) :
  running t = None -> updateLock t = [] ->
  exists t', run t (awaitIncrement now) = Some t' /\ running t' = None /\ updateLock t' = [].
Proof.
  destruct t as [st n lock current done0 accesses]. cbn [running updateLock].
  intros -> ->. unfold awaitIncrement.
  cbn -[getUserId getUsageCount usageKey].
  destruct (getUserId now st) as [u st1]. cbn -[getUserId getUsageCount usageKey].
  destruct (getUsageCount now st1) as [c st2]. cbn -[getUserId getUsageCount usageKey].
  eexists. split; [reflexivity|]. done.
Qed.

Lemma answeredMessages_run (nows : list N) (t : tracker) :
  running t = None -> updateLock t = [] ->
  exists t', run t (flat_map answeredMessage nows) = Some t' /\
             running t' = None /\ updateLock t' = [].
Proof.
  revert t. induction nows as [|now nows IH]; intros t Hrunning Hlock; [by exists t|].
  cbn [flat_map]. unfold answeredMessage at 1. rewrite <- app_assoc, run_app.
  destruct (awaitIncrement_runs now t Hrunning Hlock) as (t1 & -> & Hrunning1 & Hlock1).
  rewrite run_app.
  destruct (awaitIncrement_runs now t1 Hrunning1 Hlock1) as (t2 & -> & Hrunning2 & Hlock2).
  by apply IH.
Qed.

Lemma answeredMessages_unfailing (nows : list N) : unfailing (flat_map answeredMessage nows).
Proof.
  intros a now Hin. apply in_flat_map in Hin as (now0 & _ & Hin).
  unfold answeredMessage, awaitIncrement in Hin. cbn in Hin.
  repeat (destruct Hin as [Hin|Hin]; [by (discriminate Hin || injection Hin as <- _)|]).
  destruct Hin.
Qed.

Lemma answeredMessages_calls (nows : list N) :
  countCalls (flat_map answeredMessage nows) = (2 * length nows)%nat.
Proof.
  unfold countCalls. induction nows as [|now nows IH]; [done|].
  cbn [flat_map]. rewrite List.filter_app, length_app, IH. cbn. lia.
Qed.

(** An answered message in the hover box costs two uses.  Starting from a
    counter that reads 0, after [n] answered messages have been processed one
    after the other the counter reads [2 n], so [checkUsageLimit()] reports
    the free quota of 25 as exceeded from the thirteenth message on. *)
Theorem answered_message_costs_two_uses (st : storage) (nows : list N) (now' : N) :
  reads st 0 ->
  exists t,
    run (init st) (flat_map answeredMessage nows) = Some t /\
    idle t /\
    reads (store t) (2 * Z.of_nat (length nows)) /\
    limitUsage (fst (checkUsageLimit now' (store t))) = (2 * Z.of_nat (length nows))%Z /\
    (limitExceeded (fst (checkUsageLimit now' (store t))) = true <-> (13 <= length nows)%nat).
Proof.
  intros Hzero.
  destruct (answeredMessages_run nows (init st) eq_refl eq_refl) as (t & Hrun & Hrunning & Hlock).
  exists t. split; [done|]. split; [done|].
  pose proof (run_calls _ _ _ Hrun) as Hcalls. rewrite answeredMessages_calls in Hcalls.
  cbn [calls init] in Hcalls.
  destruct (serial_run _ (init st) t (serial_init st Hzero) (answeredMessages_unfailing nows) Hrun)
    as (started & Hle & Hwaiting & Hstate).
  rewrite Hrunning in Hstate. rewrite Hlock in Hwaiting.
  assert (started = (2 * length nows)%nat) as ->.
  { destruct (calls t - started)%nat eqn:Hk; [lia|done]. }
  destruct Hstate as (_ & Hreads & _).
  assert (Hreads' : reads (store t) (2 * Z.of_nat (length nows))).
  { by replace (2 * Z.of_nat (length nows))%Z with (Z.of_nat (2 * length nows)) by lia. }
  split; [done|].
  unfold checkUsageLimit. specialize (Hreads' now').
  destruct (getUsageCount now' (store t)) as [c st']. cbn [fst] in *. subst c.
  cbn [limitUsage limitExceeded]. split; [done|].
  unfold MAX_FREE_USES. rewrite Z.leb_le. lia.
Qed.

Lemma answered_message_costs_two_uses_witness :
  exists t,
    run (init {| userId := None; counters := ∅ |})
        (flat_map answeredMessage (repeat 1700000000000%N 13%nat)) = Some t /\
    idle t /\
    reads (store t) (2 * Z.of_nat (length (repeat 1700000000000%N 13%nat))) /\
    limitUsage (fst (checkUsageLimit 0 (store t)))
      = (2 * Z.of_nat (length (repeat 1700000000000%N 13%nat)))%Z /\
    (limitExceeded (fst (checkUsageLimit 0 (store t))) = true
     <-> (13 <= length (repeat 1700000000000%N 13%nat))%nat).
Proof.
  apply (answered_message_costs_two_uses {| userId := None; counters := ∅ |}
           (repeat 1700000000000%N 13%nat) 0).
  intros now. reflexivity.
Defined.

End HoverBoxUsage.

(* ===================================================================== *)
(** * Further properties of the scoring-based combiner *)
(* ===================================================================== *)

Section CombinerMore.

Import ModelDelegationService.

(** A keyword score is always a number (the divisor is at least 1), it is
    not negative, and it is at most the number of keywords; it is not a
    fraction of the query's words: keywords are found as substrings, and a
    query of one word can hold several. *)
Theorem keyword_score_bounds (query : jsstring) (keywords : list jsstring) :
  (exists q, calculateKeywordScore query keywords = Some q /\
             (0 <= q)%Q /\ (q <= inject_Z (Z.of_nat (length keywords)))%Q) /\
  calculateKeywordScore (js "weather-now") realTimeKeywords = ratio 2 1.
Proof.
  split; [|reflexivity].
  unfold calculateKeywordScore.
  pose proof (List.filter_length_le (fun keyword => includes keyword query) keywords) as Hle.
  set (matches := List.filter _ keywords) in *.
  destruct (Nat.max (length (splitChar 32 query)) 1) as [|den] eqn:Hden; [lia|].
  cbn [ratio]. eexists. split; [reflexivity|].
  assert (Hpos : Z.pos (Pos.of_nat (S den)) = Z.of_nat (S den)).
  { rewrite <- positive_nat_Z, Nat2Pos.id; lia. }
  unfold Qle, inject_Z. cbn [Qnum Qden]. rewrite Hpos. split; nia.
Qed.

Lemma gtNum_mono (x : option Q) (y1 y2 : Q) :
  (y1 <= y2)%Q -> gtNum x y2 = true -> gtNum x y1 = true.
Proof.
  intros Hle. destruct x as [q|]; cbn [gtNum]; [|done].
  rewrite !negb_true_iff. intros Hgt.
  destruct (Qle_bool q y1) eqn:H1; [|done].
  apply Qle_bool_iff in H1.
  assert (Hq : Qle_bool q y2 = true) by (apply Qle_bool_iff; by eapply Qle_trans).
  congruence.
Qed.

Lemma analyzeQueryContext_perplexity (query : jsstring) (d : decision) :
  analyzeQueryContext query = Some d -> dmodel d = Perplexity /\ scores d = None.
Proof.
  unfold analyzeQueryContext.
  destruct (test flagI locationPattern query); [by intros [= <-]|].
  destruct (test flagI timePattern query); [by intros [= <-]|done].
Qed.

(** When the combiner decides for Claude.  The decision is the analytical
    model exactly when the analytical score is above 0.5 and the real-time
    score is not above 0.3; and a decision that carries no scores is one of
    the contextual ones, which name Perplexity. *)
Theorem combiner_picks_claude_iff (query : jsstring) :
  let realTimeScore := calculateKeywordScore (toLowerCase query) realTimeKeywords in
  let analyticalScore := calculateKeywordScore (toLowerCase query) analyticalKeywords in
  (dmodel (determineModelForQuery query) = Claude <->
   gtNum analyticalScore SINGLE_MODEL_THRESHOLD = true /\
   gtNum realTimeScore HYBRID_THRESHOLD = false) /\
  (scores (determineModelForQuery query) = None ->
   dmodel (determineModelForQuery query) = Perplexity).
Proof.
  intros rt an. unfold determineModelForQuery. fold rt an.
  assert (Hmono : forall x, gtNum x SINGLE_MODEL_THRESHOLD = true ->
                            gtNum x HYBRID_THRESHOLD = true).
  { intros x. apply gtNum_mono. by vm_compute. }
  pose proof (analyzeQueryContext_perplexity query) as Hcontext.
  destruct (gtNum rt HYBRID_THRESHOLD) eqn:Hrt3;
    destruct (gtNum an HYBRID_THRESHOLD) eqn:Han3; cbn [andb dmodel scores].
  - split; [|done]. split; [done|]. by intros [_ ?].
  - destruct (gtNum rt SINGLE_MODEL_THRESHOLD) eqn:Hrt5; cbn [dmodel scores].
    { split; [|done]. split; [done|]. by intros [_ ?]. }
    destruct (gtNum an SINGLE_MODEL_THRESHOLD) eqn:Han5; cbn [dmodel scores].
    { rewrite (Hmono an Han5) in Han3. done. }
    destruct (analyzeQueryContext query) as [d|]; cbn [dmodel scores].
    + destruct (Hcontext d eq_refl) as [-> ->]. split; [|done]. split; [done|]. by intros [? _].
    + split; [|done]. split; [done|]. by intros [? _].
  - destruct (gtNum rt SINGLE_MODEL_THRESHOLD) eqn:Hrt5; cbn [dmodel scores].
    { rewrite (Hmono rt Hrt5) in Hrt3. done. }
    destruct (gtNum an SINGLE_MODEL_THRESHOLD) eqn:Han5; cbn [dmodel scores].
    { split; [|done]. split; done. }
    destruct (analyzeQueryContext query) as [d|]; cbn [dmodel scores].
    + destruct (Hcontext d eq_refl) as [-> ->]. split; [|done]. split; [done|]. by intros [? _].
    + split; [|done]. split; [done|]. by intros [? _].
  - destruct (gtNum rt SINGLE_MODEL_THRESHOLD) eqn:Hrt5; cbn [dmodel scores].
    { rewrite (Hmono rt Hrt5) in Hrt3. done. }
    destruct (gtNum an SINGLE_MODEL_THRESHOLD) eqn:Han5; cbn [dmodel scores].
    { rewrite (Hmono an Han5) in Han3. done. }
    destruct (analyzeQueryContext query) as [d|]; cbn [dmodel scores].
    + destruct (Hcontext d eq_refl) as [-> ->]. split; [|done]. split; [done|]. by intros [? _].
    + split; [|done]. split; [done|]. by intros [? _].
Qed.

End CombinerMore.

(* ===================================================================== *)
(** * The single-shot Claude handler *)
(* ===================================================================== *)

Section SingleShot.

Import Background.

(** [handleClaudeRequest] of the single-shot worker never rejects and
    fetches at most once.  A failure comes back as a [success: false]
    response that carries the error behind ['Claude API Error: '] and an
    apology that embeds the same message; without a key the failure is the
    missing key, and nothing is fetched. *)
Theorem handleClaudeRequestOnce_never_rejects fetch (apiKey : jsstring) (message : request)
    (w : list event) :
  exists r w',
    handleClaudeRequestOnce fetch apiKey message w = (Return r, w') /\
    (w' = w \/ w' = w ++ [claudeFetch message]) /\
    (truthy apiKey = false ->
     w' = w /\ success r = false /\
     error r = Some (js "Claude API Error: Claude API key is not set")) /\
    (success r = false ->
     exists e, error r = Some (js "Claude API Error: " ++ e) /\
               text r = Some (js "I apologize, but I couldn't process your request: " ++ e)).
Proof.
  unfold handleClaudeRequestOnce, tryCatch.
  destruct (truthy apiKey); cbn [negb].
  - pose proof (claudeAttempt_outcomes fetch message 0 w) as Hattempt.
    destruct (claudeAttempt fetch message 0 w) as [[r|e] w1].
    + destruct Hattempt as [Hsuccess ->]. exists r, (w ++ [claudeFetch message]).
      split; [done|]. split; [by right|]. split; [done|]. congruence.
    + subst w1. eexists _, _. split; [reflexivity|]. split; [by right|]. split; [done|].
      intros _. by exists e.
  - eexists _, _. split; [reflexivity|]. split; [by left|]. split; [done|].
    intros _. by eexists.
Qed.

End SingleShot.
